(** * UI watchers plugin: registry, element-reference cache, matching engine
      and interception layer

    A shallow embedding of the TypeScript sources

      - [src/watcher-store.ts]    (module [WatcherStore])
      - [src/validators.ts]       (module [Validators])
      - [src/commands/register.ts], [src/commands/list.ts] (module [Commands])
      - [src/element-cache.ts]    (module [ElementReferenceCache])
      - [src/utils.ts]            (module [Utils])
      - [src/watcher-checker.ts]  (module [Checker])
      - [src/plugin.ts]           (module [Plugin])

    Conventions of the embedding.

    - JavaScript numbers that the program uses as counts, indices, priorities
      and millisecond timestamps are integers ([Z], or [nat] for sizes and
      indices).  Registration parameters arrive as JSON, which carries neither
      NaN nor the infinities.
    - A synchronous method runs at one reading of the clock: every
      [Date.now()] inside one synchronous call returns the [now] argument of
      its model.
    - A JavaScript [Map] whose iteration order is observable (the watchers of
      a store) is an insertion-ordered association list with unique keys
      ([JsMap]); a [Map] or [Set] that is only read by key, or folded with an
      order-insensitive body, is a [gmap] or a [gset].
    - Asynchronous code is sequential (the host serialises the calls of one
      session); a driver call is a state transformer on an abstract [World],
      and every call is recorded in a trace of [Event]s.
    - Logging has no effect on the state and is left out. *)

From Stdlib Require Import Ascii String.
From stdpp Require Import gmap strings list fin_maps sorting pretty.

Set Warnings "-register-all,-clear-no-such-hyp".
Set Default Proof Using "Type".
Open Scope string_scope.
Open Scope Z_scope.

(* ====================================================================== *)
(** * JavaScript values                                                    *)
(* ====================================================================== *)

Module Js.

(** Dynamically typed values, as far as the program inspects them. *)
Inductive JsVal :=
| JUndefined
| JNull
| JBool (b : bool)
| JNum (n : Z)
| JStr (s : string)
| JArr (items : list JsVal)
| JObj (fields : list (string * JsVal)).

Inductive JsType := TUndefined | TObject | TBoolean | TNumber | TString.

#[global] Instance JsType_eq_dec : EqDecision JsType.
Proof. solve_decision. Defined.

Definition typeof (v : JsVal) : JsType :=
  match v with
  | JUndefined => TUndefined
  | JNull => TObject
  | JBool _ => TBoolean
  | JNum _ => TNumber
  | JStr _ => TString
  | JArr _ => TObject
  | JObj _ => TObject
  end.

(** [!!v] *)
Definition truthy (v : JsVal) : bool :=
  match v with
  | JUndefined | JNull => false
  | JBool b => b
  | JNum n => negb (n =? 0)
  | JStr s => negb (String.eqb s "")
  | JArr _ | JObj _ => true
  end.

(** [v === undefined || v === null] *)
Definition nullish (v : JsVal) : bool :=
  match v with
  | JUndefined | JNull => true
  | _ => false
  end.

Fixpoint assoc (k : string) (fs : list (string * JsVal)) : option JsVal :=
  match fs with
  | [] => None
  | (k', v) :: rest => if String.eqb k k' then Some v else assoc k rest
  end.

(** Property read [v.k] on a value that is not null or undefined. *)
Definition field (v : JsVal) (k : string) : JsVal :=
  match v with
  | JObj fs => default JUndefined (assoc k fs)
  | _ => JUndefined
  end.

(** [a || b] on strings: the empty string is falsy. *)
Definition str_or (a b : string) : string :=
  if String.eqb a "" then b else a.

(** [s.includes(sub)] *)
Definition includes (s sub : string) : bool :=
  match String.index 0 sub s with
  | Some _ => true
  | None => false
  end.

Definition lower_ascii (c : ascii) : ascii :=
  let n := nat_of_ascii c in
  if ((65 <=? n) && (n <=? 90))%nat then ascii_of_nat (n + 32) else c.

(** [s.toLowerCase()], on the ASCII letters. *)
Fixpoint toLowerCase (s : string) : string :=
  match s with
  | EmptyString => EmptyString
  | String c rest => String (lower_ascii c) (toLowerCase rest)
  end.

(** A string of the model is the UTF-8 encoding of the JavaScript string.
    [String.prototype.trim] removes the code points WhiteSpace and
    LineTerminator of the language.  Those of one byte are U+0009 to U+000D
    and U+0020: *)
Definition is_space (c : ascii) : bool :=
  let n := nat_of_ascii c in
  ((9 <=? n) && (n <=? 13) || (n =? 32))%nat.

(** the one of two bytes is U+00A0 (C2 A0): *)
Definition is_space2 (c1 c2 : ascii) : bool :=
  ((nat_of_ascii c1 =? 194) && (nat_of_ascii c2 =? 160))%nat.

(** and those of three bytes are U+1680 (E1 9A 80), U+2000 to U+200A
    (E2 80 80 to E2 80 8A), U+2028 and U+2029 (E2 80 A8, E2 80 A9), U+202F
    (E2 80 AF), U+205F (E2 81 9F), U+3000 (E3 80 80) and U+FEFF
    (EF BB BF). *)
Definition is_space3 (c1 c2 c3 : ascii) : bool :=
  let n1 := nat_of_ascii c1 in
  let n2 := nat_of_ascii c2 in
  let n3 := nat_of_ascii c3 in
  ((n1 =? 225) && (n2 =? 154) && (n3 =? 128)
   || (n1 =? 226) && (n2 =? 128)
      && ((128 <=? n3) && (n3 <=? 138) || (n3 =? 168) || (n3 =? 169) || (n3 =? 175))
   || (n1 =? 226) && (n2 =? 129) && (n3 =? 159)
   || (n1 =? 227) && (n2 =? 128) && (n3 =? 128)
   || (n1 =? 239) && (n2 =? 187) && (n3 =? 191))%nat.

(** [s.trim() === '']: the string holds nothing but such code points. *)
Fixpoint trim_is_empty (s : string) : bool :=
  match s with
  | EmptyString => true
  | String c1 rest1 =>
      if is_space c1 then trim_is_empty rest1
      else
        match rest1 with
        | EmptyString => false
        | String c2 rest2 =>
            if is_space2 c1 c2 then trim_is_empty rest2
            else
              match rest2 with
              | EmptyString => false
              | String c3 rest3 => is_space3 c1 c2 c3 && trim_is_empty rest3
              end
        end
  end.

(** A thrown value, reduced to the three properties the program reads:
    [name], [error] (both [''] when absent) and [message]. *)
Record JsError := mkJsError {
  err_name : string;
  err_error : string;
  err_message : option string
}.

(** [new Error(msg)] *)
Definition newError (msg : string) : JsError :=
  {| err_name := "Error"; err_error := ""; err_message := Some msg |}.

#[global] Instance JsError_eq_dec : EqDecision JsError.
Proof. solve_decision. Defined.

(** The result of a call that returns or throws. *)
Inductive result (A : Type) :=
| Ok (a : A)
| Err (e : JsError).
Arguments Ok {A} a.
Arguments Err {A} e.

End Js.
Import Js.

(* ====================================================================== *)
(** * An insertion-ordered map (JavaScript [Map])                          *)
(* ====================================================================== *)

Module JsMap.
Section JsMap.
Context {V : Type}.

Definition t := list (string * V).

Fixpoint get (k : string) (m : list (string * V)) : option V :=
  match m with
  | [] => None
  | (k', v) :: rest => if String.eqb k k' then Some v else get k rest
  end.

Definition has (k : string) (m : list (string * V)) : bool :=
  match get k m with Some _ => true | None => false end.

(** [m.set(k, v)]: an existing key keeps its position, a new key goes
    to the end. *)
Fixpoint set (k : string) (v : V) (m : list (string * V)) : list (string * V) :=
  match m with
  | [] => [(k, v)]
  | (k', v') :: rest =>
      if String.eqb k k' then (k', v) :: rest else (k', v') :: set k v rest
  end.

(** [m.delete(k)] *)
Fixpoint delete (k : string) (m : list (string * V)) : list (string * V) :=
  match m with
  | [] => []
  | (k', v') :: rest =>
      if String.eqb k k' then rest else (k', v') :: delete k rest
  end.

(** In-place mutation of the object stored under [k], if any. *)
Fixpoint update (f : V -> V) (k : string) (m : list (string * V)) : list (string * V) :=
  match m with
  | [] => []
  | (k', v') :: rest =>
      if String.eqb k k' then (k', f v') :: rest else (k', v') :: update f k rest
  end.

Definition keys (m : list (string * V)) : list string := map fst m.
Definition values (m : list (string * V)) : list V := map snd m.
Definition size (m : list (string * V)) : nat := length m.
End JsMap.
End JsMap.

(* ====================================================================== *)
(** * [src/types.ts] and [src/config.ts]                                   *)
(* ====================================================================== *)

(** [using] is reserved in Rocq, hence the prefix on the two fields. *)
Record Locator := mkLocator { loc_using : string; loc_value : string }.

Module UIWatcher.
(** Registration parameters; an absent optional field is [None]. *)
Record t := mk {
  name : string;
  priority : option Z;
  referenceLocator : Locator;
  actionLocator : Locator;
  duration : Z;
  stopOnFound : option bool;
  cooldownMs : option Z
}.
End UIWatcher.

Inductive Status := active | inactive.

#[global] Instance Status_eq_dec : EqDecision Status.
Proof. solve_decision. Defined.

Module WatcherState.
Record t := mk {
  name : string;
  priority : Z;
  referenceLocator : Locator;
  actionLocator : Locator;
  duration : Z;
  stopOnFound : bool;
  cooldownMs : Z;
  registeredAt : Z;
  expiresAt : Z;
  status : Status;
  triggerCount : Z;
  lastTriggeredAt : option Z
}.

Definition set_status (st : Status) (w : t) : t :=
  mk (name w) (priority w) (referenceLocator w) (actionLocator w) (duration w)
     (stopOnFound w) (cooldownMs w) (registeredAt w) (expiresAt w) st
     (triggerCount w) (lastTriggeredAt w).

Definition set_trigger (count : Z) (last : option Z) (w : t) : t :=
  mk (name w) (priority w) (referenceLocator w) (actionLocator w) (duration w)
     (stopOnFound w) (cooldownMs w) (registeredAt w) (expiresAt w) (status w)
     count last.
End WatcherState.

Module PluginConfig.
Record t := mk {
  maxWatchers : nat;
  maxDurationMs : Z;
  maxCacheEntries : nat;
  elementTtlMs : Z
}.
End PluginConfig.

Definition DefaultPluginConfig : PluginConfig.t :=
  {| PluginConfig.maxWatchers := 5;
     PluginConfig.maxDurationMs := 60000;
     PluginConfig.maxCacheEntries := 50;
     PluginConfig.elementTtlMs := 60000 |}.

(* ====================================================================== *)
(** * [src/watcher-store.ts]                                               *)
(* ====================================================================== *)

Module WatcherStore.

(** The capacity of a store is the constant [MAX_WATCHERS = 5].  The
    constructor takes no argument: the configuration that [src/plugin.ts]
    passes to it is not read. *)
Definition MAX_WATCHERS : nat := 5.

Record t := mk {
  watchers : list (string * WatcherState.t);
  enabled : bool
}.

(** [constructor] *)
Definition new : t := {| watchers := []; enabled := true |}.

Definition expired (now : Z) (w : WatcherState.t) : bool :=
  WatcherState.expiresAt w <=? now.

(** [getActiveWatchers]: the unexpired watchers, in storage order; the
    expired ones are deleted from the storage. *)
Definition getActiveWatchers (now : Z) (s : t) : list WatcherState.t * t :=
  let activeWatchers :=
    filter (fun w => expired now w = false) (JsMap.values (watchers s)) in
  let expiredNames :=
    JsMap.keys (filter (fun e => expired now (snd e) = true) (watchers s)) in
  (activeWatchers,
   {| watchers := foldl (fun m n => JsMap.delete n m) (watchers s) expiredNames;
      enabled := enabled s |}).

Definition duplicateError (name : string) : JsError :=
  newError ("UIWatcher with name '" ++ name ++ "' already exists").

Definition capacityError : JsError :=
  newError "Maximum 5 UI watchers allowed per session".

(** [add] *)
Definition add (now : Z) (watcher : UIWatcher.t) (s : t)
  : result WatcherState.t * t :=
  if JsMap.has (UIWatcher.name watcher) (watchers s) then
    (Err (duplicateError (UIWatcher.name watcher)), s)
  else
    let '(activeWatchers, s1) := getActiveWatchers now s in
    let activeCount := length activeWatchers in
    if (MAX_WATCHERS <=? activeCount)%nat then
      (Err capacityError, s1)
    else
      let watcherState :=
        {| WatcherState.name := UIWatcher.name watcher;
           WatcherState.priority := default 0 (UIWatcher.priority watcher);
           WatcherState.referenceLocator := UIWatcher.referenceLocator watcher;
           WatcherState.actionLocator := UIWatcher.actionLocator watcher;
           WatcherState.duration := UIWatcher.duration watcher;
           WatcherState.stopOnFound := default false (UIWatcher.stopOnFound watcher);
           WatcherState.cooldownMs := default 0 (UIWatcher.cooldownMs watcher);
           WatcherState.registeredAt := now;
           WatcherState.expiresAt := now + UIWatcher.duration watcher;
           WatcherState.status := active;
           WatcherState.triggerCount := 0;
           WatcherState.lastTriggeredAt := None |} in
      (Ok watcherState,
       {| watchers := JsMap.set (UIWatcher.name watcher) watcherState (watchers s1);
          enabled := enabled s1 |}).

(** [remove] *)
Definition remove (name : string) (s : t) : bool * t :=
  (JsMap.has name (watchers s),
   {| watchers := JsMap.delete name (watchers s); enabled := enabled s |}).

(** [get] *)
Definition get (name : string) (s : t) : option WatcherState.t :=
  JsMap.get name (watchers s).

(** The comparator of [getSortedWatchers]. *)
Definition compare (a b : WatcherState.t) : Z :=
  if decide (WatcherState.priority a ≠ WatcherState.priority b) then
    WatcherState.priority b - WatcherState.priority a
  else
    WatcherState.registeredAt a - WatcherState.registeredAt b.

(** [Array.prototype.sort(cmp)].  The language requires the sort to be
    stable, and for a comparator that is a consistent ordering the result
    is then determined; it is computed here by a stable insertion sort. *)
Section Sort.
Context {A : Type} (cmp : A -> A -> Z).

(** [x] may stand before [y] in the sorted array. *)
Definition before (x y : A) : Prop := cmp x y <= 0.

Fixpoint insert_sorted (x : A) (l : list A) : list A :=
  match l with
  | [] => [x]
  | y :: rest =>
      if cmp x y <=? 0 then x :: y :: rest else y :: insert_sorted x rest
  end.

Fixpoint sort (l : list A) : list A :=
  match l with
  | [] => []
  | x :: rest => insert_sorted x (sort rest)
  end.
End Sort.

(** [getSortedWatchers] *)
Definition getSortedWatchers (now : Z) (s : t) : list WatcherState.t * t :=
  let '(activeWatchers, s1) := getActiveWatchers now s in
  (sort compare activeWatchers, s1).

(** [clear] *)
Definition clear (s : t) : nat * t :=
  (JsMap.size (watchers s), {| watchers := []; enabled := enabled s |}).

(** [markInactive] *)
Definition markInactive (name : string) (s : t) : t :=
  {| watchers := JsMap.update (WatcherState.set_status inactive) name (watchers s);
     enabled := enabled s |}.

(** [incrementTriggerCount] *)
Definition incrementTriggerCount (now : Z) (name : string) (s : t) : t :=
  {| watchers :=
       JsMap.update
         (fun w => WatcherState.set_trigger (WatcherState.triggerCount w + 1) (Some now) w)
         name (watchers s);
     enabled := enabled s |}.

(** [updateLastTriggered] *)
Definition updateLastTriggered (now : Z) (name : string) (s : t) : t :=
  {| watchers :=
       JsMap.update
         (fun w => WatcherState.set_trigger (WatcherState.triggerCount w) (Some now) w)
         name (watchers s);
     enabled := enabled s |}.

Definition disable (s : t) : t := {| watchers := watchers s; enabled := false |}.
Definition enable (s : t) : t := {| watchers := watchers s; enabled := true |}.
Definition isEnabled (s : t) : bool := enabled s.

(** [list]: all stored watchers, expired ones included. *)
Definition list (s : t) : list WatcherState.t := JsMap.values (watchers s).

End WatcherStore.

(* ====================================================================== *)
(** * [src/utils.ts]                                                       *)
(* ====================================================================== *)

Module Utils.

Definition W3C_ELEMENT_KEY : string := "element-6066-11e4-a52e-4f735466cecf".

(** A property that holds a non-empty string ([ElementObject] types both
    identifier properties as strings). *)
Definition truthy_string (v : JsVal) : option string :=
  match v with
  | JStr s => if String.eqb s "" then None else Some s
  | _ => None
  end.

(** [extractElementId] *)
Definition extractElementId (element : JsVal) : option string :=
  if negb (truthy element) then None
  else
    match element with
    | JStr s => Some s
    | _ =>
        match truthy_string (field element W3C_ELEMENT_KEY) with
        | Some id => Some id
        | None => truthy_string (field element "ELEMENT")
        end
    end.

End Utils.

(* ====================================================================== *)
(** * [src/validators.ts]                                                  *)
(* ====================================================================== *)

Module Validators.

(** The bound on the duration is the constant [MAX_DURATION_MS = 60000];
    the validators do not see the configuration. *)
Definition MAX_DURATION_MS : Z := 60000.

Definition VALID_LOCATOR_STRATEGIES : list string :=
  [ "id"; "accessibility id"; "class name"; "xpath"; "name";
    "-android uiautomator"; "-ios predicate string"; "-ios class chain";
    "css selector" ].

Definition is_type (ty : JsType) (v : JsVal) : bool := bool_decide (typeof v = ty).

(** [validateLocator]; [Ok tt] when no rule fails. *)
Definition validateLocator (locator : JsVal) (fieldName : string) : result unit :=
  if negb (truthy locator) || negb (is_type TObject locator) then
    Err (newError (fieldName ++ " is required"))
  else if negb (truthy (field locator "using")) then
    Err (newError ("'using' is mandatory for " ++ fieldName))
  else if negb (is_type TString (field locator "using")) then
    Err (newError ("'using' must be string for " ++ fieldName ++ " "))
  else if negb (truthy (field locator "value")) then
    Err (newError ("'value' is mandatory for " ++ fieldName))
  else if negb (is_type TString (field locator "value")) then
    Err (newError ("'value' must be string for " ++ fieldName ++ " "))
  else
    match field locator "using" with
    | JStr u =>
        if bool_decide (toLowerCase u ∈ VALID_LOCATOR_STRATEGIES) then Ok tt
        else Err (newError ("Invalid locator strategy for " ++ fieldName))
    | _ => Err (newError ("Invalid locator strategy for " ++ fieldName))
    end.

(** [duration <= 0] and [duration > max] on a value of type number. *)
Definition num_le (v : JsVal) (bound : Z) : bool :=
  match v with JNum n => n <=? bound | _ => false end.
Definition num_gt (v : JsVal) (bound : Z) : bool :=
  match v with JNum n => bound <? n | _ => false end.
Definition num_lt (v : JsVal) (bound : Z) : bool :=
  match v with JNum n => n <? bound | _ => false end.

Definition name_blank (v : JsVal) : bool :=
  match v with JStr s => trim_is_empty s | _ => false end.

(** The checks of [validateWatcherParams] that follow the two locators. *)
Definition validateRest (params : JsVal) : result unit :=
  let duration := field params "duration" in
  let priority := field params "priority" in
  let stopOnFound := field params "stopOnFound" in
  let cooldownMs := field params "cooldownMs" in
  if nullish duration then
    Err (newError "UIWatcher duration is required")
  else if negb (is_type TNumber duration) || num_le duration 0 then
    Err (newError "UIWatcher duration must be a positive number")
  else if num_gt duration MAX_DURATION_MS then
    Err (newError "UIWatcher duration must be ≤ 60 seconds")
  else if negb (nullish priority) && negb (is_type TNumber priority) then
    Err (newError "UIWatcher priority must be a number")
  else if negb (nullish stopOnFound) && negb (is_type TBoolean stopOnFound) then
    Err (newError "UIWatcher stopOnFound must be a boolean")
  else if negb (nullish cooldownMs) && negb (is_type TNumber cooldownMs) then
    Err (newError "UIWatcher cooldownMs must be a number")
  else if negb (nullish cooldownMs) && num_lt cooldownMs 0 then
    Err (newError "UIWatcher cooldownMs must be ≥ 0")
  else Ok tt.

(** [validateWatcherParams] *)
Definition validateWatcherParams (params : JsVal) : result unit :=
  if negb (truthy params) || negb (is_type TObject params) then
    Err (newError "Invalid watcher parameters")
  else if negb (truthy (field params "name")) then
    Err (newError "UIWatcher name is required")
  else if negb (is_type TString (field params "name")) then
    Err (newError "UIWatcher name must be string type")
  else if name_blank (field params "name") then
    Err (newError "UIWatcher name is empty")
  else if negb (truthy (field params "referenceLocator")) then
    Err (newError "UIWatcher referenceLocator is required")
  else
    match validateLocator (field params "referenceLocator") "referenceLocator" with
    | Err e => Err e
    | Ok _ =>
        if negb (truthy (field params "actionLocator")) then
          Err (newError "UIWatcher actionLocator is required")
        else
          match validateLocator (field params "actionLocator") "actionLocator" with
          | Err e => Err e
          | Ok _ => validateRest params
          end
    end.

(** [duration] is a number, strictly positive and at most the maximum. *)
Definition durationValid (duration : JsVal) : Prop :=
  exists n, duration = JNum n ∧ 0 < n <= MAX_DURATION_MS.

End Validators.

(* ====================================================================== *)
(** * [src/commands/*.ts]                                                  *)
(* ====================================================================== *)

Module Commands.

Definition as_string (v : JsVal) : string :=
  match v with JStr s => s | _ => "" end.
Definition as_number (v : JsVal) : Z :=
  match v with JNum n => n | _ => 0 end.
Definition opt_number (v : JsVal) : option Z :=
  match v with JNum n => Some n | _ => None end.
Definition opt_bool (v : JsVal) : option bool :=
  match v with JBool b => Some b | _ => None end.
Definition as_locator (v : JsVal) : Locator :=
  {| loc_using := as_string (field v "using");
     loc_value := as_string (field v "value") |}.

(** The statically typed view ([UIWatcher]) of parameters that passed
    [validateWatcherParams]; an optional field that is null or undefined is
    absent. *)
Definition asUIWatcher (params : JsVal) : UIWatcher.t :=
  {| UIWatcher.name := as_string (field params "name");
     UIWatcher.priority := opt_number (field params "priority");
     UIWatcher.referenceLocator := as_locator (field params "referenceLocator");
     UIWatcher.actionLocator := as_locator (field params "actionLocator");
     UIWatcher.duration := as_number (field params "duration");
     UIWatcher.stopOnFound := opt_bool (field params "stopOnFound");
     UIWatcher.cooldownMs := opt_number (field params "cooldownMs") |}.

Record RegisteredWatcher := {
  rw_name : string;
  rw_priority : Z;
  rw_registeredAt : Z;
  rw_expiresAt : Z;
  rw_status : Status
}.

(** [registerUIWatcher]; the [success: true] flag of the response is the
    [Ok] of the result. *)
Definition registerUIWatcher (now : Z)
    (store : WatcherStore.t) (params : JsVal)
  : result RegisteredWatcher * WatcherStore.t :=
  match Validators.validateWatcherParams params with
  | Err e => (Err e, store)
  | Ok _ =>
      match WatcherStore.add now (asUIWatcher params) store with
      | (Err e, store') => (Err e, store')
      | (Ok watcherState, store') =>
          (Ok {| rw_name := WatcherState.name watcherState;
                 rw_priority := WatcherState.priority watcherState;
                 rw_registeredAt := WatcherState.registeredAt watcherState;
                 rw_expiresAt := WatcherState.expiresAt watcherState;
                 rw_status := WatcherState.status watcherState |},
           store')
      end
  end.

(** [unregisterUIWatcher] *)
Definition unregisterUIWatcher (store : WatcherStore.t) (name : JsVal)
  : result string * WatcherStore.t :=
  match name with
  | JStr n =>
      if String.eqb n "" then (Err (newError "UIWatcher name is required"), store)
      else
        match WatcherStore.get n store with
        | None => (Err (newError ("UIWatcher '" ++ n ++ "' not found")), store)
        | Some _ => (Ok n, snd (WatcherStore.remove n store))
        end
  | _ => (Err (newError "UIWatcher name is required"), store)
  end.

(** [clearAllUIWatchers] *)
Definition clearAllUIWatchers (store : WatcherStore.t) : nat * WatcherStore.t :=
  WatcherStore.clear store.

(** [listUIWatchers]: the watchers and their count. *)
Definition listUIWatchers (now : Z) (store : WatcherStore.t)
  : (list WatcherState.t * nat) * WatcherStore.t :=
  let '(activeWatchers, store') := WatcherStore.getActiveWatchers now store in
  ((activeWatchers, length activeWatchers), store').

Definition disableUIWatchers (store : WatcherStore.t) : WatcherStore.t :=
  WatcherStore.disable store.
Definition enableUIWatchers (store : WatcherStore.t) : WatcherStore.t :=
  WatcherStore.enable store.

End Commands.

(* ====================================================================== *)
(** * [src/element-cache.ts]                                               *)
(* ====================================================================== *)

Module ElementReferenceCache.

(** [source], with the position in the result for [findElements]. *)
Inductive Source :=
| FromFindElement
| FromFindElements (index : nat).

Record CachedRef := mkRef {
  ref_using : string;
  ref_value : string;
  ref_source : Source;
  createdAt : Z
}.

Record CacheConfig := mkConfig {
  maxCacheEntries : nat;
  elementTtlMs : Z
}.

Record t := mk {
  cache : gmap string CachedRef;
  idMappings : gmap string string;
  reverseIndex : gmap string (gset string);
  accessOrder : list string;
  config : CacheConfig
}.

(** [constructor] *)
Definition new (cfg : PluginConfig.t) : t :=
  {| cache := ∅; idMappings := ∅; reverseIndex := ∅; accessOrder := [];
     config := {| maxCacheEntries := PluginConfig.maxCacheEntries cfg;
                  elementTtlMs := PluginConfig.elementTtlMs cfg |} |}.

Definition with_cache (m : gmap string CachedRef) (c : t) : t :=
  mk m (idMappings c) (reverseIndex c) (accessOrder c) (config c).
Definition with_idMappings (m : gmap string string) (c : t) : t :=
  mk (cache c) m (reverseIndex c) (accessOrder c) (config c).
Definition with_reverseIndex (m : gmap string (gset string)) (c : t) : t :=
  mk (cache c) (idMappings c) m (accessOrder c) (config c).
Definition with_accessOrder (l : list string) (c : t) : t :=
  mk (cache c) (idMappings c) (reverseIndex c) l (config c).

(** [const i = a.indexOf(x); if (i !== -1) a.splice(i, 1)] *)
Fixpoint remove_first (x : string) (a : list string) : list string :=
  match a with
  | [] => []
  | y :: rest => if String.eqb x y then rest else y :: remove_first x rest
  end.

(** [updateAccessOrder] *)
Definition updateAccessOrder (elementId : string) (c : t) : t :=
  with_accessOrder (remove_first elementId (accessOrder c) ++ [elementId]) c.

(** [isExpired] *)
Definition isExpired (now : Z) (ref : CachedRef) (c : t) : bool :=
  elementTtlMs (config c) <=? now - createdAt ref.

(** [removeFromCache] *)
Definition removeFromCache (elementId : string) (c : t) : t :=
  with_accessOrder (remove_first elementId (accessOrder c))
    (with_cache (delete elementId (cache c)) c).

(** [evictLRU]: the first identifier of the access order is shifted out,
    and deleted from the cache when it is truthy. *)
Definition evictLRU (c : t) : t :=
  match accessOrder c with
  | [] => c
  | lruId :: rest =>
      let c' := with_accessOrder rest c in
      if String.eqb lruId "" then c' else with_cache (delete lruId (cache c')) c'
  end.

(** [while (this.cache.size >= max) this.evictLRU()].  Every call of
    [evictLRU] on a non-empty access order shortens it, and a call on the
    empty one changes nothing; [fuel] bounds the number of calls, and
    [None] stands for a loop that does not end. *)
Fixpoint evictLoop (fuel : nat) (c : t) : option t :=
  if (maxCacheEntries (config c) <=? size (cache c))%nat then
    match fuel with
    | O => None
    | S fuel' => evictLoop fuel' (evictLRU c)
    end
  else Some c.

(** [addToCache] *)
Definition addToCache (elementId : string) (ref : CachedRef) (c : t) : option t :=
  match evictLoop (S (length (accessOrder c))) c with
  | None => None
  | Some c1 =>
      Some (updateAccessOrder elementId (with_cache (<[elementId := ref]> (cache c1)) c1))
  end.

(** [cacheElement] *)
Definition cacheElement (now : Z) (elementId using_ value : string) (c : t) : option t :=
  addToCache elementId (mkRef using_ value FromFindElement now) c.

(** The loop of [cacheElements], from position [i]. *)
Fixpoint cacheElementsFrom (i : nat) (now : Z) (elements : list JsVal)
    (using_ value : string) (c : t) : option t :=
  match elements with
  | [] => Some c
  | element :: rest =>
      match Utils.extractElementId element with
      | None => cacheElementsFrom (S i) now rest using_ value c
      | Some elementId =>
          match addToCache elementId (mkRef using_ value (FromFindElements i) now) c with
          | None => None
          | Some c' => cacheElementsFrom (S i) now rest using_ value c'
          end
      end
  end.

(** [cacheElements] *)
Definition cacheElements (now : Z) (elements : list JsVal) (using_ value : string)
    (c : t) : option t :=
  cacheElementsFrom 0 now elements using_ value c.

(** [getRef] *)
Definition getRef (now : Z) (elementId : string) (c : t) : option CachedRef * t :=
  match cache c !! elementId with
  | None => (None, c)
  | Some ref =>
      if isExpired now ref c then (None, removeFromCache elementId c)
      else (Some ref, updateAccessOrder elementId c)
  end.

(** [addToReverseIndex] *)
Definition addToReverseIndex (oldId newId : string) (c : t) : t :=
  with_reverseIndex
    (<[newId := {[oldId]} ∪ default ∅ (reverseIndex c !! newId)]> (reverseIndex c)) c.

(** One iteration of the loop of [setMapping] over the sources that point
    to the old identifier. *)
Definition repoint (newId : string) (c : t) (sourceId : string) : t :=
  addToReverseIndex sourceId newId
    (with_idMappings (<[sourceId := newId]> (idMappings c)) c).

(** [setMapping].  The body of the loop over the set of sources writes the
    same target for every source, so the order of the iteration does not
    show in the result. *)
Definition setMapping (oldId newId : string) (c : t) : t :=
  let c1 :=
    match reverseIndex c !! oldId with
    | Some pointingToOld =>
        let c' := foldl (repoint newId) c (elements pointingToOld) in
        with_reverseIndex (delete oldId (reverseIndex c')) c'
    | None => c
    end in
  addToReverseIndex oldId newId
    (with_idMappings (<[oldId := newId]> (idMappings c1)) c1).

(** [getMappedId] *)
Definition getMappedId (elementId : string) (c : t) : option string :=
  idMappings c !! elementId.

(** [cleanup] *)
Definition cleanup (now : Z) (c : t) : t :=
  let toRemove :=
    (map_to_list (filter (fun e => elementTtlMs (config c) <= now - createdAt (snd e))
                         (cache c))).*1 in
  foldl (fun acc elementId => removeFromCache elementId acc) c toRemove.

(** [clear] *)
Definition clear (c : t) : t :=
  mk ∅ ∅ ∅ [] (config c).

(** [size] and [mappingsCount] *)
Definition size (c : t) : nat := base.size (cache c).
Definition mappingsCount (c : t) : nat := base.size (idMappings c).

End ElementReferenceCache.

(* ====================================================================== *)
(** * Vocabulary of the statements about the element cache                 *)
(* ====================================================================== *)

Module MappingSpec.
Import ElementReferenceCache.

(** The sources recorded in the reverse index for a target. *)
Definition pointers (c : t) (target : string) : gset string :=
  default ∅ (reverseIndex c !! target).

(** Every mapped identifier resolves to an identifier without a mapping. *)
Definition singleHop (c : t) : Prop :=
  forall source target,
    getMappedId source c = Some target -> getMappedId target c = None.

(** The reverse index knows every mapping ... *)
Definition indexed (c : t) : Prop :=
  forall source target, idMappings c !! source = Some target -> source ∈ pointers c target.

(** ... and lists mapped identifiers only. *)
Definition sourcesMapped (c : t) : Prop :=
  forall source target, source ∈ pointers c target -> is_Some (idMappings c !! source).

Definition wellIndexed (c : t) : Prop := singleHop c ∧ indexed c ∧ sourcesMapped c.

(** A sequence of [setMapping] calls, oldest first. *)
Definition remap (calls : list (string * string)) (c : t) : t :=
  foldl (fun acc call => setMapping call.1 call.2 acc) c calls.

(** Every call maps to an identifier that differs from the old one and has
    no mapping of its own when the call is made. *)
Fixpoint freshTargets (calls : list (string * string)) (c : t) : Prop :=
  match calls with
  | [] => True
  | (oldId, newId) :: rest =>
      oldId ≠ newId ∧ getMappedId newId c = None
      ∧ freshTargets rest (setMapping oldId newId c)
  end.

End MappingSpec.

Module CacheSpec.
Import ElementReferenceCache.

(** The access order lists the cached identifiers, each once, and none of
    them is the empty string. *)
Definition cacheInv (c : t) : Prop :=
  NoDup (accessOrder c)
  ∧ dom (cache c) = list_to_set (accessOrder c)
  ∧ "" ∉ accessOrder c.

(** The states of a cache that the interception layer can produce: it
    caches under identifiers returned by [extractElementId], which are
    never empty. *)
Inductive reachable (cfg : PluginConfig.t) : t -> Prop :=
| reach_new : reachable cfg (new cfg)
| reach_cacheElement now elementId using_ value c c' :
    reachable cfg c -> elementId ≠ "" ->
    cacheElement now elementId using_ value c = Some c' -> reachable cfg c'
| reach_cacheElements now elements using_ value c c' :
    reachable cfg c ->
    cacheElements now elements using_ value c = Some c' -> reachable cfg c'
| reach_getRef now elementId c :
    reachable cfg c -> reachable cfg (getRef now elementId c).2
| reach_setMapping oldId newId c :
    reachable cfg c -> reachable cfg (setMapping oldId newId c)
| reach_cleanup now c :
    reachable cfg c -> reachable cfg (cleanup now c)
| reach_clear c :
    reachable cfg c -> reachable cfg (clear c).

End CacheSpec.

(* ====================================================================== *)
(** * The automation driver and its environment                            *)
(* ====================================================================== *)

(** What the program does to the outside, in the order it does it. *)
Inductive Event :=
| EvFindElement (using_ value : string)          (* driver.findElement(using, value) *)
| EvFindElements (using_ value : string)         (* driver.findElements(using, value) *)
| EvCommand (cmdName : string) (args : list JsVal) (* driver[cmdName](...args) *)
| EvNext                                         (* next(): the intercepted call itself *)
| EvSleep (ms : Z).                              (* a setTimeout wait *)

#[global] Instance JsVal_inhabited : Inhabited JsVal := populate JUndefined.

Module Driver.
(** The driver object, as a family of transformers of the world (device,
    application under test and clock).  [driver.click(x)] is
    [command "click" [x]]. *)
Record t (World : Type) := mk {
  sessionId : string;   (* [''] when the driver has no session id *)
  now : World -> Z;
  sleep : Z -> World -> World;
  findElement : string -> string -> World -> result JsVal * World;
  findElements : string -> string -> World -> result JsVal * World;
  command : string -> list JsVal -> World -> result JsVal * World
}.
Arguments sessionId {World}.
Arguments now {World}.
Arguments sleep {World}.
Arguments findElement {World}.
Arguments findElements {World}.
Arguments command {World}.
End Driver.

Module Env.
Record t (World : Type) := mk {
  world : World;
  trace : list Event
}.
Arguments mk {World}.
Arguments world {World}.
Arguments trace {World}.

Section Calls.
Context {World : Type} (driver : Driver.t World).

(** A computation on the environment that returns or throws. *)
Definition call (A : Type) := t World -> result A * t World.

Definition record (ev : Event) (r : World -> result JsVal * World) : call JsVal :=
  fun e =>
    let '(res, w) := r (world e) in
    (res, {| world := w; trace := trace e ++ [ev] |}).

Definition findElement (using_ value : string) : call JsVal :=
  record (EvFindElement using_ value) (Driver.findElement driver using_ value).

Definition findElements (using_ value : string) : call JsVal :=
  record (EvFindElements using_ value) (Driver.findElements driver using_ value).

Definition command (cmdName : string) (args : list JsVal) : call JsVal :=
  record (EvCommand cmdName args) (Driver.command driver cmdName args).

(** [await new Promise((resolve) => setTimeout(resolve, ms))] *)
Definition wait (ms : Z) (e : t World) : t World :=
  {| world := Driver.sleep driver ms (world e); trace := trace e ++ [EvSleep ms] |}.

(** [Date.now()] *)
Definition clock (e : t World) : Z := Driver.now driver (world e).
End Calls.
End Env.

(* ====================================================================== *)
(** * [src/watcher-checker.ts]                                             *)
(* ====================================================================== *)

Module Checker.
Section Checker.
Context {World : Type} (driver : Driver.t World).

(** The argument of the click: [actionElement.ELEMENT || actionElement];
    reading a property of null or undefined throws ([None]). *)
Definition clickTarget (actionElement : JsVal) : option JsVal :=
  if nullish actionElement then None
  else if truthy (field actionElement "ELEMENT") then Some (field actionElement "ELEMENT")
  else Some actionElement.

(** The state of one pass: the flag [watcherTriggered], the store and the
    environment. *)
Definition pass : Type := bool * WatcherStore.t * Env.t World.

(** One iteration of the loop over the sorted watchers.  Every exception
    of the body is caught in the body, and the loop goes on with the next
    watcher.

    The watcher objects of the array are the objects of the store.  An
    object is written only during its own iteration (through its name,
    a unique key), after the reads of that iteration, so the fields read
    from the array are those of the snapshot. *)
Definition checkWatcher (watcher : WatcherState.t) (p : pass) : pass :=
  let '(watcherTriggered, store, env) := p in
  if decide (WatcherState.status watcher = inactive) then p
  else
    let reference := WatcherState.referenceLocator watcher in
    let action := WatcherState.actionLocator watcher in
    match Env.findElement driver (loc_using reference) (loc_value reference) env with
    | (Err _, env1) => (watcherTriggered, store, env1)
    | (Ok _, env1) =>
        match Env.findElement driver (loc_using action) (loc_value action) env1 with
        | (Err _, env2) => (watcherTriggered, store, env2)
        | (Ok actionElement, env2) =>
            match clickTarget actionElement with
            | None => (watcherTriggered, store, env2)
            | Some target =>
                match Env.command driver "click" [target] env2 with
                | (Err _, env3) => (watcherTriggered, store, env3)
                | (Ok _, env3) =>
                    let store1 :=
                      WatcherStore.incrementTriggerCount
                        (Env.clock driver env3) (WatcherState.name watcher) store in
                    let store2 :=
                      if WatcherState.stopOnFound watcher
                      then WatcherStore.markInactive (WatcherState.name watcher) store1
                      else store1 in
                    let env4 :=
                      if 0 <? WatcherState.cooldownMs watcher
                      then Env.wait driver (WatcherState.cooldownMs watcher) env3
                      else env3 in
                    (true, store2, env4)
                end
            end
        end
    end.

(** [for (const watcher of watchers) ...] *)
Fixpoint checkLoop (watchers : list WatcherState.t) (p : pass) : pass :=
  match watchers with
  | [] => p
  | watcher :: rest => checkLoop rest (checkWatcher watcher p)
  end.

(** [checkWatchers] *)
Definition checkWatchers (store : WatcherStore.t) (env : Env.t World) : pass :=
  if negb (WatcherStore.isEnabled store) then (false, store, env)
  else
    let '(watchers, store1) :=
      WatcherStore.getSortedWatchers (Env.clock driver env) store in
    if (length watchers =? 0)%nat then (false, store1, env)
    else checkLoop watchers (false, store1, env).

End Checker.
End Checker.

(* ====================================================================== *)
(** * [src/plugin.ts]                                                      *)
(* ====================================================================== *)

Module Plugin.

Definition ELEMENT_ACTION_COMMANDS : list string :=
  [ "click"; "getText"; "getAttribute"; "elementDisplayed"; "elementEnabled";
    "elementSelected"; "getName"; "getLocation"; "getSize"; "setValue";
    "setValueImmediate"; "clear"; "getElementScreenshot"; "getElementRect" ].

(** How an asynchronous method ends: it returns, it throws, or it never
    settles (a cache insertion whose eviction loop does not end). *)
Inductive Outcome (A : Type) :=
| Return (a : A)
| Throw (e : JsError)
| Hang.
Arguments Return {A} a.
Arguments Throw {A} e.
Arguments Hang {A}.

Section Plugin.
Context {World : Type} (config : PluginConfig.t) (driver : Driver.t World).

(** The plugin instance (its two per-session maps) and the environment. *)
Record State := mkState {
  stores : gmap string WatcherStore.t;
  caches : gmap string ElementReferenceCache.t;
  env : Env.t World
}.

Definition M (A : Type) : Type := State -> Outcome A * State.

Definition ret {A} (a : A) : M A := fun st => (Return a, st).
Definition throw {A} (e : JsError) : M A := fun st => (Throw e, st).
Definition hang {A} : M A := fun st => (Hang, st).

Definition bind {A B} (m : M A) (k : A -> M B) : M B :=
  fun st =>
    match m st with
    | (Return a, st') => k a st'
    | (Throw e, st') => (Throw e, st')
    | (Hang, st') => (Hang, st')
    end.

(** [try { m } catch (error) { handler error }] *)
Definition try_catch {A} (m : M A) (handler : JsError -> M A) : M A :=
  fun st =>
    match m st with
    | (Throw e, st') => handler e st'
    | other => other
    end.

Notation "'do' x <- m ;;; k" := (bind m (fun x => k))
  (at level 10, x name, m at level 100, k at level 200, only parsing).
Notation "'exec' m ;;; k" := (bind m (fun _ => k))
  (at level 10, m at level 100, k at level 200, only parsing).

(** [await] of a driver call. *)
Definition await {A} (c : Env.call A) : M A :=
  fun st =>
    let '(res, e) := c (env st) in
    let st' := mkState (stores st) (caches st) e in
    match res with
    | Ok a => (Return a, st')
    | Err err => (Throw err, st')
    end.

(** The environment in which [next] runs: the call is recorded first. *)
Definition entering (e : Env.t World) : Env.t World :=
  Env.mk (Env.world e) (Env.trace e ++ [EvNext]).

(** [await next()]: the call the host intercepted, with the arguments the
    client sent; the plugin cannot change them. *)
Definition call_next (next : Env.call JsVal) : M JsVal :=
  fun st => await next (mkState (stores st) (caches st) (entering (env st))).

Definition noSession : JsError := newError "No session ID available".

(** [getStore] *)
Definition getStore : M WatcherStore.t :=
  fun st =>
    let sessionId := Driver.sessionId driver in
    if String.eqb sessionId "" then (Throw noSession, st)
    else
      match stores st !! sessionId with
      | Some store => (Return store, st)
      | None =>
          (Return WatcherStore.new,
           mkState (<[sessionId := WatcherStore.new]> (stores st)) (caches st) (env st))
      end.

(** [getCache] *)
Definition getCache : M ElementReferenceCache.t :=
  fun st =>
    let sessionId := Driver.sessionId driver in
    if String.eqb sessionId "" then (Throw noSession, st)
    else
      match caches st !! sessionId with
      | Some cache => (Return cache, st)
      | None =>
          (Return (ElementReferenceCache.new config),
           mkState (stores st)
             (<[sessionId := ElementReferenceCache.new config]> (caches st)) (env st))
      end.

(** A store or a cache is an object shared with the map of the plugin:
    what a method writes to it is written to the entry of the session. *)
Definition putStore (store : WatcherStore.t) : M unit :=
  fun st =>
    (Return tt,
     mkState (<[Driver.sessionId driver := store]> (stores st)) (caches st) (env st)).

Definition putCache (cache : ElementReferenceCache.t) : M unit :=
  fun st =>
    (Return tt,
     mkState (stores st) (<[Driver.sessionId driver := cache]> (caches st)) (env st)).

(** [await checkWatchers(driver, store)] *)
Definition checkWatchers (store : WatcherStore.t) : M bool :=
  fun st =>
    let '(watchersTriggered, store', e) := Checker.checkWatchers driver store (env st) in
    (Return watchersTriggered,
     mkState (<[Driver.sessionId driver := store']> (stores st)) (caches st) e).

Definition clock : M Z := fun st => (Return (Env.clock driver (env st)), st).

Definition nonempty (s : string) : bool := negb (String.eqb s "").

(** [error.name || error.error || ''] *)
Definition errorName (error : JsError) : string :=
  str_or (err_name error) (str_or (err_error error) "").

Definition messageIncludes (error : JsError) (sub : string) : bool :=
  match err_message error with
  | Some m => includes m sub
  | None => false
  end.

(** [isStaleElementException] *)
Definition isStaleElementException (error : JsError) : bool :=
  includes (errorName error) "StaleElementReference"
  || messageIncludes error "stale element reference"
  || messageIncludes error "element is not attached".

(** [shouldCheckWatchers] of [findElement] *)
Definition shouldCheckWatchers (error : JsError) : bool :=
  includes (errorName error) "NoSuchElement"
  || includes (errorName error) "StaleElementReference"
  || messageIncludes error "An element could not be located".

(** The caching of a result of [findElement]. *)
Definition cacheFound (result : JsVal) (using_ value : string) : M unit :=
  if truthy result && nonempty using_ && nonempty value then
    match Utils.extractElementId result with
    | Some elementId =>
        do cache <- getCache ;;;
        do now <- clock ;;;
        match ElementReferenceCache.cacheElement now elementId using_ value cache with
        | Some cache' => putCache cache'
        | None => hang
        end
    | None => ret tt
    end
  else ret tt.

(** [findElement] *)
Definition findElement (next : Env.call JsVal) (using_ value : string) : M JsVal :=
  try_catch
    (do result <- call_next next ;;;
     exec cacheFound result using_ value ;;;
     ret result)
    (fun error =>
       if shouldCheckWatchers error then
         try_catch
           (do store <- getStore ;;;
            do _ <- checkWatchers store ;;;
            do result <- call_next next ;;;
            exec cacheFound result using_ value ;;;
            ret result)
           (fun _ => throw error)
       else throw error).

Definition isEmptyArray (v : JsVal) : bool :=
  match v with JArr [] => true | _ => false end.

(** The caching of a result of [findElements]. *)
Definition cacheFoundMany (result : JsVal) (using_ value : string) : M unit :=
  match result with
  | JArr (first :: others) =>
      if nonempty using_ && nonempty value then
        do cache <- getCache ;;;
        do now <- clock ;;;
        match ElementReferenceCache.cacheElements now (first :: others) using_ value cache with
        | Some cache' => putCache cache'
        | None => hang
        end
      else ret tt
  | _ => ret tt
  end.

(** [findElements] *)
Definition findElements (next : Env.call JsVal) (using_ value : string) : M JsVal :=
  try_catch
    (do result <- call_next next ;;;
     if isEmptyArray result then
       try_catch
         (do store <- getStore ;;;
          do _ <- checkWatchers store ;;;
          do retryResult <- call_next next ;;;
          exec cacheFoundMany retryResult using_ value ;;;
          ret retryResult)
         (fun _ => ret result)
     else
       exec cacheFoundMany result using_ value ;;;
       ret result)
    (fun error =>
       try_catch
         (do store <- getStore ;;;
          do _ <- checkWatchers store ;;;
          do result <- call_next next ;;;
          exec cacheFoundMany result using_ value ;;;
          ret result)
         (fun _ => throw error)).

Definition notInCache : JsError :=
  newError "Element reference not found in cache. Unable to recover from StaleElementReferenceException.".

Definition indexNotFound (index : nat) : JsError :=
  newError ("Element at index " ++ pretty index
            ++ " not found in findElements result. Expected at least "
            ++ pretty (S index) ++ " elements.").

(** Reading [length] of a value that is not an array. *)
Definition typeError : JsError :=
  {| err_name := "TypeError"; err_error := ""; err_message := Some "not an array" |}.

(** Step 4 of [interceptAction]: the element is located again. *)
Definition refind (ref : ElementReferenceCache.CachedRef) : M JsVal :=
  match ElementReferenceCache.ref_source ref with
  | ElementReferenceCache.FromFindElement =>
      await (Env.findElement driver (ElementReferenceCache.ref_using ref)
               (ElementReferenceCache.ref_value ref))
  | ElementReferenceCache.FromFindElements index =>
      do elements <- await (Env.findElements driver (ElementReferenceCache.ref_using ref)
                              (ElementReferenceCache.ref_value ref)) ;;;
      match elements with
      | JArr items =>
          if (length items <=? index)%nat then throw (indexNotFound index)
          else ret (items !!! index)
      | _ => throw typeError
      end
  end.

(** [cache.getMappedId(elementId) || elementId] *)
Definition resolveId (cache : ElementReferenceCache.t) (elementId : string) : string :=
  match ElementReferenceCache.getMappedId elementId cache with
  | Some mapped => str_or mapped elementId
  | None => elementId
  end.

(** [interceptAction] *)
Definition interceptAction (next : Env.call JsVal) (elementId cmdName : string)
    (args : list JsVal) : M JsVal :=
  do cache <- getCache ;;;
  let actualId := resolveId cache elementId in
  try_catch (call_next next)
    (fun error =>
       if negb (isStaleElementException error) then throw error
       else
         do store <- getStore ;;;
         do watchersTriggered <- checkWatchers store ;;;
         if negb watchersTriggered then throw error
         else
           do now <- clock ;;;
           let '(ref, cache1) := ElementReferenceCache.getRef now actualId cache in
           exec putCache cache1 ;;;
           match ref with
           | None => throw notInCache
           | Some ref =>
               do newElement <- refind ref ;;;
               match Utils.extractElementId newElement with
               | Some newId =>
                   exec putCache (ElementReferenceCache.setMapping elementId newId cache1) ;;;
                   await (Env.command driver cmdName (JStr newId :: tail args))
               | None => throw error
               end
           end).

(** [handle].  The first argument of an element command is the element
    identifier, a string. *)
Definition handle (next : Env.call JsVal) (cmdName : string) (args : list JsVal)
  : M JsVal :=
  if negb (bool_decide (cmdName ∈ ELEMENT_ACTION_COMMANDS)) then call_next next
  else
    match args with
    | JStr elementId :: _ =>
        if String.eqb elementId "" then call_next next
        else interceptAction next elementId cmdName args
    | _ => call_next next
    end.

(** The host side of an element command: Appium hands [handle] a [next]
    that runs the command of the driver with the arguments of the
    client. *)
Definition dispatch (cmdName : string) (args : list JsVal) : M JsVal :=
  handle (Env.command driver cmdName args) cmdName args.

(** The host side of a lookup. *)
Definition dispatchFindElement (using_ value : string) : M JsVal :=
  findElement (Env.findElement driver using_ value) using_ value.

(** What [deleteSession] and [onUnexpectedShutdown] forget: the store and
    the cache of the session of the driver, when it has an identifier. *)
Definition forgetSession : M unit :=
  fun st =>
    let sessionId := Driver.sessionId driver in
    if String.eqb sessionId "" then (Return tt, st)
    else
      (Return tt,
       mkState (delete sessionId (stores st)) (delete sessionId (caches st)) (env st)).

(** [deleteSession]: the session is forgotten after [next] has returned. *)
Definition deleteSession (next : Env.call JsVal) : M JsVal :=
  do result <- call_next next ;;;
  exec forgetSession ;;;
  ret result.

(** [onUnexpectedShutdown] *)
Definition onUnexpectedShutdown : M unit := forgetSession.

(** The responses of [execute]; [success: true] is the [Return] of the
    outcome. *)
Inductive Response :=
| Registered (watcher : Commands.RegisteredWatcher)
| Unregistered (removed : string)
| Cleared (removedCount : nat)
| Listed (watchers : list WatcherState.t) (totalCount : nat)
| Toggled (message : string)
| Passed (result : JsVal).

(** Reading [params.name] when [params] is null or undefined. *)
Definition nullProperty : JsError :=
  {| err_name := "TypeError"; err_error := "";
     err_message := Some "Cannot read properties of null" |}.

(** A command on the store: the store is written back, and the result is
    returned or thrown. *)
Definition storeCommand {A} (r : result A * WatcherStore.t) (respond : A -> Response)
  : M Response :=
  exec putStore (snd r) ;;;
  match fst r with
  | Ok a => ret (respond a)
  | Err error => throw error
  end.

(** [execute] *)
Definition execute (next : Env.call JsVal) (script : string) (args : list JsVal)
  : M Response :=
  let params := match args with [] => JNull | first :: _ => first end in
  do store <- getStore ;;;
  if String.eqb script "mobile: registerUIWatcher" then
    do now <- clock ;;;
    storeCommand (Commands.registerUIWatcher now store params) Registered
  else if String.eqb script "mobile: unregisterUIWatcher" then
    if nullish params then throw nullProperty
    else storeCommand (Commands.unregisterUIWatcher store (field params "name")) Unregistered
  else if String.eqb script "mobile: clearAllUIWatchers" then
    let '(count, store') := Commands.clearAllUIWatchers store in
    exec putStore store' ;;;
    ret (Cleared count)
  else if String.eqb script "mobile: listUIWatchers" then
    do now <- clock ;;;
    let '(activeWatchers, totalCount, store') := Commands.listUIWatchers now store in
    exec putStore store' ;;;
    ret (Listed activeWatchers totalCount)
  else if String.eqb script "mobile: disableUIWatchers" then
    exec putStore (Commands.disableUIWatchers store) ;;;
    ret (Toggled "All UI watchers disabled")
  else if String.eqb script "mobile: enableUIWatchers" then
    exec putStore (Commands.enableUIWatchers store) ;;;
    ret (Toggled "All UI watchers enabled")
  else
    do result <- call_next next ;;;
    ret (Passed result).

End Plugin.
End Plugin.

(* ====================================================================== *)
(** * Vocabulary of the statements about the registry                      *)
(* ====================================================================== *)

Module StoreSpec.
Import WatcherStore.

(** The number of stored watchers that have not expired at [now]. *)
Definition unexpiredCount (now : Z) (s : t) : nat :=
  length (filter (fun w => expired now w = false) (WatcherStore.list s)).

(** No name is stored twice, and every watcher is stored under its name. *)
Definition namesUnique (s : t) : Prop := NoDup (JsMap.keys (watchers s)).
Definition keyedByName (s : t) : Prop :=
  forall k w, (k, w) ∈ watchers s -> WatcherState.name w = k.

(** The invariant of the registry at instant [now]. *)
Definition storeInv (cfg : PluginConfig.t) (now : Z) (s : t) : Prop :=
  namesUnique s ∧ keyedByName s
  ∧ (unexpiredCount now s <= PluginConfig.maxWatchers cfg)%nat.

(** The stores that the methods of the class produce from a new store, with
    the instant of the last call; the clock never goes back. *)
Inductive reachable : Z -> t -> Prop :=
| reach_new now : reachable now new
| reach_later now later s :
    reachable now s -> now <= later -> reachable later s
| reach_add now watcher s :
    reachable now s -> reachable now (add now watcher s).2
| reach_remove now name s :
    reachable now s -> reachable now (remove name s).2
| reach_getActiveWatchers now s :
    reachable now s -> reachable now (getActiveWatchers now s).2
| reach_clear now s :
    reachable now s -> reachable now (clear s).2
| reach_markInactive now name s :
    reachable now s -> reachable now (markInactive name s)
| reach_incrementTriggerCount now name s :
    reachable now s -> reachable now (incrementTriggerCount now name s)
| reach_updateLastTriggered now name s :
    reachable now s -> reachable now (updateLastTriggered now name s)
| reach_disable now s :
    reachable now s -> reachable now (disable s)
| reach_enable now s :
    reachable now s -> reachable now (enable s).

End StoreSpec.

Module ValidatorSpec.

(** A locator that [validateLocator] accepts: an object whose [using] and
    [value] are non-empty strings, [using] naming, in any letter case, one
    of the strategies. *)
Definition locatorOk (locator : JsVal) : Prop :=
  exists fields u v,
    locator = JObj fields
    ∧ field locator "using" = JStr u ∧ field locator "value" = JStr v
    ∧ u ≠ "" ∧ v ≠ ""
    ∧ toLowerCase u ∈ Validators.VALID_LOCATOR_STRATEGIES.

(** An optional parameter: absent (undefined or null) or of the shape [P]. *)
Definition optional (P : JsVal -> Prop) (v : JsVal) : Prop := nullish v = true ∨ P v.

Definition isNumber (v : JsVal) : Prop := exists n, v = JNum n.
Definition isBoolean (v : JsVal) : Prop := exists b, v = JBool b.
Definition isCooldown (v : JsVal) : Prop := exists n, v = JNum n ∧ 0 <= n.

(** The string with the given bytes. *)
Definition utf8 (bytes : list nat) : string :=
  foldr (fun byte rest => String (ascii_of_nat byte) rest) EmptyString bytes.

(** The code points WhiteSpace and LineTerminator of the language, in
    UTF-8: U+0009 to U+000D, U+0020, U+00A0, U+1680, U+2000 to U+200A,
    U+2028, U+2029, U+202F, U+205F, U+3000 and U+FEFF. *)
Definition whiteSpace : list string :=
  utf8 <$>
    [ [9]; [10]; [11]; [12]; [13]; [32]; [194; 160]; [225; 154; 128];
      [226; 128; 128]; [226; 128; 129]; [226; 128; 130]; [226; 128; 131];
      [226; 128; 132]; [226; 128; 133]; [226; 128; 134]; [226; 128; 135];
      [226; 128; 136]; [226; 128; 137]; [226; 128; 138];
      [226; 128; 168]; [226; 128; 169]; [226; 128; 175]; [226; 129; 159];
      [227; 128; 128]; [239; 187; 191] ]%nat.

(** A string made of white space only (the empty string is one). *)
Definition blank (s : string) : Prop :=
  exists parts,
    Forall (fun part => part ∈ whiteSpace) parts
    ∧ s = foldr String.append EmptyString parts.

(** Parameters that [validateWatcherParams] accepts. *)
Definition paramsOk (params : JsVal) : Prop :=
  (exists fields, params = JObj fields)
  ∧ (exists name, field params "name" = JStr name ∧ ¬ blank name)
  ∧ locatorOk (field params "referenceLocator")
  ∧ locatorOk (field params "actionLocator")
  ∧ Validators.durationValid (field params "duration")
  ∧ optional isNumber (field params "priority")
  ∧ optional isBoolean (field params "stopOnFound")
  ∧ optional isCooldown (field params "cooldownMs").

End ValidatorSpec.

Module MappingSpec2.
(** No call of the sequence maps an identifier to itself. *)
Definition nonSelf (calls : list (string * string)) : Prop :=
  Forall (fun call => call.1 ≠ call.2) calls.
End MappingSpec2.

Module CheckerSpec.

(** What a pass over the watchers [ws] may ask of the driver: a lookup of
    the reference or of the action locator of one of them, a click on one
    element, or a wait of the positive cooldown of one of them. *)
Definition passEvent (ws : list WatcherState.t) (ev : Event) : Prop :=
  match ev with
  | EvFindElement using_ value =>
      exists w, w ∈ ws
        ∧ (WatcherState.referenceLocator w = mkLocator using_ value
           ∨ WatcherState.actionLocator w = mkLocator using_ value)
  | EvCommand cmdName args => cmdName = "click" ∧ length args = 1%nat
  | EvSleep ms => exists w, w ∈ ws ∧ ms = WatcherState.cooldownMs w ∧ 0 < ms
  | EvFindElements _ _ | EvNext => False
  end.

Definition isSleep (ev : Event) : Prop :=
  match ev with EvSleep _ => True | _ => False end.

(** [w'] is [w] after at most one dismissal: the registration data are the
    same, and the trigger count is the same or one more. *)
Definition bumped (w w' : WatcherState.t) : Prop :=
  WatcherState.name w' = WatcherState.name w
  ∧ WatcherState.priority w' = WatcherState.priority w
  ∧ WatcherState.referenceLocator w' = WatcherState.referenceLocator w
  ∧ WatcherState.actionLocator w' = WatcherState.actionLocator w
  ∧ WatcherState.duration w' = WatcherState.duration w
  ∧ WatcherState.stopOnFound w' = WatcherState.stopOnFound w
  ∧ WatcherState.cooldownMs w' = WatcherState.cooldownMs w
  ∧ WatcherState.registeredAt w' = WatcherState.registeredAt w
  ∧ WatcherState.expiresAt w' = WatcherState.expiresAt w
  ∧ WatcherState.triggerCount w <= WatcherState.triggerCount w'
    <= WatcherState.triggerCount w + 1.

(** The registry on which the loop of a pass starts. *)
Definition passStart (now : Z) (store : WatcherStore.t) : WatcherStore.t :=
  if WatcherStore.isEnabled store then (WatcherStore.getActiveWatchers now store).2
  else store.

End CheckerSpec.

Module PluginSpec.
Import Plugin.

(** The scripts that [execute] answers itself. *)
Definition scripts : list string :=
  [ "mobile: registerUIWatcher"; "mobile: unregisterUIWatcher";
    "mobile: clearAllUIWatchers"; "mobile: listUIWatchers";
    "mobile: disableUIWatchers"; "mobile: enableUIWatchers" ].

(** How an awaited call that gave [res] ends. *)
Definition outcomeOf {A} (res : result A) : Outcome A :=
  match res with
  | Ok a => Return a
  | Err error => Throw error
  end.

Section PluginSpec.
Context {World : Type} (driver : Driver.t World).

(** The entries of the other sessions are the same in both states. *)
Definition others (st st' : State (World := World)) : Prop :=
  forall sessionId, sessionId ≠ Driver.sessionId driver ->
    stores st' !! sessionId = stores st !! sessionId
    ∧ caches st' !! sessionId = caches st !! sessionId.

(** A method that leaves the entries of the other sessions alone. *)
Definition local {A} (m : M (World := World) A) : Prop :=
  forall st, others st (m st).2.

(** Two states that agree on the environment and on the entries of the
    session of the driver; the entries of the other sessions may differ. *)
Definition same (st1 st2 : State (World := World)) : Prop :=
  env st1 = env st2
  ∧ stores st1 !! Driver.sessionId driver = stores st2 !! Driver.sessionId driver
  ∧ caches st1 !! Driver.sessionId driver = caches st2 !! Driver.sessionId driver.

(** A method that does not read the entries of the other sessions: from
    two states that differ in those entries only, it ends in the same way
    and leaves the same environment and the same entries of its session. *)
Definition blind {A} (m : M (World := World) A) : Prop :=
  forall st1 st2, same st1 st2 -> (m st1).1 = (m st2).1 ∧ same (m st1).2 (m st2).2.

(** A method that neither reads nor writes the entries of the other
    sessions. *)
Definition isolated {A} (m : M (World := World) A) : Prop := local m ∧ blind m.

(** The content of the cache of the session; a session without a cache has
    the content of a new one. *)
Definition cacheOf (config : PluginConfig.t) (st : State (World := World))
  : ElementReferenceCache.t :=
  default (ElementReferenceCache.new config) (caches st !! Driver.sessionId driver).

Definition storeOf (st : State (World := World)) : WatcherStore.t :=
  default WatcherStore.new (stores st !! Driver.sessionId driver).

End PluginSpec.
End PluginSpec.

(* ====================================================================== *)
(** * Concrete sessions, used to run the model                             *)
(* ====================================================================== *)

Module Samples.

Definition popup : Locator := mkLocator "id" "popup".
Definition close : Locator := mkLocator "id" "close".

Definition watcher (name : string) (priority : option Z) (duration : Z)
    (stopOnFound : option bool) (cooldownMs : option Z) : UIWatcher.t :=
  UIWatcher.mk name priority popup close duration stopOnFound cooldownMs.

(** The parameters of a registration, as the client sends them. *)
Definition params (name : string) (duration : JsVal) : JsVal :=
  JObj [ ("name", JStr name);
         ("referenceLocator", JObj [("using", JStr "id"); ("value", JStr "popup")]);
         ("actionLocator", JObj [("using", JStr "id"); ("value", JStr "close")]);
         ("duration", duration) ].

(** A registry with one watcher, registered at instant 0 for one second. *)
Definition cookie : UIWatcher.t := watcher "cookie" None 1000 None None.
Definition cookieStore : WatcherStore.t :=
  (WatcherStore.add 0 cookie WatcherStore.new).2.

(** A registry with three watchers of priorities 1, 10 and 10. *)
Definition threeStore : WatcherStore.t :=
  let s1 := (WatcherStore.add 100
               (watcher "low" (Some 1) 30000 None None) WatcherStore.new).2 in
  let s2 := (WatcherStore.add 200
               (watcher "first" (Some 10) 30000 None None) s1).2 in
  (WatcherStore.add 300
     (watcher "second" (Some 10) 30000 None None) s2).2.

(** A registry filled to the default capacity at instant 0. *)
Definition fullStore : WatcherStore.t :=
  foldl (fun s n => (WatcherStore.add 0
                       (watcher n None 30000 (Some true) None) s).2)
    WatcherStore.new ["w1"; "w2"; "w3"; "w4"; "w5"].

Definition element (id : string) : JsVal := JObj [("ELEMENT", JStr id)].

Definition noSuchElement : JsError :=
  {| err_name := "NoSuchElementError"; err_error := "no such element";
     err_message := Some "An element could not be located on the page using the given search parameters." |}.

Definition staleElement : JsError :=
  {| err_name := "StaleElementReferenceError"; err_error := "stale element reference";
     err_message := Some "The element is no longer attached to the DOM" |}.

(** Sample worlds are the clock alone: every driver call takes one
    millisecond, and a wait takes its duration. *)

(** A screen that shows the popup: every lookup and command succeeds; the
    element found carries the locator value as its identifier. *)
Definition popupDriver : Driver.t Z :=
  {| Driver.sessionId := "s1";
     Driver.now w := w;
     Driver.sleep ms w := w + ms;
     Driver.findElement u v w := (Ok (element v), w + 1);
     Driver.findElements u v w := (Ok (JArr [element v]), w + 1);
     Driver.command c args w := (Ok JNull, w + 1) |}.

(** A screen on which an element appears after the first millisecond
    without any dismissal: a lookup at instant 0 fails, later ones succeed. *)
Definition lateDriver : Driver.t Z :=
  {| Driver.sessionId := "s1";
     Driver.now w := w;
     Driver.sleep ms w := w + ms;
     Driver.findElement u v w :=
       (if w <? 1 then Err noSuchElement else Ok (element v), w + 1);
     Driver.findElements u v w := (Ok (JArr []), w + 1);
     Driver.command c args w := (Ok JNull, w + 1) |}.

(** A registry with one watcher that stops after its first dismissal and
    asks for a cooldown of 500 ms. *)
Definition oneShotStore : WatcherStore.t :=
  (WatcherStore.add 0
     (watcher "consent" None 30000 (Some true) (Some 500)) WatcherStore.new).2.

Definition startEnv : Env.t Z := Env.mk 0 [].

(** A cache of capacity 3 that holds three elements, cached at instants 1,
    2 and 3. *)
Definition smallConfig : PluginConfig.t := PluginConfig.mk 5 60000 3 60000.

Definition smallCache1 : ElementReferenceCache.t :=
  default (ElementReferenceCache.new smallConfig)
    (ElementReferenceCache.cacheElement 1 "elem-1" "id" "btn1"
       (ElementReferenceCache.new smallConfig)).
Definition smallCache2 : ElementReferenceCache.t :=
  default smallCache1
    (ElementReferenceCache.cacheElement 2 "elem-2" "id" "btn2" smallCache1).
Definition smallCache : ElementReferenceCache.t :=
  default smallCache2
    (ElementReferenceCache.cacheElement 3 "elem-3" "id" "btn3" smallCache2).

Definition btn4 : ElementReferenceCache.CachedRef :=
  ElementReferenceCache.mkRef "id" "btn4" ElementReferenceCache.FromFindElement 5.

(** The registry filled to capacity, after a pass in which every watcher
    fired and, having [stopOnFound], became inactive. *)
Definition firedStore : WatcherStore.t :=
  (Checker.checkWatchers popupDriver fullStore startEnv).1.2.

(** The session at its start: no store, no cache, nothing done yet. *)
Definition freshSession : Plugin.State (World := Z) := Plugin.mkState ∅ ∅ startEnv.

(** A session in which the element "a" went stale and was found again as
    "b": the cache maps "a" to "b". *)
Definition remappedSession : Plugin.State (World := Z) :=
  Plugin.mkState ∅
    {["s1" := ElementReferenceCache.setMapping "a" "b"
                (ElementReferenceCache.new DefaultPluginConfig)]}
    startEnv.

(** The driver of [popupDriver] before it has a session identifier. *)
Definition anonymousDriver : Driver.t Z :=
  {| Driver.sessionId := "";
     Driver.now w := w;
     Driver.sleep ms w := w + ms;
     Driver.findElement u v w := (Ok (element v), w + 1);
     Driver.findElements u v w := (Ok (JArr [element v]), w + 1);
     Driver.command c args w := (Ok JNull, w + 1) |}.

(** A driver on which everything fails with a failure that is neither a
    not-found nor a stale-reference failure. *)
Definition serverError : JsError :=
  {| err_name := "UnknownError"; err_error := "unknown error";
     err_message := Some "An unknown server-side error occurred" |}.

Definition brokenDriver : Driver.t Z :=
  {| Driver.sessionId := "s1";
     Driver.now w := w;
     Driver.sleep ms w := w + ms;
     Driver.findElement u v w := (Err serverError, w + 1);
     Driver.findElements u v w := (Err serverError, w + 1);
     Driver.command c args w := (Err serverError, w + 1) |}.

(** A driver whose elements are stale and on whose screen no popup shows:
    commands fail with a stale-reference failure, lookups with a not-found
    failure. *)
Definition staleDriver : Driver.t Z :=
  {| Driver.sessionId := "s1";
     Driver.now w := w;
     Driver.sleep ms w := w + ms;
     Driver.findElement u v w := (Err noSuchElement, w + 1);
     Driver.findElements u v w := (Ok (JArr []), w + 1);
     Driver.command c args w := (Err staleElement, w + 1) |}.

(** Two sessions: "s1" with the cookie watcher and the small cache, "s2"
    with three watchers. *)
Definition twoSessions : Plugin.State (World := Z) :=
  Plugin.mkState {["s1" := cookieStore; "s2" := threeStore]}
    {["s1" := smallCache; "s2" := ElementReferenceCache.new DefaultPluginConfig]}
    startEnv.

(** A driver on which the first command fails with a stale-reference
    failure; lookups succeed, and so do later commands. *)
Definition recoverDriver : Driver.t Z :=
  {| Driver.sessionId := "s1";
     Driver.now w := w;
     Driver.sleep ms w := w + ms;
     Driver.findElement u v w := (Ok (element v), w + 1);
     Driver.findElements u v w := (Ok (JArr [element v]), w + 1);
     Driver.command c args w :=
       (if w <? 1 then Err staleElement else Ok JNull, w + 1) |}.

(** A session with the cookie watcher and the small cache. *)
Definition staleSession : Plugin.State (World := Z) :=
  Plugin.mkState {["s1" := cookieStore]} {["s1" := smallCache]} startEnv.

(** Two configurations of the plugin whose largest duration is not the
    default: thirty seconds and two minutes. *)
Definition shortConfig : PluginConfig.t := PluginConfig.mk 5 30000 50 60000.
Definition longConfig : PluginConfig.t := PluginConfig.mk 5 120000 50 60000.


End Samples.

(* ====================================================================== *)
(** * Properties of the insertion-ordered map and of the sort              *)
(* ====================================================================== *)

Section JsMapFacts.
Context {V : Type}.
Implicit Types (m : list (string * V)) (k : string).

Lemma String_eqb_true k k' : String.eqb k k' = true <-> k = k'.
Proof. apply String.eqb_eq. Qed.

Lemma JsMap_get_set_eq k (v : V) m : JsMap.get k (JsMap.set k v m) = Some v.
Proof.
  induction m as [|[k' v'] m IH]; simpl.
  - by rewrite String.eqb_refl.
  - destruct (String.eqb k k') eqn:E; simpl; rewrite E; auto.
Qed.

Lemma JsMap_has_get k m : JsMap.has k m = true <-> is_Some (JsMap.get k m).
Proof.
  unfold JsMap.has. destruct (JsMap.get k m); split; intros H; eauto.
  - discriminate.
  - by destruct H.
Qed.

Lemma JsMap_get_in k m v : JsMap.get k m = Some v -> (k, v) ∈ m.
Proof.
  induction m as [|[k' v'] m IH]; simpl; [done|].
  destruct (String.eqb k k') eqn:E.
  - apply String.eqb_eq in E as ->. intros [= ->]. apply list_elem_of_here.
  - intros H. apply list_elem_of_further. auto.
Qed.

Lemma JsMap_update_length (f : V -> V) k m :
  length (JsMap.update f k m) = length m.
Proof.
  induction m as [|[k' v'] m IH]; simpl; [done|].
  destruct (String.eqb k k'); simpl; auto.
Qed.

Lemma JsMap_get_update_eq (f : V -> V) k m v :
  JsMap.get k m = Some v -> JsMap.get k (JsMap.update f k m) = Some (f v).
Proof.
  induction m as [|[k' v'] m IH]; simpl; [done|].
  destruct (String.eqb k k') eqn:E; simpl; rewrite E; auto.
  by intros [= ->].
Qed.

Lemma JsMap_get_update (f : V -> V) k k' m :
  JsMap.get k' (JsMap.update f k m)
  = (if String.eqb k k' then f else id) <$> JsMap.get k' m.
Proof.
  induction m as [|[k0 v0] m IH]; simpl; [done|].
  destruct (String.eqb_spec k k0) as [->|Hk]; simpl.
  - destruct (String.eqb_spec k' k0) as [->|Hk']; simpl.
    + by rewrite String.eqb_refl.
    + destruct (String.eqb_spec k0 k') as [->|_]; [done|].
      by destruct (JsMap.get k' m).
  - destruct (String.eqb_spec k' k0) as [->|Hk']; simpl; [|done].
    by destruct (String.eqb_spec k k0).
Qed.

Lemma JsMap_has_update (f : V -> V) k k' m :
  JsMap.has k' (JsMap.update f k m) = JsMap.has k' m.
Proof.
  unfold JsMap.has. rewrite JsMap_get_update. by destruct (JsMap.get k' m).
Qed.

Lemma JsMap_values_update_elem (f : V -> V) k m v :
  JsMap.get k m = Some v -> f v ∈ JsMap.values (JsMap.update f k m).
Proof.
  induction m as [|[k0 v0] m IH]; simpl; [done|].
  destruct (String.eqb k k0); simpl.
  - intros [= ->]. apply list_elem_of_here.
  - intros H. apply list_elem_of_further. by apply IH.
Qed.

Lemma JsMap_values_update_filter_length (f : V -> V) (P : V -> Prop)
    `{!forall v, Decision (P v)} k m :
  (forall v, P (f v) <-> P v) ->
  length (filter P (JsMap.values (JsMap.update f k m)))
  = length (filter P (JsMap.values m)).
Proof.
  intros HP. induction m as [|[k0 v0] m IH]; simpl; [done|].
  destruct (String.eqb k k0); simpl.
  - rewrite !filter_cons.
    destruct (decide (P (f v0))) as [Hf|Hf], (decide (P v0)) as [Hv|Hv];
      simpl; try done; exfalso; by (apply Hv, HP) || (apply Hf, HP).
  - rewrite !filter_cons. destruct (decide (P v0)); simpl; by rewrite IH.
Qed.
End JsMapFacts.

Section SortFacts.
Context {A : Type} (cmp : A -> A -> Z).

Local Abbreviation before := (WatcherStore.before cmp).

Hypothesis before_total : forall x y, ¬ before x y -> before y x.
Hypothesis before_trans : forall x y z, before x y -> before y z -> before x z.

Lemma insert_sorted_perm x l : WatcherStore.insert_sorted cmp x l ≡ₚ x :: l.
Proof.
  induction l as [|y l IH]; simpl; [done|].
  destruct (cmp x y <=? 0); [done|].
  rewrite IH. apply Permutation_swap.
Qed.

Lemma sort_perm l : WatcherStore.sort cmp l ≡ₚ l.
Proof.
  induction l as [|x l IH]; simpl; [done|].
  rewrite insert_sorted_perm. by constructor.
Qed.

Lemma insert_sorted_strongly x l :
  StronglySorted before l -> StronglySorted before (WatcherStore.insert_sorted cmp x l).
Proof using before_total before_trans.
  induction 1 as [|y l Hl IH Hy]; simpl.
  - repeat constructor.
  - destruct (cmp x y <=? 0) eqn:E.
    + apply Z.leb_le in E.
      constructor; [by constructor|].
      constructor; [done|].
      eapply Forall_impl; [exact Hy|]. intros z Hz. eapply before_trans; eauto.
    + apply Z.leb_gt in E.
      constructor; [done|].
      rewrite insert_sorted_perm. constructor; [|done].
      apply before_total. unfold WatcherStore.before. lia.
Qed.

Lemma sort_strongly l : StronglySorted before (WatcherStore.sort cmp l).
Proof using before_total before_trans.
  induction l as [|x l IH]; simpl; [constructor|].
  by apply insert_sorted_strongly.
Qed.

Lemma strongly_sorted_lookup (l : list A) i j a b :
  StronglySorted before l -> (i < j)%nat ->
  l !! i = Some a -> l !! j = Some b -> before a b.
Proof.
  intros Hs. revert i j. induction Hs as [|x l Hl IH Hx]; intros i j Hij Hi Hj.
  - by rewrite lookup_nil in Hi.
  - destruct j as [|j]; [lia|]. simpl in Hj.
    destruct i as [|i]; simpl in Hi.
    + injection Hi as ->. rewrite Forall_forall in Hx. apply Hx.
      eapply list_elem_of_lookup_2; eauto.
    + eapply IH; [|exact Hi|exact Hj]. lia.
Qed.
End SortFacts.

(* ====================================================================== *)
(** * The registry                                                         *)
(* ====================================================================== *)

Module StoreFacts.
Import WatcherStore.

(** The constants of the store and of the validators are the defaults of
    the configuration. *)
Lemma default_config_constants :
  PluginConfig.maxWatchers DefaultPluginConfig = MAX_WATCHERS
  ∧ PluginConfig.maxDurationMs DefaultPluginConfig = Validators.MAX_DURATION_MS.
Proof. done. Qed.

Lemma compare_before (a b : WatcherState.t) :
  before compare a b <->
  WatcherState.priority b < WatcherState.priority a
  ∨ (WatcherState.priority a = WatcherState.priority b
     ∧ WatcherState.registeredAt a <= WatcherState.registeredAt b).
Proof. unfold before, compare. case_decide; lia. Qed.

Lemma compare_total (a b : WatcherState.t) :
  ¬ before compare a b -> before compare b a.
Proof. rewrite !compare_before. lia. Qed.

Lemma compare_trans (a b c : WatcherState.t) :
  before compare a b -> before compare b c -> before compare a c.
Proof. rewrite !compare_before. lia. Qed.

Lemma getActiveWatchers_fst now s :
  (getActiveWatchers now s).1
  = filter (fun w => expired now w = false) (WatcherStore.list s).
Proof. reflexivity. Qed.

Lemma getSortedWatchers_fst now s :
  (getSortedWatchers now s).1 = sort compare (getActiveWatchers now s).1.
Proof. reflexivity. Qed.

(** ** C7 *)

(** C7.  For every state of the registry and every instant,
    [getSortedWatchers] returns exactly the unexpired watchers (a
    permutation of them), in an order where priorities never increase and
    where, among watchers of equal priority, registration times never
    decrease. *)
Theorem getSortedWatchers_priority_then_fifo (now : Z) (s : WatcherStore.t) :
  let ws := (getSortedWatchers now s).1 in
  ws ≡ₚ filter (fun w => expired now w = false) (WatcherStore.list s)
  ∧ forall (i j : nat) (a b : WatcherState.t),
      (i < j)%nat -> ws !! i = Some a -> ws !! j = Some b ->
      WatcherState.priority b <= WatcherState.priority a
      ∧ (WatcherState.priority a = WatcherState.priority b ->
         WatcherState.registeredAt a <= WatcherState.registeredAt b).
Proof.
  intros ws. subst ws. rewrite getSortedWatchers_fst, getActiveWatchers_fst. split.
  - apply sort_perm.
  - intros i j a b Hij Ha Hb.
    assert (before compare a b) as H.
    { eapply strongly_sorted_lookup; [|exact Hij|exact Ha|exact Hb].
      apply sort_strongly; [apply compare_total|apply compare_trans]. }
    apply compare_before in H. lia.
Qed.

(** The witness of C7: the registry of three watchers at instant 1000, read
    at positions 0 and 1 (equal priorities) and at positions 1 and 2. *)
Lemma getSortedWatchers_priority_then_fifo_witness :
  let ws := (getSortedWatchers 1000 Samples.threeStore).1 in
  WatcherState.name <$> ws = ["first"; "second"; "low"]
  ∧ (exists a b, ws !! 0%nat = Some a ∧ ws !! 1%nat = Some b
       ∧ WatcherState.priority b <= WatcherState.priority a
       ∧ (WatcherState.priority a = WatcherState.priority b ->
          WatcherState.registeredAt a <= WatcherState.registeredAt b)).
Proof.
  intros ws. split; [vm_compute; reflexivity|].
  eexists _, _. split; [vm_compute; reflexivity|]. split; [vm_compute; reflexivity|].
  apply (proj2 (getSortedWatchers_priority_then_fifo 1000 Samples.threeStore) 0%nat 1%nat);
    [lia | vm_compute; reflexivity | vm_compute; reflexivity].
Defined.

(** ** C4 *)

(** The duplicate check of [add] reads the raw storage: it fails with the
    duplicate-name error exactly when the name is stored, expired or not. *)
Lemma add_duplicate_iff_stored now watcher s :
  (add now watcher s).1 = Err (duplicateError (UIWatcher.name watcher))
  <-> JsMap.has (UIWatcher.name watcher) (watchers s) = true.
Proof.
  unfold add. destruct (JsMap.has _ _) eqn:E; [done|].
  destruct (getActiveWatchers now s) as [ws s1].
  destruct (_ <=? _)%nat; simpl; split; try done; intros [=].
Qed.

(** C4 (the code at the failing input).  A watcher registered at instant 0
    for one second has expired at instant 2000 and is no longer reported
    by [getActiveWatchers]; a registration under the same name at that
    instant still fails with the duplicate-name error, and leaves the
    expired watcher in the storage. *)
Theorem add_expired_name_still_duplicate :
  (WatcherState.expiresAt <$> get "cookie" Samples.cookieStore) = Some 1000
  ∧ (getActiveWatchers 2000 Samples.cookieStore).1 = []
  ∧ add 2000 Samples.cookie Samples.cookieStore
    = (Err (duplicateError "cookie"), Samples.cookieStore).
Proof. vm_compute. auto. Qed.

(** After any pass that prunes (here [getActiveWatchers]) the same
    registration is accepted. *)
Lemma add_after_prune_accepted :
  (add 2000 Samples.cookie
     (getActiveWatchers 2000 Samples.cookieStore).2).1
  = Ok (WatcherState.mk "cookie" 0 Samples.popup Samples.close 1000 false 0
          2000 3000 active 0 None).
Proof. vm_compute. reflexivity. Qed.

(** ** Durations *)

Ltac split_ifs H :=
  repeat match type of H with
         | context [if ?c then _ else _] => destruct c eqn:?; try discriminate H
         | context [match ?c with Ok _ => _ | Err _ => _ end] =>
             destruct c eqn:?; try discriminate H
         end.

Lemma validateRest_duration params :
  Validators.validateRest params = Ok tt ->
  Validators.durationValid (field params "duration").
Proof.
  unfold Validators.validateRest. intros H.
  destruct (nullish (field params "duration")) eqn:Hnull; [discriminate|].
  destruct (negb _ || _) eqn:Hpos; [discriminate|].
  destruct (Validators.num_gt _ _) eqn:Hmax; [discriminate|].
  clear H. apply orb_false_iff in Hpos as [Hty Hle].
  destruct (field params "duration") as [| | |n| | |]; try discriminate.
  simpl in *. exists n. split; [done|]. lia.
Qed.

Lemma validateWatcherParams_duration params u :
  Validators.validateWatcherParams params = Ok u ->
  Validators.durationValid (field params "duration").
Proof.
  unfold Validators.validateWatcherParams. intros H. split_ifs H.
  destruct u. by apply validateRest_duration.
Qed.

Lemma add_ok_stored now watcher s w s' :
  add now watcher s = (Ok w, s') ->
  get (UIWatcher.name watcher) s' = Some w
  ∧ WatcherState.name w = UIWatcher.name watcher
  ∧ WatcherState.duration w = UIWatcher.duration watcher
  ∧ WatcherState.registeredAt w = now
  ∧ WatcherState.expiresAt w = WatcherState.registeredAt w + WatcherState.duration w.
Proof.
  unfold add. destruct (JsMap.has _ _); [intros [=]|].
  destruct (getActiveWatchers now s) as [ws s1].
  destruct (_ <=? _)%nat; [intros [=]|].
  intros [= <- <-]. simpl. split; [|done].
  unfold get. simpl. apply JsMap_get_set_eq.
Qed.

(** What the code does about durations.  A registration that succeeds has
    stored, under the registered name, a watcher whose duration is the one
    given and whose expiry is its registration time plus that duration
    (the response reports the same two instants); and when the duration
    given is not a number strictly greater than 0 and at most 60000, the
    constant [MAX_DURATION_MS], the registration fails and the registry is
    the one before the call. *)
Lemma registration_expiry_and_duration_bound
    (now : Z) (store : WatcherStore.t) (params : JsVal) :
  (forall r store',
      Commands.registerUIWatcher now store params = (Ok r, store') ->
      exists w,
        get (Commands.rw_name r) store' = Some w
        ∧ JNum (WatcherState.duration w) = field params "duration"
        ∧ WatcherState.expiresAt w = WatcherState.registeredAt w + WatcherState.duration w
        ∧ Commands.rw_registeredAt r = WatcherState.registeredAt w
        ∧ Commands.rw_expiresAt r = WatcherState.expiresAt w)
  ∧ (¬ Validators.durationValid (field params "duration") ->
     exists e, Commands.registerUIWatcher now store params = (Err e, store)).
Proof.
  unfold Commands.registerUIWatcher. split.
  - intros r store' H.
    destruct (Validators.validateWatcherParams params) as [u|e] eqn:Hv; [|by inversion H].
    apply validateWatcherParams_duration in Hv as (n & Hn & _).
    destruct (add now (Commands.asUIWatcher params) store) as [[w|e] s1] eqn:Ha;
      [|by inversion H].
    injection H as <- <-. simpl.
    apply add_ok_stored in Ha as (Hget & Hname & Hdur & Hreg & Hexp).
    exists w. rewrite Hname. simpl. repeat split; try done.
    rewrite Hdur. simpl. by rewrite Hn.
  - intros Hbad.
    destruct (Validators.validateWatcherParams params) as [u|e] eqn:Hv; [|eauto].
    by apply validateWatcherParams_duration in Hv.
Qed.

End StoreFacts.

(* ====================================================================== *)
(** * The matching engine                                                  *)
(* ====================================================================== *)

Module CheckerFacts.
Import WatcherStore.

Section Generic.
Context {World : Type} (driver : Driver.t World).

Lemma sort_nil_of_all_expired now s :
  (forall w, w ∈ WatcherStore.list s -> expired now w = true) ->
  (getSortedWatchers now s).1 = [].
Proof.
  intros H. rewrite StoreFacts.getSortedWatchers_fst, StoreFacts.getActiveWatchers_fst.
  assert (filter (fun w => expired now w = false) (WatcherStore.list s) = []) as ->; [|done].
  induction (WatcherStore.list s) as [|w l IH]; [done|].
  rewrite filter_cons_False.
  - apply IH. intros w' Hw'. apply H. by apply list_elem_of_further.
  - rewrite (H w); [done|]. apply list_elem_of_here.
Qed.

(** ** C8 *)

(** C8.  When the registry is disabled, and also when every stored
    watcher has expired at the current instant, [checkWatchers] returns
    false and hands back the environment it received: the world is
    untouched and no event (lookup, command or wait) has been added to
    the trace. *)
Theorem checkWatchers_idle_makes_no_call (store : WatcherStore.t) (env : Env.t World) :
  isEnabled store = false
  ∨ (forall w, w ∈ WatcherStore.list store -> expired (Env.clock driver env) w = true) ->
  (Checker.checkWatchers driver store env).1.1 = false
  ∧ (Checker.checkWatchers driver store env).2 = env.
Proof.
  intros H. unfold Checker.checkWatchers.
  destruct (isEnabled store) eqn:En; cbn [negb]; [|done].
  destruct H as [H|H]; [discriminate|].
  pose proof (sort_nil_of_all_expired _ _ H) as Hs.
  destruct (getSortedWatchers (Env.clock driver env) store) as [ws s1].
  cbn [fst] in Hs. subst ws. done.
Qed.

(** ** What a dismissal does *)

(** The state after the dismissal of an active watcher: the trigger is
    recorded, the watcher is made inactive when [stopOnFound] is set,
    and the wait is executed when [cooldownMs] is positive; the two
    tests are independent of each other. *)
Lemma checkWatcher_dismissal (watcher : WatcherState.t) triggered store env
    found env1 actionElement env2 target clicked env3 :
  WatcherState.status watcher = active ->
  Env.findElement driver (loc_using (WatcherState.referenceLocator watcher))
    (loc_value (WatcherState.referenceLocator watcher)) env = (Ok found, env1) ->
  Env.findElement driver (loc_using (WatcherState.actionLocator watcher))
    (loc_value (WatcherState.actionLocator watcher)) env1 = (Ok actionElement, env2) ->
  Checker.clickTarget actionElement = Some target ->
  Env.command driver "click" [target] env2 = (Ok clicked, env3) ->
  Checker.checkWatcher driver watcher (triggered, store, env)
  = (true,
     (if WatcherState.stopOnFound watcher
      then markInactive (WatcherState.name watcher)
      else id)
       (incrementTriggerCount (Env.clock driver env3) (WatcherState.name watcher) store),
     if 0 <? WatcherState.cooldownMs watcher
     then Env.wait driver (WatcherState.cooldownMs watcher) env3
     else env3).
Proof.
  intros Hst H1 H2 H3 H4. unfold Checker.checkWatcher.
  rewrite Hst. case_decide; [done|].
  rewrite H1, H2, H3, H4. by destruct (WatcherState.stopOnFound watcher).
Qed.

Lemma checkLoop_skips_inactive (watcher : WatcherState.t) rest p :
  WatcherState.status watcher = inactive ->
  Checker.checkLoop driver (watcher :: rest) p = Checker.checkLoop driver rest p.
Proof.
  intros H. simpl. f_equal. unfold Checker.checkWatcher.
  destruct p as [[triggered store] env]. by case_decide.
Qed.
End Generic.

(** ** C2 *)

(** C2 (the code at the failing input).  One watcher with [stopOnFound]
    set and a cooldown of 500 ms, on a screen that shows its popup: the
    pass dismisses the popup and makes the watcher inactive, and then
    waits for the 500 ms all the same. *)
Theorem stopOnFound_watcher_still_cools_down :
  let '(triggered, store, env) :=
    Checker.checkWatchers Samples.popupDriver Samples.oneShotStore Samples.startEnv in
  triggered = true
  ∧ (WatcherState.stopOnFound <$> get "consent" Samples.oneShotStore) = Some true
  ∧ (WatcherState.status <$> get "consent" store) = Some inactive
  ∧ Env.trace env
    = [ EvFindElement "id" "popup"; EvFindElement "id" "close";
        EvCommand "click" [JStr "close"]; EvSleep 500 ]
  ∧ Env.world env = 503.
Proof. vm_compute. auto 10. Qed.

(** The witness of C8: a disabled registry of three watchers, and a
    registry whose only watcher expired at instant 1000, read at 2000. *)
Lemma checkWatchers_idle_makes_no_call_witness :
  Checker.checkWatchers Samples.popupDriver (disable Samples.threeStore) Samples.startEnv
  = (false, disable Samples.threeStore, Samples.startEnv)
  ∧ (Checker.checkWatchers Samples.popupDriver Samples.cookieStore (Env.mk 2000 [])).1.1 = false
  ∧ (Checker.checkWatchers Samples.popupDriver Samples.cookieStore (Env.mk 2000 [])).2
    = Env.mk 2000 [].
Proof.
  split; [vm_compute; reflexivity|].
  apply (checkWatchers_idle_makes_no_call Samples.popupDriver Samples.cookieStore
           (Env.mk 2000 [])).
  right. intros w Hw. vm_compute in Hw.
  apply list_elem_of_singleton in Hw. subst w. vm_compute. reflexivity.
Defined.

End CheckerFacts.

(* ====================================================================== *)
(** * The identifier mappings of the element cache                         *)
(* ====================================================================== *)

Module MappingFacts.
Import ElementReferenceCache MappingSpec.

Lemma repoint_fold_mappings newId l c k :
  idMappings (foldl (repoint newId) c l) !! k
  = if decide (k ∈ l) then Some newId else idMappings c !! k.
Proof.
  revert c. induction l as [|x l IH]; intros c; cbn [foldl].
  - destruct (decide (k ∈ [])) as [H|H]; [by apply elem_of_nil in H|done].
  - rewrite IH. destruct (decide (k ∈ l)) as [Hl|Hl].
    + destruct (decide (k ∈ x :: l)) as [|Hn]; [done|].
      exfalso. apply Hn. by apply list_elem_of_further.
    + unfold repoint. simpl.
      destruct (decide (k = x)) as [->|Hx].
      * rewrite lookup_insert_eq.
        destruct (decide (x ∈ x :: l)) as [|Hn]; [done|].
        exfalso. apply Hn, list_elem_of_here.
      * rewrite lookup_insert_ne by done.
        destruct (decide (k ∈ x :: l)) as [Hin|]; [|done].
        apply elem_of_cons in Hin as [?|?]; done.
Qed.

Lemma pointers_addToReverseIndex oldId newId c target :
  pointers (addToReverseIndex oldId newId c) target
  = if decide (target = newId) then {[oldId]} ∪ pointers c newId else pointers c target.
Proof.
  unfold pointers, addToReverseIndex. simpl.
  destruct (decide (target = newId)) as [->|Hne].
  - by rewrite lookup_insert_eq.
  - by rewrite lookup_insert_ne.
Qed.

Lemma repoint_fold_pointers newId l c target :
  pointers (foldl (repoint newId) c l) target
  = if decide (target = newId) then list_to_set l ∪ pointers c newId else pointers c target.
Proof.
  revert c. induction l as [|x l IH]; intros c; cbn [foldl].
  - destruct (decide (target = newId)) as [->|?]; [set_solver|done].
  - rewrite IH.
    assert (forall y, pointers (repoint newId c x) y
            = if decide (y = newId) then {[x]} ∪ pointers c newId else pointers c y) as Hp.
    { intros y. unfold repoint. by rewrite pointers_addToReverseIndex. }
    rewrite !Hp. clear Hp.
    destruct (decide (target = newId)) as [->|?].
    + rewrite decide_True by done. set_solver.
    + done.
Qed.

(** [setMapping] reads the set of sources once; an absent set is an empty
    one. *)
Lemma setMapping_unfold oldId newId c :
  setMapping oldId newId c
  = let c' := foldl (repoint newId) c (elements (pointers c oldId)) in
    let c1 := with_reverseIndex (delete oldId (reverseIndex c')) c' in
    addToReverseIndex oldId newId
      (with_idMappings (<[oldId := newId]> (idMappings c1)) c1).
Proof.
  unfold setMapping, pointers.
  destruct (reverseIndex c !! oldId) as [S|] eqn:E; simpl; [done|].
  rewrite elements_empty. simpl. rewrite delete_id by done. by destruct c.
Qed.

Lemma setMapping_mappings oldId newId c k :
  idMappings (setMapping oldId newId c) !! k
  = if decide (k = oldId ∨ k ∈ pointers c oldId) then Some newId
    else idMappings c !! k.
Proof.
  rewrite setMapping_unfold. simpl.
  destruct (decide (k = oldId)) as [->|Hne].
  - rewrite lookup_insert_eq, decide_True; auto.
  - rewrite lookup_insert_ne by done. rewrite repoint_fold_mappings.
    destruct (decide (k ∈ elements (pointers c oldId))) as [H|H];
      rewrite elem_of_elements in H.
    + rewrite decide_True; auto.
    + rewrite decide_False; [done|]. intros [?|?]; done.
Qed.

Lemma setMapping_pointers oldId newId c target :
  oldId ≠ newId ->
  pointers (setMapping oldId newId c) target
  = if decide (target = newId) then {[oldId]} ∪ pointers c oldId ∪ pointers c newId
    else if decide (target = oldId) then ∅
    else pointers c target.
Proof.
  intros Hne. rewrite setMapping_unfold. cbv zeta.
  rewrite pointers_addToReverseIndex.
  set (c' := foldl (repoint newId) c (elements (pointers c oldId))).
  assert (forall x, pointers
            (with_idMappings (<[oldId:=newId]> (idMappings c'))
               (with_reverseIndex (delete oldId (reverseIndex c')) c')) x
          = if decide (x = oldId) then ∅ else pointers c' x) as Hp.
  { intros x. unfold pointers. simpl. case_decide as Hx.
    - subst x. by rewrite lookup_delete_eq.
    - by rewrite lookup_delete_ne. }
  rewrite !Hp. subst c'. rewrite !repoint_fold_pointers.
  rewrite list_to_set_elements_L.
  destruct (decide (target = newId)) as [->|Hn].
  - destruct (decide (newId = oldId)) as [Heq|_]; [by symmetry in Heq|].
    destruct (decide (newId = newId)) as [_|Hn]; [|done].
    set_solver.
  - destruct (decide (target = oldId)); done.
Qed.

Lemma wellIndexed_new cfg : wellIndexed (new cfg).
Proof.
  unfold wellIndexed, singleHop, indexed, sourcesMapped, getMappedId, pointers. simpl.
  split; [|split]; intros source target H; rewrite lookup_empty in H; done.
Qed.

(** A call with a fresh target keeps the table single-hop and the reverse
    index exact. *)
Lemma wellIndexed_setMapping oldId newId c :
  wellIndexed c -> oldId ≠ newId -> getMappedId newId c = None ->
  wellIndexed (setMapping oldId newId c).
Proof.
  unfold wellIndexed, singleHop, indexed, sourcesMapped, getMappedId.
  intros (Hhop & Hidx & Hsrc) Hne Hnew.
  assert (newId ∉ pointers c oldId) as Hnp.
  { intros H. apply Hsrc in H. rewrite Hnew in H. by destruct H. }
  split; [|split].
  - intros s t. rewrite !setMapping_mappings.
    destruct (decide (s = oldId ∨ s ∈ pointers c oldId)) as [Hs|Hs].
    + intros [= <-]. rewrite decide_False; [done|]. intros [?|?]; done.
    + intros Hst. pose proof (Hhop _ _ Hst) as Ht.
      rewrite decide_False; [done|]. intros [->|Hin].
      * apply Hs. right. by apply Hidx.
      * apply Hsrc in Hin. rewrite Ht in Hin. by destruct Hin.
  - intros s t. rewrite setMapping_mappings, setMapping_pointers by done.
    destruct (decide (s = oldId ∨ s ∈ pointers c oldId)) as [Hs|Hs].
    + intros [= <-]. rewrite decide_True by done. set_solver.
    + intros Hst. pose proof (Hidx _ _ Hst) as Hin.
      destruct (decide (t = newId)) as [->|?]; [set_solver|].
      destruct (decide (t = oldId)) as [->|?]; [|done].
      exfalso. apply Hs. by right.
  - intros s t. rewrite setMapping_mappings, setMapping_pointers by done.
    destruct (decide (s = oldId ∨ s ∈ pointers c oldId)) as [Hs|Hs]; [eauto|].
    destruct (decide (t = newId)) as [->|?].
    + intros Hin. apply (Hsrc s newId). set_solver.
    + destruct (decide (t = oldId)) as [->|?]; [set_solver|]. apply Hsrc.
Qed.

Lemma wellIndexed_remap calls c :
  wellIndexed c -> freshTargets calls c -> wellIndexed (remap calls c).
Proof.
  revert c. induction calls as [|[oldId newId] calls IH]; intros c Hc Hf; [done|].
  destruct Hf as (Hne & Hnew & Hrest). simpl. apply IH; [|done].
  by apply wellIndexed_setMapping.
Qed.

(** ** C5 *)

(** C5, as stated, fails: after [setMapping('b','c')] and then
    [setMapping('a','b')], the identifier 'a' resolves to 'b', and 'b' has a
    mapping of its own, to 'c'. *)
Lemma setMapping_onto_mapped_id_leaves_a_chain :
  let c := remap [("b", "c"); ("a", "b")] (new DefaultPluginConfig) in
  getMappedId "a" c = Some "b" ∧ getMappedId "b" c = Some "c" ∧ ¬ singleHop c.
Proof.
  intros c. assert (getMappedId "a" c = Some "b" ∧ getMappedId "b" c = Some "c") as [Ha Hb].
  { vm_compute. auto. }
  repeat split; try done.
  intros H. specialize (H _ _ Ha). rewrite Hb in H. discriminate H.
Qed.

(** C5, amended.  Starting from the empty table, after any sequence of
    [setMapping] calls in which every new identifier differs from the old
    one and has no mapping of its own when its call is made, the table is
    single-hop: an identifier that is mapped resolves to one that is not.
    In particular [setMapping('a','b')] followed by [setMapping('b','c')]
    makes both 'a' and 'b' resolve to 'c'. *)
Theorem setMapping_single_hop_for_fresh_targets
    (cfg : PluginConfig.t) (calls : list (string * string)) :
  freshTargets calls (new cfg) ->
  singleHop (remap calls (new cfg))
  ∧ getMappedId "a" (remap [("a", "b"); ("b", "c")] (new cfg)) = Some "c"
  ∧ getMappedId "b" (remap [("a", "b"); ("b", "c")] (new cfg)) = Some "c".
Proof.
  intros Hf. split.
  - apply (wellIndexed_remap calls (new cfg)); [apply wellIndexed_new|done].
  - split; vm_compute; reflexivity.
Qed.

(** The witness of C5: the two calls of the example. *)
Lemma setMapping_single_hop_for_fresh_targets_witness :
  freshTargets [("a", "b"); ("b", "c")] (new DefaultPluginConfig)
  ∧ singleHop (remap [("a", "b"); ("b", "c")] (new DefaultPluginConfig))
  ∧ getMappedId "a" (remap [("a", "b"); ("b", "c")] (new DefaultPluginConfig)) = Some "c".
Proof.
  assert (freshTargets [("a", "b"); ("b", "c")] (new DefaultPluginConfig)) as Hf.
  { simpl. repeat split; try done; vm_compute; reflexivity. }
  split; [exact Hf|].
  destruct (setMapping_single_hop_for_fresh_targets DefaultPluginConfig
              [("a", "b"); ("b", "c")] Hf) as (H1 & H2 & _).
  split; [exact H1|exact H2].
Defined.

End MappingFacts.

(* ====================================================================== *)
(** * The least-recently-used order of the element cache                   *)
(* ====================================================================== *)

Module CacheFacts.
Import ElementReferenceCache CacheSpec.

(** *** [remove_first] on a list without duplicates *)

Lemma remove_first_absent x (l : list string) : x ∉ l -> remove_first x l = l.
Proof.
  induction l as [|y l IH]; simpl; [done|].
  intros [Hxy Hl]%not_elem_of_cons.
  destruct (String.eqb_spec x y); [done|]. by rewrite IH.
Qed.

Lemma remove_first_elem x y (l : list string) :
  NoDup l -> y ∈ remove_first x l <-> y ∈ l ∧ y ≠ x.
Proof.
  induction l as [|z l IH]; simpl; intros Hnd.
  - rewrite elem_of_nil. tauto.
  - apply NoDup_cons in Hnd as [Hz Hnd].
    destruct (String.eqb_spec x z) as [->|Hxz].
    + rewrite elem_of_cons. split; [|intros [[?|?] ?]; done].
      intros Hy. split; [by right|]. by intros ->.
    + rewrite !elem_of_cons, IH by done. split.
      * intros [->|[? ?]]; split; auto.
      * intros [[->|?] ?]; auto.
Qed.

Lemma remove_first_NoDup x (l : list string) : NoDup l -> NoDup (remove_first x l).
Proof.
  induction l as [|z l IH]; simpl; intros Hnd; [done|].
  pose proof Hnd as [Hz Hl]%NoDup_cons.
  destruct (String.eqb_spec x z); [done|].
  apply NoDup_cons. split; [|by apply IH].
  rewrite remove_first_elem by done. tauto.
Qed.

Lemma remove_first_length x (l : list string) :
  x ∈ l -> S (length (remove_first x l)) = length l.
Proof.
  induction l as [|z l IH]; simpl; [by intros ?%elem_of_nil|].
  destruct (String.eqb_spec x z) as [->|Hxz]; [done|].
  intros [?|Hl]%elem_of_cons; [done|]. simpl. by rewrite IH.
Qed.

(** *** The invariant *)

Lemma cacheInv_size c : cacheInv c -> base.size (cache c) = length (accessOrder c).
Proof.
  intros (Hnd & Hdom & _).
  rewrite <-(size_dom (D := gset string)), Hdom. by apply size_list_to_set.
Qed.

Lemma cacheInv_cached c elementId :
  cacheInv c -> elementId ∈ accessOrder c <-> is_Some (cache c !! elementId).
Proof.
  intros (_ & Hdom & _). by rewrite <-elem_of_dom, Hdom, elem_of_list_to_set.
Qed.

Lemma cacheInv_new cfg : cacheInv (new cfg).
Proof.
  unfold cacheInv. simpl. split; [constructor|]. split; [|apply not_elem_of_nil].
  by rewrite dom_empty_L.
Qed.

Lemma cacheInv_evictLRU c : cacheInv c -> cacheInv (evictLRU c).
Proof.
  intros (Hnd & Hdom & Hne). unfold evictLRU.
  destruct (accessOrder c) as [|lruId rest] eqn:E; [by rewrite <-E in *|].
  apply NoDup_cons in Hnd as [Hl Hnd]. apply not_elem_of_cons in Hne as [Hl0 Hne].
  destruct (String.eqb_spec lruId "") as [->|_]; [done|].
  unfold cacheInv. simpl. repeat split; try done.
  rewrite dom_delete_L, Hdom, list_to_set_cons. set_solver.
Qed.

Lemma config_evictLRU c : config (evictLRU c) = config c.
Proof.
  unfold evictLRU. destruct (accessOrder c); [done|]. by destruct (String.eqb _ _).
Qed.

Lemma cacheInv_evictLoop fuel c c' :
  cacheInv c -> evictLoop fuel c = Some c' -> cacheInv c'.
Proof.
  revert c. induction fuel as [|fuel IH]; intros c Hc; simpl.
  - destruct (_ <=? _)%nat; [done|]. by intros [= <-].
  - destruct (_ <=? _)%nat; [|by intros [= <-]].
    apply IH. by apply cacheInv_evictLRU.
Qed.

Lemma cacheInv_touch c elementId ref :
  cacheInv c -> elementId ≠ "" ->
  cacheInv (updateAccessOrder elementId (with_cache (<[elementId := ref]> (cache c)) c)).
Proof.
  intros (Hnd & Hdom & Hne) Hid. unfold cacheInv. simpl. split; [|split].
  - apply NoDup_app. split; [by apply remove_first_NoDup|]. split; [|apply NoDup_singleton].
    intros x Hx ->%list_elem_of_singleton. apply remove_first_elem in Hx; [|done]. tauto.
  - rewrite dom_insert_L, Hdom, list_to_set_app_L. apply set_eq. intros x.
    rewrite !elem_of_union, !elem_of_list_to_set, remove_first_elem by done.
    rewrite list_elem_of_singleton, elem_of_singleton.
    destruct (decide (x = elementId)); tauto.
  - rewrite elem_of_app, remove_first_elem, list_elem_of_singleton by done.
    intros [[? ?]|?]; done.
Qed.

Lemma cacheInv_addToCache c elementId ref c' :
  cacheInv c -> elementId ≠ "" -> addToCache elementId ref c = Some c' -> cacheInv c'.
Proof.
  intros Hc Hid. unfold addToCache.
  destruct (evictLoop _ c) as [c1|] eqn:E; [|done].
  intros [= <-]. apply cacheInv_touch; [|done]. by eapply cacheInv_evictLoop.
Qed.

Lemma cacheInv_refresh c elementId :
  cacheInv c -> is_Some (cache c !! elementId) ->
  cacheInv (updateAccessOrder elementId c).
Proof.
  intros Hc Hin. pose proof Hc as (Hnd & Hdom & Hne).
  apply (cacheInv_cached c elementId Hc) in Hin.
  unfold cacheInv. simpl. split; [|split].
  - apply NoDup_app. split; [by apply remove_first_NoDup|]. split; [|apply NoDup_singleton].
    intros x Hx ->%list_elem_of_singleton. apply remove_first_elem in Hx; [|done]. tauto.
  - rewrite Hdom, list_to_set_app_L. apply set_eq. intros x.
    rewrite !elem_of_union, !elem_of_list_to_set, remove_first_elem by done.
    rewrite list_elem_of_singleton.
    destruct (decide (x = elementId)) as [->|]; tauto.
  - rewrite elem_of_app, remove_first_elem, list_elem_of_singleton by done.
    intros [[? ?]|<-]; done.
Qed.

Lemma cacheInv_removeFromCache c elementId :
  cacheInv c -> cacheInv (removeFromCache elementId c).
Proof.
  intros (Hnd & Hdom & Hne). unfold cacheInv. simpl. split; [|split].
  - by apply remove_first_NoDup.
  - rewrite dom_delete_L, Hdom. apply set_eq. intros x.
    rewrite elem_of_difference, !elem_of_list_to_set, remove_first_elem by done.
    by rewrite elem_of_singleton.
  - rewrite remove_first_elem by done. tauto.
Qed.

Lemma cacheInv_getRef now elementId c : cacheInv c -> cacheInv (getRef now elementId c).2.
Proof.
  intros Hc. unfold getRef. destruct (cache c !! elementId) as [ref|] eqn:E; [|done].
  destruct (isExpired now ref c); simpl.
  - by apply cacheInv_removeFromCache.
  - apply cacheInv_refresh; eauto.
Qed.

Lemma extractElementId_nonempty element elementId :
  Utils.extractElementId element = Some elementId -> elementId ≠ "".
Proof.
  assert (forall v s, Utils.truthy_string v = Some s -> s ≠ "") as Hts.
  { intros v s. unfold Utils.truthy_string. destruct v; try done.
    destruct (String.eqb_spec s0 ""); [done|]. by intros [= <-]. }
  unfold Utils.extractElementId. destruct (truthy element) eqn:Ht; simpl; [|done].
  destruct element; simpl in *; try done;
    try (destruct (Utils.truthy_string _) eqn:E; [intros [= <-]|]; eauto).
  intros [= <-]. by destruct (String.eqb_spec s "").
Qed.

Lemma cacheInv_cacheElementsFrom i now elements using_ value c c' :
  cacheInv c -> cacheElementsFrom i now elements using_ value c = Some c' -> cacheInv c'.
Proof.
  revert i c. induction elements as [|element rest IH]; intros i c Hc; simpl.
  - by intros [= <-].
  - destruct (Utils.extractElementId element) as [elementId|] eqn:E; [|by apply IH].
    destruct (addToCache _ _ c) as [c1|] eqn:Ea; [|done].
    apply IH. eapply cacheInv_addToCache; [done| |done].
    by eapply extractElementId_nonempty.
Qed.

Lemma cacheInv_foldl_remove (l : list string) c :
  cacheInv c -> cacheInv (foldl (fun acc elementId => removeFromCache elementId acc) c l).
Proof.
  revert c. induction l as [|x l IH]; intros c Hc; simpl; [done|].
  apply IH. by apply cacheInv_removeFromCache.
Qed.

Lemma cacheInv_setMapping oldId newId c : cacheInv c -> cacheInv (setMapping oldId newId c).
Proof.
  assert (forall l c0, cache (foldl (repoint newId) c0 l) = cache c0
                       ∧ accessOrder (foldl (repoint newId) c0 l) = accessOrder c0) as Hf.
  { induction l as [|x l IH]; intros c0; simpl; [done|]. by rewrite !(proj1 (IH _)), !(proj2 (IH _)). }
  intros Hc. unfold cacheInv, setMapping.
  destruct (reverseIndex c !! oldId) as [S|]; simpl; [|done].
  by rewrite !(proj1 (Hf _ _)), !(proj2 (Hf _ _)).
Qed.

(** The invariant holds in every reachable state. *)
Lemma reachable_cacheInv cfg c : reachable cfg c -> cacheInv c.
Proof.
  induction 1.
  - apply cacheInv_new.
  - by eapply cacheInv_addToCache.
  - by eapply cacheInv_cacheElementsFrom.
  - by apply cacheInv_getRef.
  - by apply cacheInv_setMapping.
  - by apply cacheInv_foldl_remove.
  - unfold cacheInv, clear. simpl. split; [constructor|]. split; [|apply not_elem_of_nil].
    by rewrite dom_empty_L.
Qed.

(** *** The eviction loop *)

Lemma evictLoop_unfold fuel c :
  evictLoop fuel c
  = if (maxCacheEntries (config c) <=? base.size (cache c))%nat then
      match fuel with O => None | S fuel' => evictLoop fuel' (evictLRU c) end
    else Some c.
Proof. by destruct fuel. Qed.

(** On an empty access order the loop of a full cache does not end,
    whatever the fuel. *)
Lemma evictLoop_stuck fuel c :
  accessOrder c = [] ->
  (maxCacheEntries (config c) <= base.size (cache c))%nat ->
  evictLoop fuel c = None.
Proof.
  intros Ho Hfull. induction fuel as [|fuel IH]; simpl;
    destruct (Nat.leb_spec (maxCacheEntries (config c)) (base.size (cache c))); try lia; [done|].
  unfold evictLRU. by rewrite Ho.
Qed.

(** The fuel that [addToCache] gives to the loop is enough: more fuel
    gives the same result, so [None] is a loop that never ends. *)
Lemma evictLoop_fuel_enough fuel c :
  (S (length (accessOrder c)) <= fuel)%nat ->
  evictLoop fuel c = evictLoop (S (length (accessOrder c))) c.
Proof.
  remember (length (accessOrder c)) as n eqn:Hn. revert c fuel Hn.
  induction n as [|n IH]; intros c fuel Hn Hfuel.
  - destruct (accessOrder c) eqn:Ho; [|done].
    rewrite !(evictLoop_unfold _ c).
    destruct (Nat.leb_spec (maxCacheEntries (config c)) (base.size (cache c))); [|done].
    destruct fuel as [|fuel]; [lia|].
    assert (evictLRU c = c) as -> by (unfold evictLRU; by rewrite Ho).
    by rewrite !evictLoop_stuck.
  - rewrite !(evictLoop_unfold _ c).
    destruct (_ <=? _)%nat; [|done].
    destruct fuel as [|fuel]; [lia|].
    apply IH; [|lia].
    unfold evictLRU. destruct (accessOrder c) as [|x rest] eqn:Ho; [done|].
    simpl in Hn. injection Hn as ->. by destruct (String.eqb x "").
Qed.

(** An insertion into a full cache evicts the head of the access order,
    and nothing else. *)
Lemma addToCache_full c elementId ref lruId rest :
  cacheInv c ->
  base.size (cache c) = maxCacheEntries (config c) ->
  (0 < maxCacheEntries (config c))%nat ->
  accessOrder c = lruId :: rest ->
  exists c',
    addToCache elementId ref c = Some c'
    ∧ cache c' = <[elementId := ref]> (delete lruId (cache c))
    ∧ accessOrder c' = (remove_first elementId rest ++ [elementId])%list.
Proof.
  intros Hc Hsize Hmax Ho.
  assert (is_Some (cache c !! lruId)) as Hl.
  { apply (cacheInv_cached c lruId Hc). rewrite Ho. apply list_elem_of_here. }
  assert (lruId ≠ "") as Hne.
  { destruct Hc as (_ & _ & H0). rewrite Ho in H0. by apply not_elem_of_cons in H0 as [? _]. }
  unfold addToCache. rewrite Ho. cbn [length evictLoop].
  rewrite Hsize, Nat.leb_refl.
  assert (evictLRU c = with_cache (delete lruId (cache c)) (with_accessOrder rest c)) as ->.
  { unfold evictLRU. rewrite Ho. by destruct (String.eqb_spec lruId ""). }
  rewrite evictLoop_unfold. simpl.
  rewrite map_size_delete_Some by done.
  destruct (Nat.leb_spec (maxCacheEntries (config c)) (pred (base.size (cache c)))); [lia|].
  eexists. split; [done|]. by simpl.
Qed.

(** ** C6 *)

(** C6.  Let the cache be in a reachable state and hold the configured
    maximum number of entries (at least one).  An insertion then succeeds
    and evicts exactly the entry at the head of the access order, the
    least recently touched one: the cache afterwards is the old one
    without that entry and with the inserted one.  Moreover, when the
    maximum is at least two, a [getRef] that hits moves the entry it
    returns to the end of the access order (most recently used) and keeps
    the cache as it is, so that the next insertion evicts another entry
    and the entry that was hit is still cached after it. *)
Theorem full_cache_evicts_least_recently_touched
    (cfg : PluginConfig.t) (c : t) (now : Z) (elementId : string) (ref : CachedRef) :
  reachable cfg c ->
  base.size (cache c) = maxCacheEntries (config c) ->
  (0 < maxCacheEntries (config c))%nat ->
  (exists lruId rest c',
      accessOrder c = lruId :: rest
      ∧ is_Some (cache c !! lruId)
      ∧ addToCache elementId ref c = Some c'
      ∧ cache c' = <[elementId := ref]> (delete lruId (cache c))
      ∧ accessOrder c' = (remove_first elementId rest ++ [elementId])%list)
  ∧ (forall hitId hit c1,
        (2 <= maxCacheEntries (config c))%nat ->
        getRef now hitId c = (Some hit, c1) ->
        last (accessOrder c1) = Some hitId
        ∧ cache c1 = cache c
        ∧ exists lruId rest c2,
            accessOrder c1 = lruId :: rest
            ∧ lruId ≠ hitId
            ∧ addToCache elementId ref c1 = Some c2
            ∧ cache c2 = <[elementId := ref]> (delete lruId (cache c))
            ∧ is_Some (cache c2 !! hitId)).
Proof.
  intros Hreach Hsize Hmax. pose proof (reachable_cacheInv _ _ Hreach) as Hc.
  pose proof (cacheInv_size c Hc) as Hlen. split.
  - destruct (accessOrder c) as [|lruId rest] eqn:Ho; [simpl in Hlen; lia|].
    destruct (addToCache_full c elementId ref lruId rest Hc Hsize Hmax Ho) as (c' & ? & ? & ?).
    exists lruId, rest, c'. repeat split; try done.
    apply (cacheInv_cached c lruId Hc). rewrite Ho. apply list_elem_of_here.
  - intros hitId hit c1 Hmax2 Hget. unfold getRef in Hget.
    destruct (cache c !! hitId) as [ref0|] eqn:Ehit; [|done].
    destruct (isExpired now ref0 c); [done|]. injection Hget as <- <-.
    assert (hitId ∈ accessOrder c) as Hin by (apply (cacheInv_cached c hitId Hc); eauto).
    assert (cacheInv (updateAccessOrder hitId c)) as Hc1 by (apply cacheInv_refresh; eauto).
    split; [apply last_snoc|]. split; [done|].
    pose proof (remove_first_length hitId _ Hin) as Hrl.
    destruct (remove_first hitId (accessOrder c)) as [|lruId rest] eqn:Hrf;
      [simpl in Hrl; lia|].
    assert (lruId ≠ hitId) as Hne.
    { assert (lruId ∈ remove_first hitId (accessOrder c)) as H
        by (rewrite Hrf; apply list_elem_of_here).
      apply remove_first_elem in H; [tauto|]. apply Hc. }
    destruct (addToCache_full (updateAccessOrder hitId c) elementId ref lruId
                (rest ++ [hitId])%list Hc1 Hsize Hmax) as (c2 & Hadd & Hcache & _).
    { simpl. by rewrite Hrf. }
    exists lruId, (rest ++ [hitId])%list, c2. simpl. rewrite Hrf. repeat split; try done.
    rewrite Hcache. simpl. destruct (decide (elementId = hitId)) as [->|?].
    + rewrite lookup_insert_eq. eauto.
    + rewrite lookup_insert_ne, lookup_delete_ne by done. eauto.
Qed.

Lemma smallCache_reachable : reachable Samples.smallConfig Samples.smallCache.
Proof.
  apply (reach_cacheElement _ 3 "elem-3" "id" "btn3" Samples.smallCache2);
    [|done|vm_compute; reflexivity].
  apply (reach_cacheElement _ 2 "elem-2" "id" "btn2" Samples.smallCache1);
    [|done|vm_compute; reflexivity].
  apply (reach_cacheElement _ 1 "elem-1" "id" "btn1"
           (ElementReferenceCache.new Samples.smallConfig));
    [|done|vm_compute; reflexivity].
  apply reach_new.
Qed.

(** The witness of C6, on the cache of capacity 3 that holds the elements
    1, 2 and 3: the insertion of a fourth evicts element 1; after a
    [getRef] of element 1 at instant 4, it evicts element 2 instead. *)
Lemma full_cache_evicts_least_recently_touched_witness :
  (exists c',
      addToCache "elem-4" Samples.btn4 Samples.smallCache = Some c'
      ∧ cache c' = <["elem-4" := Samples.btn4]> (delete "elem-1" (cache Samples.smallCache)))
  ∧ (exists c2,
        addToCache "elem-4" Samples.btn4 (getRef 4 "elem-1" Samples.smallCache).2 = Some c2
        ∧ cache c2 = <["elem-4" := Samples.btn4]> (delete "elem-2" (cache Samples.smallCache))
        ∧ is_Some (cache c2 !! "elem-1")).
Proof.
  destruct (full_cache_evicts_least_recently_touched Samples.smallConfig Samples.smallCache
              4 "elem-4" Samples.btn4 smallCache_reachable)
    as [(lruId & rest & c' & Ho & _ & Hadd & Hcache & _) Hhit].
  { vm_compute. reflexivity. }
  { vm_compute. lia. }
  split.
  - exists c'. split; [exact Hadd|].
    assert (lruId = "elem-1") as <-; [|exact Hcache].
    vm_compute in Ho. by injection Ho as <- _.
  - destruct (getRef 4 "elem-1" Samples.smallCache) as [[hit|] c1] eqn:Hget;
      [|vm_compute in Hget; discriminate Hget].
    destruct (Hhit "elem-1" hit c1) as (_ & _ & lruId' & rest' & c2 & Ho1 & _ & Hadd1 & Hcache1 & Hin);
      [vm_compute; lia|exact Hget|].
    exists c2. split; [exact Hadd1|]. split; [|exact Hin].
    assert (lruId' = "elem-2") as <-; [|exact Hcache1].
    vm_compute in Hget. injection Hget as _ <-.
    vm_compute in Ho1. by injection Ho1 as <- _.
Defined.

End CacheFacts.

(* ====================================================================== *)
(** * The interception layer                                               *)
(* ====================================================================== *)

Module PluginFacts.
Import Plugin.

Section Generic.
Context {World : Type} (config : PluginConfig.t) (driver : Driver.t World).

(** [getStore] returns the store of the session, a new one when the
    session had none; what is then written to the store is written to
    the entry of the session. *)
Lemma getStore_returns (st : State (World := World)) :
  Driver.sessionId driver ≠ "" ->
  exists stores1,
    getStore driver st
    = (Return (default WatcherStore.new (stores st !! Driver.sessionId driver)),
       mkState stores1 (caches st) (env st))
    ∧ forall store,
        <[Driver.sessionId driver := store]> stores1
        = <[Driver.sessionId driver := store]> (stores st).
Proof.
  intros Hsid. unfold getStore.
  destruct (String.eqb_spec (Driver.sessionId driver) "") as [|_]; [done|].
  destruct (stores st !! Driver.sessionId driver) as [store0|] eqn:Hst; simpl.
  - exists (stores st). split; [by destruct st|done].
  - eexists. split; [done|]. intros store. apply insert_insert_eq.
Qed.

(** ** What [interceptAction] sends first *)

(** The first call of [interceptAction] is [next] as the host built it;
    the identifier mappings of the cache do not enter it.  When that
    call returns, its result is the result of the action. *)
Lemma interceptAction_first_call_is_next
    (next : Env.call JsVal) (elementId cmdName : string) (args : list JsVal)
    (st : State (World := World)) (cache : ElementReferenceCache.t)
    (result : JsVal) (e1 : Env.t World) :
  Driver.sessionId driver ≠ "" ->
  caches st !! Driver.sessionId driver = Some cache ->
  next (entering (env st)) = (Ok result, e1) ->
  interceptAction config driver next elementId cmdName args st
  = (Return result, mkState (stores st) (caches st) e1).
Proof.
  intros Hsid Hcache Hnext.
  unfold interceptAction, bind, getCache, try_catch, call_next, await.
  destruct (String.eqb_spec (Driver.sessionId driver) "") as [|_]; [done|].
  rewrite Hcache. cbn [env stores caches]. fold (entering (env st)).
  by rewrite Hnext.
Qed.
End Generic.

(** ** C1 *)

(** C1, as stated, fails.  On a screen where the element appears by itself
    after the first lookup, with no watcher registered: the lookup fails
    with a not-found failure, [checkWatchers] returns false without a
    call, and the lookup is retried all the same; the retry succeeds and
    its result is returned, not the original failure. *)
Lemma findElement_retries_after_idle_pass :
  Env.findElement Samples.lateDriver "id" "login" (entering Samples.startEnv)
  = (Err Samples.noSuchElement, Env.mk 1 [EvNext; EvFindElement "id" "login"])
  ∧ shouldCheckWatchers Samples.noSuchElement = true
  ∧ Checker.checkWatchers Samples.lateDriver WatcherStore.new
      (Env.mk 1 [EvNext; EvFindElement "id" "login"])
    = (false, WatcherStore.new, Env.mk 1 [EvNext; EvFindElement "id" "login"])
  ∧ (dispatchFindElement DefaultPluginConfig Samples.lateDriver "id" "login" Samples.freshSession).1
    = Return (Samples.element "login")
  ∧ Env.trace (env (dispatchFindElement DefaultPluginConfig Samples.lateDriver
                      "id" "login" Samples.freshSession).2)
    = [EvNext; EvFindElement "id" "login"; EvNext; EvFindElement "id" "login"].
Proof. vm_compute. auto 10. Qed.

(** ** C3 *)

(** C3 (the code at the failing input).  The identifier "a" resolves to
    "b" through the mappings of the cache, and a click on "a" still reaches
    the driver as a click on "a". *)
Theorem action_reaches_driver_under_original_id :
  ((fun cache => resolveId cache "a") <$> caches Samples.remappedSession !! "s1") = Some "b"
  ∧ dispatch DefaultPluginConfig Samples.popupDriver "click" [JStr "a"] Samples.remappedSession
    = (Return JNull,
       mkState (stores Samples.remappedSession) (caches Samples.remappedSession)
         (Env.mk 1 [EvNext; EvCommand "click" [JStr "a"]])).
Proof. vm_compute. auto. Qed.

End PluginFacts.

(* ====================================================================== *)
(** * More on the registry                                                 *)
(* ====================================================================== *)

Section JsMapMoreFacts.
Context {V : Type}.
Implicit Types (m : list (string * V)) (k : string).

Lemma JsMap_get_None_keys k m : JsMap.get k m = None <-> k ∉ JsMap.keys m.
Proof.
  unfold JsMap.keys. induction m as [|[k0 v0] m IH]; simpl.
  - split; [intros _; apply not_elem_of_nil|done].
  - rewrite not_elem_of_cons. destruct (String.eqb_spec k k0) as [->|Hne].
    + split; [done|]. intros [? _]. done.
    + rewrite IH. tauto.
Qed.

Lemma JsMap_keys_update (f : V -> V) k m :
  JsMap.keys (JsMap.update f k m) = JsMap.keys m.
Proof.
  unfold JsMap.keys. induction m as [|[k0 v0] m IH]; simpl; [done|].
  destruct (String.eqb k k0); simpl; by rewrite ?IH.
Qed.

Lemma JsMap_update_absent (f : V -> V) k m :
  JsMap.get k m = None -> JsMap.update f k m = m.
Proof.
  induction m as [|[k0 v0] m IH]; simpl; [done|].
  destruct (String.eqb k k0); [done|]. intros H. by rewrite IH.
Qed.

Lemma JsMap_update_in (f : V -> V) k m k' v' :
  (k', v') ∈ JsMap.update f k m -> exists v, (k', v) ∈ m ∧ (v' = v ∨ v' = f v).
Proof.
  induction m as [|[k0 v0] m IH]; simpl; [by intros ?%elem_of_nil|].
  destruct (String.eqb k k0).
  - intros [[= -> ->]|Hin]%elem_of_cons.
    + exists v0. split; [apply list_elem_of_here|auto].
    + exists v'. split; [by apply list_elem_of_further|auto].
  - intros [[= -> ->]|Hin]%elem_of_cons.
    + exists v0. split; [apply list_elem_of_here|auto].
    + destruct (IH Hin) as (v & ? & ?). exists v. split; [by apply list_elem_of_further|done].
Qed.

Lemma JsMap_set_fresh k (v : V) m :
  JsMap.get k m = None -> JsMap.set k v m = (m ++ [(k, v)])%list.
Proof.
  induction m as [|[k0 v0] m IH]; simpl; [done|].
  destruct (String.eqb k k0); [done|]. intros H. by rewrite IH.
Qed.

Lemma JsMap_delete_filter k m :
  NoDup (JsMap.keys m) -> JsMap.delete k m = filter (fun e => e.1 ≠ k) m.
Proof.
  unfold JsMap.keys. induction m as [|[k0 v0] m IH]; simpl; [done|].
  intros [Hk0 Hnd]%NoDup_cons.
  destruct (String.eqb_spec k k0) as [->|Hne].
  - rewrite filter_cons_False by (simpl; auto).
    clear IH. induction m as [|[k1 v1] m IH]; [done|].
    simpl in Hk0. apply not_elem_of_cons in Hk0 as [Hne Hk0].
    apply NoDup_cons in Hnd as [_ Hnd].
    rewrite filter_cons_True by (simpl; auto). by rewrite <-IH.
  - rewrite filter_cons_True by (simpl; auto). by rewrite IH.
Qed.

Lemma JsMap_keys_filter_NoDup (P : string * V -> Prop) `{!forall e, Decision (P e)} m :
  NoDup (JsMap.keys m) -> NoDup (JsMap.keys (filter P m)).
Proof.
  unfold JsMap.keys. induction m as [|[k v] m IH]; [done|].
  simpl. intros [Hk Hnd]%NoDup_cons. rewrite filter_cons.
  destruct (decide (P (k, v))); [|by apply IH].
  simpl. apply NoDup_cons. split; [|by apply IH].
  intros Hin. apply Hk. clear -Hin.
  induction m as [|[k1 v1] m IH]; [done|].
  rewrite filter_cons in Hin. simpl.
  destruct (decide (P (k1, v1))); simpl in Hin.
  - apply elem_of_cons in Hin as [->|Hin]; [apply list_elem_of_here|].
    apply list_elem_of_further. by apply IH.
  - apply list_elem_of_further. by apply IH.
Qed.

Lemma filter_ext_elem {A} (P Q : A -> Prop) `{!forall x, Decision (P x)}
    `{!forall x, Decision (Q x)} (l : list A) :
  (forall x, x ∈ l -> P x <-> Q x) -> filter P l = filter Q l.
Proof.
  induction l as [|x l IH]; intros Hpq; [done|].
  rewrite !filter_cons.
  pose proof (Hpq x (list_elem_of_here _ _)) as Hx.
  rewrite IH by (intros y Hy; apply Hpq; by apply list_elem_of_further).
  destruct (decide (P x)), (decide (Q x)); tauto.
Qed.

Lemma filter_all_elem {A} (P : A -> Prop) `{!forall x, Decision (P x)} (l : list A) :
  (forall x, x ∈ l -> P x) -> filter P l = l.
Proof.
  induction l as [|x l IH]; intros Hp; [done|].
  rewrite filter_cons_True by apply Hp, list_elem_of_here.
  rewrite IH; [done|]. intros y Hy. by apply Hp, list_elem_of_further.
Qed.

Lemma JsMap_foldl_delete (ns : list string) m :
  NoDup (JsMap.keys m) ->
  foldl (fun acc n => JsMap.delete n acc) m ns = filter (fun e => e.1 ∉ ns) m.
Proof.
  revert m. induction ns as [|n ns IH]; intros m Hnd; simpl.
  - symmetry. apply filter_all_elem. intros e _. apply not_elem_of_nil.
  - rewrite JsMap_delete_filter by done.
    rewrite IH by (by apply JsMap_keys_filter_NoDup).
    rewrite list_filter_filter. apply filter_ext_elem.
    intros e _. rewrite not_elem_of_cons. tauto.
Qed.

Lemma JsMap_values_filter (P : V -> Prop) `{H : !forall v, Decision (P v)}
    `{H0 : !forall e : string * V, Decision (P e.2)} m :
  JsMap.values (filter (fun e => P e.2) m) = filter P (JsMap.values m).
Proof.
  unfold JsMap.values. induction m as [|[k v] m IH]; [done|].
  simpl. rewrite !filter_cons. simpl.
  destruct (H v) as [Hv|Hv], (H0 (k, v)) as [Hv'|Hv']; simpl in *; try done;
    rewrite IH; done.
Qed.
End JsMapMoreFacts.

Module RegistryFacts.
Import WatcherStore StoreSpec.

Lemma JsMap_keys_elem {V : Type} (m : Datatypes.list (string * V)) k :
  k ∈ JsMap.keys m <-> exists v, (k, v) ∈ m.
Proof.
  unfold JsMap.keys. induction m as [|[k0 v0] m IH]; simpl.
  - split; [by intros ?%elem_of_nil|by intros [? ?%elem_of_nil]].
  - rewrite elem_of_cons, IH. split.
    + intros [->|[v Hv]]; [exists v0; apply list_elem_of_here|].
      exists v. by apply list_elem_of_further.
    + intros [v [[= -> ->]|Hv]%elem_of_cons]; eauto.
Qed.

Lemma JsMap_keys_NoDup_inj {V : Type} (m : Datatypes.list (string * V)) k v v' :
  NoDup (JsMap.keys m) -> (k, v) ∈ m -> (k, v') ∈ m -> v = v'.
Proof.
  unfold JsMap.keys. induction m as [|[k0 v0] m IH]; simpl; [by intros _ ?%elem_of_nil|].
  intros [Hk Hnd]%NoDup_cons Hv Hv'.
  assert (forall u, (k0, u) ∈ m -> False) as Hno.
  { intros u Hu. apply Hk. apply (JsMap_keys_elem m k0). eauto. }
  apply elem_of_cons in Hv as [Hv|Hv]; apply elem_of_cons in Hv' as [Hv'|Hv'].
  - congruence.
  - injection Hv as -> ->. by apply Hno in Hv'.
  - injection Hv' as -> ->. by apply Hno in Hv.
  - by apply IH.
Qed.

Lemma filter_length_mono {A} (P Q : A -> Prop) `{!forall x, Decision (P x)}
    `{!forall x, Decision (Q x)} (l : Datatypes.list A) :
  (forall x, P x -> Q x) -> (length (filter P l) <= length (filter Q l))%nat.
Proof.
  intros Hpq. induction l as [|x l IH]; [done|].
  rewrite !filter_cons. destruct (decide (P x)) as [Hp|Hp], (decide (Q x)) as [Hq|Hq];
    simpl; try lia. by apply Hpq in Hp.
Qed.

Lemma count_delete_le now k (m : Datatypes.list (string * WatcherState.t)) :
  (length (filter (fun w => expired now w = false) (JsMap.values (JsMap.delete k m)))
   <= length (filter (fun w => expired now w = false) (JsMap.values m)))%nat.
Proof.
  unfold JsMap.values. induction m as [|[k0 v0] m IH]; simpl; [done|].
  destruct (String.eqb k k0); simpl.
  - rewrite filter_cons. destruct (decide _); simpl; lia.
  - rewrite !filter_cons. destruct (decide _); simpl; lia.
Qed.

(** The storage after [getActiveWatchers]: the entries that have not
    expired, in their order. *)
Lemma getActiveWatchers_storage now s :
  namesUnique s ->
  watchers (getActiveWatchers now s).2
  = filter (fun e => expired now e.2 = false) (watchers s).
Proof.
  intros Hnd. unfold getActiveWatchers. simpl.
  rewrite JsMap_foldl_delete by done. apply filter_ext_elem.
  intros [k w] Hin. simpl. split.
  - intros Hk. destruct (expired now w) eqn:E; [|done].
    exfalso. apply Hk. apply JsMap_keys_elem. exists w.
    apply list_elem_of_filter. by split.
  - intros Hw [w' Hw']%JsMap_keys_elem. apply list_elem_of_filter in Hw' as [Hexp Hin'].
    simpl in Hexp. rewrite (JsMap_keys_NoDup_inj _ _ _ _ Hnd Hin' Hin) in Hexp. congruence.
Qed.

(** ** The result of [getActiveWatchers] is what stays stored *)

Lemma getActiveWatchers_list (now : Z) (s : WatcherStore.t) :
  namesUnique s ->
  WatcherStore.list (getActiveWatchers now s).2 = (getActiveWatchers now s).1.
Proof.
  intros Hnd. unfold WatcherStore.list. rewrite getActiveWatchers_storage by done.
  rewrite StoreFacts.getActiveWatchers_fst. unfold WatcherStore.list.
  apply (JsMap_values_filter (fun w => expired now w = false)).
Qed.

(** X2.  When no name is stored twice, [getActiveWatchers] leaves in the storage
    exactly the watchers it returns, none of which has expired; calling it
    again at the same instant returns the same watchers and changes
    nothing. *)
Theorem getActiveWatchers_prunes_exactly (now : Z) (s : WatcherStore.t) :
  namesUnique s ->
  let active := (getActiveWatchers now s).1 in
  let pruned := (getActiveWatchers now s).2 in
  WatcherStore.list pruned = active
  ∧ (forall w, w ∈ WatcherStore.list pruned -> expired now w = false)
  ∧ getActiveWatchers now pruned = (active, pruned).
Proof.
  intros Hnd active pruned.
  pose proof (getActiveWatchers_list now s Hnd) as Hlist. fold active pruned in Hlist.
  assert (forall w, w ∈ WatcherStore.list pruned -> expired now w = false) as Hall.
  { intros w. rewrite Hlist. unfold active. rewrite StoreFacts.getActiveWatchers_fst.
    by intros [? _]%list_elem_of_filter. }
  split; [done|]. split; [done|].
  unfold getActiveWatchers at 1. f_equal.
  - fold (WatcherStore.list pruned). rewrite <-Hlist. by apply filter_all_elem.
  - assert (filter (fun e => expired now e.2 = true) (watchers pruned) = []) as ->.
    { apply elem_of_nil_inv. intros [k w] [Hexp Hin]%list_elem_of_filter. simpl in Hexp.
      rewrite Hall in Hexp; [done|].
      unfold WatcherStore.list, JsMap.values. apply list_elem_of_In, in_map_iff.
      exists (k, w). split; [done|]. by apply list_elem_of_In. }
    simpl. reflexivity.
Qed.

(** ** The invariant of the registry *)

Lemma storeInv_storage_filter cfg now s (P : string * WatcherState.t -> Prop)
    `{!forall e, Decision (P e)} :
  storeInv cfg now s ->
  storeInv cfg now (mk (filter P (watchers s)) (enabled s)).
Proof.
  intros (Hnd & Hkey & Hcount). split; [|split].
  - by apply JsMap_keys_filter_NoDup.
  - intros k w [_ Hin]%list_elem_of_filter. by apply Hkey.
  - etrans; [|exact Hcount]. unfold unexpiredCount, WatcherStore.list. simpl.
    generalize (watchers s). intros m. unfold JsMap.values.
    induction m as [|[k w] m IH]; [done|].
    rewrite filter_cons. destruct (decide (P (k, w))); simpl.
    + rewrite !filter_cons. destruct (decide _); simpl; lia.
    + rewrite filter_cons. destruct (decide _); simpl; lia.
Qed.

Lemma storeInv_getActiveWatchers cfg now s :
  storeInv cfg now s -> storeInv cfg now (getActiveWatchers now s).2.
Proof.
  intros Hs. pose proof Hs as (Hnd & _).
  pose proof (getActiveWatchers_storage now s Hnd) as Hw.
  destruct (getActiveWatchers now s) as [ws [m en]] eqn:E. simpl in *. subst m.
  assert (en = enabled s) as -> by (unfold getActiveWatchers in E; by injection E).
  by apply storeInv_storage_filter.
Qed.

Lemma storeInv_update cfg now s (f : WatcherState.t -> WatcherState.t) name :
  (forall w, WatcherState.name (f w) = WatcherState.name w) ->
  (forall w, WatcherState.expiresAt (f w) = WatcherState.expiresAt w) ->
  storeInv cfg now s ->
  storeInv cfg now (mk (JsMap.update f name (watchers s)) (enabled s)).
Proof.
  intros Hname Hexp (Hnd & Hkey & Hcount). split; [|split].
  - unfold namesUnique. simpl. by rewrite JsMap_keys_update.
  - intros k w Hin. simpl in Hin. apply JsMap_update_in in Hin as (v & Hv & [->| ->]).
    + by apply Hkey.
    + rewrite Hname. by apply Hkey.
  - unfold unexpiredCount, WatcherStore.list in *. simpl.
    rewrite JsMap_values_update_filter_length; [done|].
    intros w. unfold expired. by rewrite Hexp.
Qed.

Lemma storeInv_add cfg now watcher s :
  (MAX_WATCHERS <= PluginConfig.maxWatchers cfg)%nat ->
  storeInv cfg now s -> storeInv cfg now (add now watcher s).2.
Proof.
  intros Hmax Hs. unfold add.
  destruct (JsMap.has (UIWatcher.name watcher) (watchers s)) eqn:Hhas; [done|].
  pose proof (storeInv_getActiveWatchers cfg now s Hs) as Hp.
  pose proof (getActiveWatchers_storage now s (proj1 Hs)) as Hw.
  pose proof (getActiveWatchers_list now s (proj1 Hs)) as Hl.
  destruct (getActiveWatchers now s) as [ws s1]. cbn [fst snd] in *.
  destruct (Nat.leb_spec MAX_WATCHERS (length ws)) as [Hfull|Hroom];
    [done|]. cbn [fst snd watchers enabled].
  assert (JsMap.get (UIWatcher.name watcher) (watchers s1) = None) as Hfresh.
  { apply JsMap_get_None_keys. intros [w Hin]%JsMap_keys_elem.
    rewrite Hw in Hin. apply list_elem_of_filter in Hin as [_ Hin].
    assert (JsMap.get (UIWatcher.name watcher) (watchers s) = None) as Hg.
    { unfold JsMap.has in Hhas. by destruct (JsMap.get _ _). }
    apply JsMap_get_None_keys in Hg. apply Hg, JsMap_keys_elem. eauto. }
  rewrite JsMap_set_fresh by done.
  destruct Hp as (Hnd1 & Hkey1 & Hcount1). split; [|split].
  - unfold namesUnique, JsMap.keys in *. simpl. rewrite map_app. simpl.
    apply NoDup_app. split; [done|]. split; [|apply NoDup_singleton].
    intros k Hk ->%list_elem_of_singleton.
    by apply (JsMap_get_None_keys (UIWatcher.name watcher) (watchers s1)).
  - intros k w [Hin|[= -> ->]%list_elem_of_singleton]%elem_of_app; [by apply Hkey1|done].
  - unfold unexpiredCount, WatcherStore.list, JsMap.values in *. simpl.
    rewrite map_app, filter_app, length_app, Hl.
    assert (length (filter (fun w => expired now w = false) ws) <= length ws)%nat
      by apply length_filter.
    simpl. rewrite filter_cons. destruct (decide _); simpl; lia.
Qed.

(** X1.  In every state of a registry reached from a new store by its
    methods, with a clock that never goes back, no name is stored twice,
    every watcher is stored under its own name, and the number of watchers
    that have not expired is at most 5, the constant [MAX_WATCHERS]. *)
Theorem registry_names_unique_and_bounded (now : Z) (s : WatcherStore.t) :
  reachable now s ->
  namesUnique s ∧ keyedByName s
  ∧ (unexpiredCount now s <= MAX_WATCHERS)%nat.
Proof.
  change (reachable now s -> storeInv DefaultPluginConfig now s).
  induction 1 as [now|now later s _ IH Hle|now watcher s _ IH|now name s _ IH|now s _ IH
                 |now s _ IH|now name s _ IH|now name s _ IH|now name s _ IH
                 |now s _ IH|now s _ IH].
  - split; [constructor|]. split; [by intros ?? ?%elem_of_nil|]. unfold unexpiredCount. simpl. lia.
  - destruct IH as (? & ? & Hc). split; [done|]. split; [done|].
    etrans; [|exact Hc]. apply filter_length_mono. intros w. unfold expired. lia.
  - by apply storeInv_add.
  - pose proof IH as (Hnd & _). unfold remove. simpl.
    rewrite JsMap_delete_filter by done. by apply storeInv_storage_filter.
  - by apply storeInv_getActiveWatchers.
  - split; [constructor|]. split; [by intros ?? ?%elem_of_nil|]. unfold unexpiredCount. simpl. lia.
  - by apply storeInv_update.
  - by apply storeInv_update.
  - by apply storeInv_update.
  - done.
  - done.
Qed.

Lemma fullStore_storeInv : storeInv DefaultPluginConfig 0 Samples.fullStore.
Proof.
  unfold Samples.fullStore. cbn [foldl]. repeat (apply storeInv_add; [done|]).
  split; [constructor|]. split; [by intros ?? ?%elem_of_nil|]. unfold unexpiredCount. simpl. lia.
Qed.

Lemma fullStore_reachable : reachable 0 Samples.fullStore.
Proof.
  unfold Samples.fullStore. cbn [foldl]. repeat apply reach_add. apply reach_new.
Qed.

(** The registry filled with five watchers at instant 0: the bound is
    reached, and still holds at instant 40000, when all have expired. *)
Lemma registry_names_unique_and_bounded_witness :
  unexpiredCount 0 Samples.fullStore = 5%nat
  ∧ (unexpiredCount 40000 Samples.fullStore <= MAX_WATCHERS)%nat.
Proof.
  split; [vm_compute; reflexivity|].
  apply (registry_names_unique_and_bounded 40000 Samples.fullStore).
  apply (reach_later 0); [apply fullStore_reachable|lia].
Defined.

(** The registry of three watchers, read at instant 1000 and at 31000. *)
Lemma getActiveWatchers_prunes_exactly_witness :
  WatcherState.name <$> WatcherStore.list (getActiveWatchers 30150 Samples.threeStore).2
  = ["first"; "second"]
  ∧ getActiveWatchers 30150 (getActiveWatchers 30150 Samples.threeStore).2
    = ((getActiveWatchers 30150 Samples.threeStore).1,
       (getActiveWatchers 30150 Samples.threeStore).2).
Proof.
  split; [vm_compute; reflexivity|].
  apply (getActiveWatchers_prunes_exactly 30150 Samples.threeStore).
  unfold namesUnique. vm_compute. repeat constructor; set_solver.
Defined.

(** ** What [add] returns and stores *)

Lemma add_cases (now : Z) (watcher : UIWatcher.t) (s : WatcherStore.t) :
  namesUnique s ->
  let alive := (getActiveWatchers now s).1 in
  let pruned := (getActiveWatchers now s).2 in
  match add now watcher s with
  | (Err e, s') =>
      (JsMap.has (UIWatcher.name watcher) (watchers s) = true
       ∧ e = duplicateError (UIWatcher.name watcher) ∧ s' = s)
      ∨ (JsMap.has (UIWatcher.name watcher) (watchers s) = false
         ∧ (MAX_WATCHERS <= length alive)%nat
         ∧ e = capacityError ∧ s' = pruned)
  | (Ok w, s') =>
      JsMap.has (UIWatcher.name watcher) (watchers s) = false
      ∧ (length alive < MAX_WATCHERS)%nat
      ∧ WatcherStore.list s' = (alive ++ [w])%list
      ∧ enabled s' = enabled s
      ∧ WatcherState.name w = UIWatcher.name watcher
      ∧ WatcherState.status w = active
      ∧ WatcherState.triggerCount w = 0
      ∧ WatcherState.lastTriggeredAt w = None
      ∧ WatcherState.priority w = default 0 (UIWatcher.priority watcher)
      ∧ WatcherState.stopOnFound w = default false (UIWatcher.stopOnFound watcher)
      ∧ WatcherState.cooldownMs w = default 0 (UIWatcher.cooldownMs watcher)
  end.
Proof.
  intros Hnd alive pruned. unfold add.
  destruct (JsMap.has (UIWatcher.name watcher) (watchers s)) eqn:Hhas; [by left|].
  pose proof (getActiveWatchers_storage now s Hnd) as Hw.
  pose proof (getActiveWatchers_list now s Hnd) as Hl.
  subst alive pruned.
  destruct (getActiveWatchers now s) as [ws s1] eqn:E. cbn [fst snd] in *.
  destruct (Nat.leb_spec MAX_WATCHERS (length ws)) as [Hfull|Hroom].
  - right. done.
  - assert (JsMap.get (UIWatcher.name watcher) (watchers s1) = None) as Hfresh.
    { apply JsMap_get_None_keys. intros [w Hin]%JsMap_keys_elem.
      rewrite Hw in Hin. apply list_elem_of_filter in Hin as [_ Hin].
      assert (JsMap.get (UIWatcher.name watcher) (watchers s) = None) as Hg.
      { unfold JsMap.has in Hhas. by destruct (JsMap.get _ _). }
      apply JsMap_get_None_keys in Hg. apply Hg, JsMap_keys_elem. eauto. }
    simpl. rewrite JsMap_set_fresh by done.
    repeat split; try done.
    + unfold WatcherStore.list, JsMap.values in *. simpl. by rewrite map_app, Hl.
    + unfold getActiveWatchers in E. by injection E as _ <-.
Qed.

(** X3.  In a registry without duplicate names, [add] ends in one of three ways.
    It fails with the duplicate-name error, and changes nothing, when the
    name is stored; otherwise it fails with the capacity error, after
    pruning, when the unexpired watchers are at least 5, the constant
    [MAX_WATCHERS]; otherwise it succeeds: the new watcher is active, was never triggered,
    carries the defaults of the absent optional parameters, and is stored
    after the unexpired watchers, which are kept in their order. *)
Theorem add_outcome (now : Z) (watcher : UIWatcher.t) (s : WatcherStore.t) :
  namesUnique s ->
  let alive := (getActiveWatchers now s).1 in
  let pruned := (getActiveWatchers now s).2 in
  match add now watcher s with
  | (Err e, s') =>
      (JsMap.has (UIWatcher.name watcher) (watchers s) = true
       ∧ e = duplicateError (UIWatcher.name watcher) ∧ s' = s)
      ∨ (JsMap.has (UIWatcher.name watcher) (watchers s) = false
         ∧ (MAX_WATCHERS <= length alive)%nat
         ∧ e = capacityError ∧ s' = pruned)
  | (Ok w, s') =>
      JsMap.has (UIWatcher.name watcher) (watchers s) = false
      ∧ (length alive < MAX_WATCHERS)%nat
      ∧ WatcherStore.list s' = (alive ++ [w])%list
      ∧ enabled s' = enabled s
      ∧ WatcherState.name w = UIWatcher.name watcher
      ∧ WatcherState.status w = active
      ∧ WatcherState.triggerCount w = 0
      ∧ WatcherState.lastTriggeredAt w = None
      ∧ WatcherState.priority w = default 0 (UIWatcher.priority watcher)
      ∧ WatcherState.stopOnFound w = default false (UIWatcher.stopOnFound watcher)
      ∧ WatcherState.cooldownMs w = default 0 (UIWatcher.cooldownMs watcher)
  end.
Proof. exact (add_cases now watcher s). Qed.

(** A sixth registration in the full registry, a registration under a
    stored name, and a registration after the five watchers have expired. *)
Lemma add_outcome_witness :
  (add 10 (Samples.watcher "w6" None 30000 None None) Samples.fullStore).1
  = Err capacityError
  ∧ (add 10 (Samples.watcher "w2" None 30000 None None) Samples.fullStore).1
    = Err (duplicateError "w2")
  ∧ (WatcherState.name
       <$> WatcherStore.list
             (add 40000 (Samples.watcher "w6" None 30000 None None)
                Samples.fullStore).2) = ["w6"].
Proof.
  assert (namesUnique Samples.fullStore) as Hnd.
  { apply fullStore_storeInv. }
  pose proof (add_outcome 10 (Samples.watcher "w6" None 30000 None None)
                Samples.fullStore Hnd) as H1.
  pose proof (add_outcome 10 (Samples.watcher "w2" None 30000 None None)
                Samples.fullStore Hnd) as H2.
  pose proof (add_outcome 40000 (Samples.watcher "w6" None 30000 None None)
                Samples.fullStore Hnd) as H3.
  cbv zeta in *.
  destruct (add 10 (Samples.watcher "w6" None 30000 None None)
              Samples.fullStore) as [[w|e] s'] eqn:E1; [vm_compute in E1; discriminate E1|].
  destruct (add 10 (Samples.watcher "w2" None 30000 None None)
              Samples.fullStore) as [[w2|e2] s2] eqn:E2; [vm_compute in E2; discriminate E2|].
  destruct (add 40000 (Samples.watcher "w6" None 30000 None None)
              Samples.fullStore) as [[w3|e3] s3] eqn:E3; [|vm_compute in E3; discriminate E3].
  split; [|split].
  - destruct H1 as [(Hhas & _)|(_ & _ & -> & _)]; [vm_compute in Hhas; discriminate Hhas|done].
  - destruct H2 as [(_ & -> & _)|(Hhas & _)]; [done|vm_compute in Hhas; discriminate Hhas].
  - destruct H3 as (_ & _ & Hlist & _ & Hname & _). cbn [snd]. rewrite Hlist.
    rewrite fmap_app. cbn [fmap list_fmap]. rewrite Hname. vm_compute. reflexivity.
Defined.

(** ** [remove] *)

Lemma JsMap_get_delete_ne {V : Type} (m : Datatypes.list (string * V)) k k' :
  k' ≠ k -> JsMap.get k' (JsMap.delete k m) = JsMap.get k' m.
Proof.
  intros Hne. induction m as [|[k0 v0] m IH]; simpl; [done|].
  destruct (String.eqb_spec k k0) as [->|Hk]; simpl.
  - by destruct (String.eqb_spec k' k0).
  - by rewrite IH.
Qed.

Lemma remove_lookup (s : WatcherStore.t) (name : string) :
  namesUnique s ->
  ((remove name s).1 = true <-> is_Some (get name s))
  ∧ get name (remove name s).2 = None
  ∧ (forall other, other ≠ name -> get other (remove name s).2 = get other s)
  ∧ isEnabled (remove name s).2 = isEnabled s.
Proof.
  intros Hnd. unfold remove, get. simpl. split; [apply JsMap_has_get|]. split; [|split].
  - apply JsMap_get_None_keys. rewrite JsMap_delete_filter by done.
    intros [w Hin]%JsMap_keys_elem. by apply list_elem_of_filter in Hin as [? _].
  - intros other Hne. by apply JsMap_get_delete_ne.
  - done.
Qed.

(** X4.  [remove] tells whether the name was stored; afterwards the name is not
    stored (in a registry without duplicate names), and every other name
    maps to what it did. *)
Theorem remove_forgets_only_that_name (s : WatcherStore.t) (name : string) :
  namesUnique s ->
  ((remove name s).1 = true <-> is_Some (get name s))
  ∧ get name (remove name s).2 = None
  ∧ (forall other, other ≠ name -> get other (remove name s).2 = get other s)
  ∧ isEnabled (remove name s).2 = isEnabled s.
Proof. exact (remove_lookup s name). Qed.

Lemma remove_forgets_only_that_name_witness :
  (remove "first" Samples.threeStore).1 = true
  ∧ get "first" (remove "first" Samples.threeStore).2 = None
  ∧ (WatcherState.name <$> get "low" (remove "first" Samples.threeStore).2) = Some "low".
Proof.
  assert (namesUnique Samples.threeStore) as Hnd.
  { unfold namesUnique. vm_compute. repeat constructor; set_solver. }
  destruct (remove_forgets_only_that_name Samples.threeStore "first" Hnd)
    as (Hret & Hgone & Hother & _).
  split; [apply Hret; vm_compute; eauto|]. split; [exact Hgone|].
  rewrite Hother by done. vm_compute. reflexivity.
Defined.

(** ** [markInactive], [incrementTriggerCount] and [updateLastTriggered] *)

(** X5.  The three methods change nothing when the name is not stored.  When it
    is, they change the watcher of that name only, and in it only the status
    (to inactive), respectively the trigger count (one more) and the last
    trigger instant (now), respectively that instant alone; the names and
    their order stay. *)
Theorem trigger_bookkeeping_touches_one_watcher
    (now : Z) (name : string) (s : WatcherStore.t) :
  (get name s = None ->
   markInactive name s = s ∧ incrementTriggerCount now name s = s
   ∧ updateLastTriggered now name s = s)
  ∧ (forall w, get name s = Some w ->
       get name (markInactive name s) = Some (WatcherState.set_status inactive w)
       ∧ get name (incrementTriggerCount now name s)
         = Some (WatcherState.set_trigger (WatcherState.triggerCount w + 1) (Some now) w)
       ∧ get name (updateLastTriggered now name s)
         = Some (WatcherState.set_trigger (WatcherState.triggerCount w) (Some now) w))
  ∧ (forall other, other ≠ name ->
       get other (markInactive name s) = get other s
       ∧ get other (incrementTriggerCount now name s) = get other s
       ∧ get other (updateLastTriggered now name s) = get other s)
  ∧ JsMap.keys (watchers (markInactive name s)) = JsMap.keys (watchers s)
  ∧ JsMap.keys (watchers (incrementTriggerCount now name s)) = JsMap.keys (watchers s)
  ∧ JsMap.keys (watchers (updateLastTriggered now name s)) = JsMap.keys (watchers s).
Proof.
  unfold get, markInactive, incrementTriggerCount, updateLastTriggered. simpl.
  split; [|split; [|split]].
  - intros Hnone. rewrite !JsMap_update_absent by done. by destruct s.
  - intros w Hw. repeat split; by rewrite (JsMap_get_update_eq _ name (watchers s) w Hw).
  - intros other Hne. rewrite !JsMap_get_update.
    destruct (String.eqb_spec name other) as [->|_]; [done|].
    by destruct (JsMap.get other (watchers s)).
  - by rewrite !JsMap_keys_update.
Qed.

Lemma trigger_bookkeeping_touches_one_watcher_witness :
  markInactive "nobody" Samples.threeStore = Samples.threeStore
  ∧ (WatcherState.triggerCount <$> get "low" (incrementTriggerCount 500 "low" Samples.threeStore))
    = Some 1
  ∧ get "first" (incrementTriggerCount 500 "low" Samples.threeStore)
    = get "first" Samples.threeStore.
Proof.
  destruct (trigger_bookkeeping_touches_one_watcher 500 "nobody" Samples.threeStore)
    as (Habsent & _).
  destruct (trigger_bookkeeping_touches_one_watcher 500 "low" Samples.threeStore)
    as (_ & Hpresent & Hother & _).
  split; [apply Habsent; vm_compute; reflexivity|]. split.
  - destruct (get "low" Samples.threeStore) as [w|] eqn:Hw; [|vm_compute in Hw; discriminate Hw].
    destruct (Hpresent w eq_refl) as (_ & -> & _). simpl.
    vm_compute in Hw. injection Hw as <-. reflexivity.
  - apply Hother. done.
Defined.

End RegistryFacts.

(* ====================================================================== *)
(** * What the validators accept                                           *)
(* ====================================================================== *)

Module ValidatorFacts.
Import Validators ValidatorSpec.

Ltac case_ifs H :=
  repeat match type of H with
         | context [if ?c then _ else _] => destruct c eqn:?; try discriminate H
         | context [match ?c with Ok _ => _ | Err _ => _ end] =>
             destruct c eqn:?; try discriminate H
         end.

(** ** White space *)

Lemma ascii_of_byte (c : ascii) (n : nat) : nat_of_ascii c = n -> c = ascii_of_nat n.
Proof. intros <-. symmetry. apply ascii_nat_embedding. Qed.

Ltac to_props H :=
  repeat first [ rewrite orb_true_iff in H | rewrite andb_true_iff in H
               | rewrite Nat.eqb_eq in H | rewrite Nat.leb_le in H ].

Ltac listed := apply (bool_decide_unpack _); vm_compute; exact I.

Lemma is_space_whiteSpace c : is_space c = true -> String c "" ∈ whiteSpace.
Proof.
  unfold is_space. intros H. to_props H.
  assert (nat_of_ascii c = 9 ∨ nat_of_ascii c = 10 ∨ nat_of_ascii c = 11
          ∨ nat_of_ascii c = 12 ∨ nat_of_ascii c = 13 ∨ nat_of_ascii c = 32)%nat
    as Hc by lia.
  clear H. repeat destruct Hc as [Hc|Hc]; rewrite (ascii_of_byte c _ Hc); listed.
Qed.

Lemma is_space2_whiteSpace c1 c2 :
  is_space2 c1 c2 = true -> String c1 (String c2 "") ∈ whiteSpace.
Proof.
  unfold is_space2. intros H. to_props H. destruct H as [H1 H2].
  rewrite (ascii_of_byte c1 _ H1), (ascii_of_byte c2 _ H2). listed.
Qed.

Lemma is_space3_whiteSpace c1 c2 c3 :
  is_space3 c1 c2 c3 = true -> String c1 (String c2 (String c3 "")) ∈ whiteSpace.
Proof.
  unfold is_space3. intros H. cbv zeta in H. to_props H.
  destruct H as [[[[[[H1 H2] H3]|[[H1 H2] H3]]|[[H1 H2] H3]]|[[H1 H2] H3]]|[[H1 H2] H3]];
    rewrite (ascii_of_byte c1 _ H1), (ascii_of_byte c2 _ H2);
    try (rewrite (ascii_of_byte c3 _ H3); listed).
  assert (nat_of_ascii c3 = 128 ∨ nat_of_ascii c3 = 129 ∨ nat_of_ascii c3 = 130
          ∨ nat_of_ascii c3 = 131 ∨ nat_of_ascii c3 = 132 ∨ nat_of_ascii c3 = 133
          ∨ nat_of_ascii c3 = 134 ∨ nat_of_ascii c3 = 135 ∨ nat_of_ascii c3 = 136
          ∨ nat_of_ascii c3 = 137 ∨ nat_of_ascii c3 = 138 ∨ nat_of_ascii c3 = 168
          ∨ nat_of_ascii c3 = 169 ∨ nat_of_ascii c3 = 175)%nat as Hc by lia.
  clear H3. repeat destruct Hc as [Hc|Hc]; rewrite (ascii_of_byte c3 _ Hc); listed.
Qed.

Lemma trim_one b rest :
  is_space (ascii_of_nat b) = true ->
  trim_is_empty (utf8 [b] ++ rest) = trim_is_empty rest.
Proof.
  intros H. change (trim_is_empty (String (ascii_of_nat b) rest) = trim_is_empty rest).
  cbn [trim_is_empty]. by rewrite H.
Qed.

Lemma trim_two b1 b2 rest :
  is_space (ascii_of_nat b1) = false ->
  is_space2 (ascii_of_nat b1) (ascii_of_nat b2) = true ->
  trim_is_empty (utf8 [b1; b2] ++ rest) = trim_is_empty rest.
Proof.
  intros H1 H2.
  change (trim_is_empty (String (ascii_of_nat b1) (String (ascii_of_nat b2) rest))
          = trim_is_empty rest).
  cbn [trim_is_empty]. by rewrite H1, H2.
Qed.

Lemma trim_three b1 b2 b3 rest :
  is_space (ascii_of_nat b1) = false ->
  is_space2 (ascii_of_nat b1) (ascii_of_nat b2) = false ->
  is_space3 (ascii_of_nat b1) (ascii_of_nat b2) (ascii_of_nat b3) = true ->
  trim_is_empty (utf8 [b1; b2; b3] ++ rest) = trim_is_empty rest.
Proof.
  intros H1 H2 H3.
  change (trim_is_empty
            (String (ascii_of_nat b1) (String (ascii_of_nat b2) (String (ascii_of_nat b3) rest)))
          = trim_is_empty rest).
  cbn [trim_is_empty]. by rewrite H1, H2, H3.
Qed.

Lemma trim_whiteSpace_all :
  Forall (fun part => forall rest, trim_is_empty (part ++ rest) = trim_is_empty rest)
    whiteSpace.
Proof.
  unfold whiteSpace. cbn [fmap list_fmap].
  repeat (constructor;
          [intros rest;
           first [ apply trim_one; vm_compute; reflexivity
                 | apply trim_two; vm_compute; reflexivity
                 | apply trim_three; vm_compute; reflexivity ]|]).
  constructor.
Qed.

Lemma trim_whiteSpace part rest :
  part ∈ whiteSpace -> trim_is_empty (part ++ rest) = trim_is_empty rest.
Proof.
  intros Hin. exact (proj1 (Forall_forall _ _) trim_whiteSpace_all part Hin rest).
Qed.

(** [trim_is_empty] holds of the strings made of white space, and of no
    other. *)
Lemma trim_is_empty_blank (s : string) : trim_is_empty s = true <-> blank s.
Proof.
  split.
  - remember (String.length s) as n eqn:Hn. revert s Hn.
    induction n as [n IH] using lt_wf_ind. intros s -> H.
    destruct s as [|c1 [|c2 [|c3 rest]]]; cbn [trim_is_empty] in H.
    + by exists [].
    + destruct (is_space c1) eqn:E1; [|done].
      exists [String c1 ""]. split; [|done].
      constructor; [by apply is_space_whiteSpace|constructor].
    + destruct (is_space c1) eqn:E1.
      * destruct (IH 1%nat ltac:(simpl; lia) (String c2 "") eq_refl H) as (parts & Hp & Heq).
        exists (String c1 "" :: parts). split; [|simpl; by rewrite <-Heq].
        constructor; [by apply is_space_whiteSpace|done].
      * destruct (is_space2 c1 c2) eqn:E2; [|done].
        exists [String c1 (String c2 "")]. split; [|done].
        constructor; [by apply is_space2_whiteSpace|constructor].
    + destruct (is_space c1) eqn:E1.
      * destruct (IH (String.length (String c2 (String c3 rest))) ltac:(simpl; lia)
                      (String c2 (String c3 rest)) eq_refl H)
          as (parts & Hp & Heq).
        exists (String c1 "" :: parts). split; [|simpl; by rewrite <-Heq].
        constructor; [by apply is_space_whiteSpace|done].
      * destruct (is_space2 c1 c2) eqn:E2.
        -- destruct (IH (String.length (String c3 rest)) ltac:(simpl; lia)
                       (String c3 rest) eq_refl H) as (parts & Hp & Heq).
           exists (String c1 (String c2 "") :: parts). split; [|simpl; by rewrite <-Heq].
           constructor; [by apply is_space2_whiteSpace|done].
        -- apply andb_true_iff in H as [E3 H].
           destruct (IH (String.length rest) ltac:(simpl; lia) rest eq_refl H)
             as (parts & Hp & Heq).
           exists (String c1 (String c2 (String c3 "")) :: parts).
           split; [|simpl; by rewrite <-Heq].
           constructor; [by apply is_space3_whiteSpace|done].
  - intros (parts & Hparts & ->).
    induction Hparts as [|part parts Hpart _ IH]; [done|].
    cbn [foldr]. by rewrite trim_whiteSpace.
Qed.

Lemma not_blank_nonempty (s : string) : ¬ blank s -> s ≠ "".
Proof. intros H ->. apply H. by exists []. Qed.

Lemma nonempty_truthy (s : string) : truthy (JStr s) = true <-> s ≠ "".
Proof. simpl. destruct (String.eqb_spec s ""); split; intros; done. Qed.

Lemma validateLocator_spec (locator : JsVal) (fieldName : string) :
  validateLocator locator fieldName = Ok tt <-> locatorOk locator.
Proof.
  unfold validateLocator, locatorOk. split.
  - intros H.
    destruct (negb (truthy locator) || negb (is_type TObject locator)) eqn:E1; [discriminate|].
    destruct (negb (truthy (field locator "using"))) eqn:E2; [discriminate|].
    destruct (negb (is_type TString (field locator "using"))) eqn:E3; [discriminate|].
    destruct (negb (truthy (field locator "value"))) eqn:E4; [discriminate|].
    destruct (negb (is_type TString (field locator "value"))) eqn:E5; [discriminate|].
    destruct (field locator "using") as [| | | |u| |] eqn:Eu; try discriminate.
    destruct (field locator "value") as [| | | |v| |] eqn:Ev; try discriminate.
    destruct (bool_decide (toLowerCase u ∈ VALID_LOCATOR_STRATEGIES)) eqn:Es; [|discriminate].
    apply bool_decide_eq_true in Es.
    apply negb_false_iff, nonempty_truthy in E2. apply negb_false_iff, nonempty_truthy in E4.
    destruct locator as [| | | | | |fields]; try discriminate.
    exists fields, u, v. done.
  - intros (fields & u & v & -> & Hu & Hv & Hue & Hve & Hs).
    rewrite Hu, Hv. simpl.
    apply nonempty_truthy in Hue, Hve. simpl in Hue, Hve. rewrite Hue, Hve. simpl.
    by rewrite bool_decide_eq_true_2.
Qed.

(** X6.  [validateLocator] accepts a locator exactly when it is an object with
    non-empty string [using] and [value] whose [using], lower-cased, is one
    of the nine strategies; the name of the field only enters the message
    of the error. *)
Theorem validateLocator_accepts_iff (locator : JsVal) (fieldName : string) :
  validateLocator locator fieldName = Ok tt <-> locatorOk locator.
Proof. exact (validateLocator_spec locator fieldName). Qed.

Lemma validateRest_accepts_iff params :
  validateRest params = Ok tt <->
  durationValid (field params "duration")
  ∧ optional isNumber (field params "priority")
  ∧ optional isBoolean (field params "stopOnFound")
  ∧ optional isCooldown (field params "cooldownMs").
Proof.
  unfold validateRest, optional, isNumber, isBoolean, isCooldown, durationValid. split.
  - intros H. case_ifs H. clear H.
    repeat match goal with
           | H : _ || _ = false |- _ => apply orb_false_iff in H as [? ?]
           | H : _ && _ = false |- _ => apply andb_false_iff in H
           end.
    split; [|split; [|split]].
    + destruct (field params "duration"); try discriminate. simpl in *. eexists. split; [done|lia].
    + destruct (field params "priority"); simpl in *; eauto; naive_solver.
    + destruct (field params "stopOnFound"); simpl in *; eauto; naive_solver.
    + destruct (field params "cooldownMs"); simpl in *; eauto; try naive_solver.
      right. eexists. split; [done|]. destruct Heqb4 as [?|?]; [done|lia].
  - intros ((n & -> & Hn) & Hp & Hs & Hc). simpl.
    destruct (Z.leb_spec n 0); [lia|]. destruct (Z.ltb_spec MAX_DURATION_MS n); [lia|].
    assert (negb (nullish (field params "priority")) && negb (is_type TNumber (field params "priority")) = false) as ->.
    { destruct Hp as [->|[? ->]]; done. }
    assert (negb (nullish (field params "stopOnFound")) && negb (is_type TBoolean (field params "stopOnFound")) = false) as ->.
    { destruct Hs as [->|[? ->]]; done. }
    assert (negb (nullish (field params "cooldownMs")) && negb (is_type TNumber (field params "cooldownMs")) = false) as ->.
    { destruct Hc as [->|(? & -> & ?)]; done. }
    assert (negb (nullish (field params "cooldownMs")) && num_lt (field params "cooldownMs") 0 = false) as ->.
    { destruct Hc as [->|(c & -> & ?)]; [done|]. simpl. by destruct (Z.ltb_spec c 0); [lia|]. }
    done.
Qed.

Lemma validateWatcherParams_spec (params : JsVal) :
  validateWatcherParams params = Ok tt <-> paramsOk params.
Proof.
  unfold validateWatcherParams, paramsOk. split.
  - intros H.
    destruct (negb (truthy params) || negb (is_type TObject params)) eqn:E1; [discriminate|].
    destruct (negb (truthy (field params "name"))) eqn:E2; [discriminate|].
    destruct (negb (is_type TString (field params "name"))) eqn:E3; [discriminate|].
    destruct (name_blank (field params "name")) eqn:E4; [discriminate|].
    destruct (negb (truthy (field params "referenceLocator"))) eqn:E5; [discriminate|].
    destruct (validateLocator (field params "referenceLocator") "referenceLocator")
      as [[]|] eqn:E6; [|discriminate].
    destruct (negb (truthy (field params "actionLocator"))) eqn:E7; [discriminate|].
    destruct (validateLocator (field params "actionLocator") "actionLocator")
      as [[]|] eqn:E8; [|discriminate].
    apply validateLocator_spec in E6, E8. apply validateRest_accepts_iff in H.
    split; [|split; [|tauto]].
    + destruct params; try discriminate. eauto.
    + destruct (field params "name") as [| | | |name| |]; try discriminate.
      exists name. split; [done|]. intros Hb%trim_is_empty_blank. simpl in E4. congruence.
  - intros ((fields & ->) & (name & Hname & Hblank) & Href & Hact & Hrest).
    assert (trim_is_empty name = false) as Htrim.
    { destruct (trim_is_empty name) eqn:E; [|done]. by apply trim_is_empty_blank in E. }
    pose proof Href as (? & ? & ? & Hr & _). pose proof Hact as (? & ? & ? & Ha & _).
    apply (validateLocator_spec _ "referenceLocator") in Href.
    apply (validateLocator_spec _ "actionLocator") in Hact.
    rewrite Href, Hact, Hname, Hr, Ha. simpl. rewrite Htrim.
    apply not_blank_nonempty, nonempty_truthy in Hblank. simpl in Hblank. rewrite Hblank.
    simpl. by apply validateRest_accepts_iff.
Qed.

(** X7.  [validateWatcherParams] accepts exactly the objects with a name that is
    a string not made of white space only (the white space of the language,
    the no-break space and the other Unicode spaces included), two
    acceptable locators, a duration that is a number in (0, 60000], and
    optional priority (number), stopOnFound (boolean) and cooldownMs
    (number, not negative). *)
Theorem validateWatcherParams_accepts_iff (params : JsVal) :
  validateWatcherParams params = Ok tt <-> paramsOk params.
Proof. exact (validateWatcherParams_spec params). Qed.

(** A locator with an upper-case strategy is accepted, one with an unknown
    strategy is not. *)
Lemma validateLocator_accepts_iff_witness :
  validateLocator (JObj [("using", JStr "XPath"); ("value", JStr "//button")]) "actionLocator"
  = Ok tt
  ∧ ¬ locatorOk (JObj [("using", JStr "text"); ("value", JStr "OK")]).
Proof.
  split.
  - apply (proj2 (validateLocator_accepts_iff _ "actionLocator")).
    exists [("using", JStr "XPath"); ("value", JStr "//button")], "XPath", "//button".
    repeat split; try done. vm_compute. set_solver.
  - intros H. apply (proj2 (validateLocator_accepts_iff _ "referenceLocator")) in H.
    vm_compute in H. discriminate H.
Defined.

(** The parameters of a registration with duration 30000 are accepted;
    with duration 70000, or with a name that is a no-break space, they are
    not. *)
Lemma validateWatcherParams_accepts_iff_witness :
  paramsOk (Samples.params "cookie" (JNum 30000))
  ∧ ¬ paramsOk (Samples.params "cookie" (JNum 70000))
  ∧ ¬ paramsOk (Samples.params (utf8 [194; 160]%nat) (JNum 30000)).
Proof.
  split; [|split].
  - apply (proj1 (validateWatcherParams_accepts_iff (Samples.params "cookie" (JNum 30000)))).
    vm_compute. reflexivity.
  - intros H.
    apply (proj2 (validateWatcherParams_accepts_iff (Samples.params "cookie" (JNum 70000))))
      in H.
    vm_compute in H. discriminate H.
  - intros H.
    apply (proj2 (validateWatcherParams_accepts_iff
                    (Samples.params (utf8 [194; 160]%nat) (JNum 30000)))) in H.
    vm_compute in H. discriminate H.
Defined.

End ValidatorFacts.

(* ====================================================================== *)
(** * The commands on a registry                                           *)
(* ====================================================================== *)

Module CommandFacts.
Import WatcherStore StoreSpec ValidatorSpec Commands.

(** X8.  A registration ends in one of four ways.  Parameters that the validator
    rejects (a duration above 60000 among them), and a name that is stored,
    fail and leave the registry as it was; a registry with 5 unexpired
    watchers, the constant [MAX_WATCHERS], fails and leaves the registry
    pruned; otherwise
    the registration succeeds, and the response reports the name, the
    priority (0 when absent), the instant of the call as registration time,
    that instant plus the duration as expiry, and the status active. *)
Theorem registerUIWatcher_outcome
    (now : Z) (store : WatcherStore.t) (params : JsVal) :
  namesUnique store ->
  let name := as_string (field params "name") in
  let alive := (getActiveWatchers now store).1 in
  match registerUIWatcher now store params with
  | (Err e, store') =>
      (¬ paramsOk params ∧ store' = store)
      ∨ (paramsOk params ∧ JsMap.has name (watchers store) = true
         ∧ e = duplicateError name ∧ store' = store)
      ∨ (paramsOk params ∧ JsMap.has name (watchers store) = false
         ∧ (MAX_WATCHERS <= length alive)%nat
         ∧ e = capacityError ∧ store' = (getActiveWatchers now store).2)
  | (Ok r, store') =>
      paramsOk params
      ∧ JsMap.has name (watchers store) = false
      ∧ (length alive < MAX_WATCHERS)%nat
      ∧ rw_name r = name
      ∧ rw_priority r = default 0 (opt_number (field params "priority"))
      ∧ rw_registeredAt r = now
      ∧ rw_expiresAt r = now + as_number (field params "duration")
      ∧ rw_status r = active
      ∧ (JsMap.keys (watchers store') = JsMap.keys (watchers (getActiveWatchers now store).2) ++ [name])%list
  end.
Proof.
  intros Hnd name alive. unfold registerUIWatcher.
  destruct (Validators.validateWatcherParams params) as [[]|e] eqn:Hv.
  - apply ValidatorFacts.validateWatcherParams_spec in Hv.
    pose proof (RegistryFacts.add_cases now (asUIWatcher params) store Hnd) as Hadd.
    cbv zeta in Hadd.
    destruct (add now (asUIWatcher params) store) as [[w|e] store'] eqn:Ea.
    + destruct Hadd as (Hhas & Hroom & Hlist & _ & Hname & Hstatus & _ & _ & Hprio & _).
      pose proof (StoreFacts.add_ok_stored _ _ _ _ _ Ea) as (_ & _ & Hdur & Hreg & Hexp).
      split; [exact Hv|]. split; [exact Hhas|]. split; [exact Hroom|].
      cbn [rw_name rw_priority rw_registeredAt rw_expiresAt rw_status].
      split; [exact Hname|]. split; [exact Hprio|]. split; [exact Hreg|].
      split; [by rewrite Hexp, Hreg, Hdur|]. split; [exact Hstatus|].
      unfold add in Ea. rewrite Hhas in Ea.
      pose proof (RegistryFacts.getActiveWatchers_storage now store Hnd) as Hw.
      destruct (getActiveWatchers now store) as [ws s1]. cbn [fst snd] in *.
      destruct (_ <=? _)%nat; [done|]. injection Ea as _ <-. simpl.
      rewrite JsMap_set_fresh.
      * unfold JsMap.keys. rewrite map_app. reflexivity.
      * apply JsMap_get_None_keys. intros [w0 Hin]%RegistryFacts.JsMap_keys_elem.
        rewrite Hw in Hin. apply list_elem_of_filter in Hin as [_ Hin].
        assert (JsMap.get name (watchers store) = None) as Hg.
        { unfold JsMap.has in Hhas. by destruct (JsMap.get _ _). }
        apply JsMap_get_None_keys in Hg. apply Hg, RegistryFacts.JsMap_keys_elem. eauto.
    + destruct Hadd as [(? & ? & ?)|(? & ? & ? & ?)]; [right; left|right; right]; done.
  - left. split; [|done]. intros Hok.
    apply ValidatorFacts.validateWatcherParams_spec in Hok. congruence.
Qed.

(** A registration in the empty registry, the same registration again, and
    one with a duration above the maximum. *)
Lemma registerUIWatcher_outcome_witness :
  (exists r,
      (registerUIWatcher 500 WatcherStore.new
         (Samples.params "cookie" (JNum 30000))).1 = Ok r
      ∧ rw_expiresAt r = 30500)
  ∧ registerUIWatcher 600 Samples.cookieStore
      (Samples.params "cookie" (JNum 30000))
    = (Err (duplicateError "cookie"), Samples.cookieStore).
Proof.
  split.
  - pose proof (registerUIWatcher_outcome 500 WatcherStore.new
                  (Samples.params "cookie" (JNum 30000)) ltac:(constructor)) as H.
    cbv zeta in H.
    destruct (registerUIWatcher 500 WatcherStore.new
                (Samples.params "cookie" (JNum 30000))) as [[r|e] store'] eqn:E;
      [|vm_compute in E; discriminate E].
    exists r. split; [done|]. by destruct H as (_ & _ & _ & _ & _ & _ & -> & _).
  - assert (namesUnique Samples.cookieStore) as Hnd.
    { unfold namesUnique. vm_compute. repeat constructor; set_solver. }
    pose proof (registerUIWatcher_outcome 600 Samples.cookieStore
                  (Samples.params "cookie" (JNum 30000)) Hnd) as H.
    cbv zeta in H.
    destruct (registerUIWatcher 600 Samples.cookieStore
                (Samples.params "cookie" (JNum 30000))) as [[r|e] store'] eqn:E;
      [vm_compute in E; discriminate E|].
    destruct H as [(Hbad & _)|[(_ & _ & -> & ->)|(_ & Hhas & _)]].
    + exfalso. apply Hbad. apply ValidatorFacts.validateWatcherParams_spec.
      vm_compute. reflexivity.
    + done.
    + vm_compute in Hhas. discriminate Hhas.
Defined.

(** X9.  [unregisterUIWatcher] succeeds exactly for a non-empty string that names
    a stored watcher, expired or not; it then removes that watcher and no
    other.  Every failure leaves the registry as it was. *)
Theorem unregisterUIWatcher_outcome (store : WatcherStore.t) (name : JsVal) :
  namesUnique store ->
  match unregisterUIWatcher store name with
  | (Ok removed, store') =>
      name = JStr removed ∧ removed ≠ ""
      ∧ is_Some (get removed store)
      ∧ get removed store' = None
      ∧ (forall other, other ≠ removed -> get other store' = get other store)
  | (Err e, store') =>
      store' = store
      ∧ ((forall n, name = JStr n -> n = "") ∧ e = newError "UIWatcher name is required"
         ∨ exists n, name = JStr n ∧ n ≠ "" ∧ get n store = None
                     ∧ e = newError ("UIWatcher '" ++ n ++ "' not found"))
  end.
Proof.
  intros Hnd. unfold unregisterUIWatcher.
  destruct name as [| | | |n| |]; try (split; [done|left; split; [by intros ? [=]|done]]).
  destruct (String.eqb_spec n "") as [->|Hne].
  - split; [done|]. left. split; [by intros ? [= <-]|done].
  - destruct (get n store) as [w|] eqn:Hg.
    + destruct (RegistryFacts.remove_lookup store n Hnd) as (_ & Hgone & Hother & _).
      repeat split; eauto.
    + split; [done|]. right. exists n. done.
Qed.

Lemma unregisterUIWatcher_outcome_witness :
  (unregisterUIWatcher Samples.threeStore (JStr "low")).1 = Ok "low"
  ∧ get "low" (unregisterUIWatcher Samples.threeStore (JStr "low")).2 = None
  ∧ unregisterUIWatcher Samples.threeStore JNull
    = (Err (newError "UIWatcher name is required"), Samples.threeStore).
Proof.
  assert (namesUnique Samples.threeStore) as Hnd.
  { unfold namesUnique. vm_compute. repeat constructor; set_solver. }
  pose proof (unregisterUIWatcher_outcome Samples.threeStore (JStr "low") Hnd) as H.
  destruct (unregisterUIWatcher Samples.threeStore (JStr "low")) as [[removed|e] store'] eqn:E;
    [|vm_compute in E; discriminate E].
  destruct H as (Hname & _ & _ & Hgone & _). injection Hname as <-.
  split; [done|]. split; [exact Hgone|]. vm_compute. reflexivity.
Defined.

End CommandFacts.

(* ====================================================================== *)
(** * More on the element cache                                            *)
(* ====================================================================== *)

Module CacheMoreFacts.
Import ElementReferenceCache CacheSpec MappingSpec MappingSpec2.

Lemma config_evictLoop fuel c c' : evictLoop fuel c = Some c' -> config c' = config c.
Proof.
  revert c. induction fuel as [|fuel IH]; intros c; simpl.
  - destruct (_ <=? _)%nat; [done|]. by intros [= <-].
  - destruct (_ <=? _)%nat; [|by intros [= <-]].
    intros H. rewrite (IH _ H). apply CacheFacts.config_evictLRU.
Qed.

Lemma config_addToCache elementId ref c c' :
  addToCache elementId ref c = Some c' -> config c' = config c.
Proof.
  unfold addToCache. destruct (evictLoop _ c) as [c1|] eqn:E; [|done].
  intros [= <-]. simpl. by eapply config_evictLoop.
Qed.

Lemma addToCache_lookup elementId ref c c' :
  addToCache elementId ref c = Some c' -> cache c' !! elementId = Some ref.
Proof.
  unfold addToCache. destruct (evictLoop _ c) as [c1|]; [|done].
  intros [= <-]. simpl. apply lookup_insert_eq.
Qed.

(** ** A cached element is found until its time to live has passed *)

(** X10.  After [cacheElement] at instant [t0], [getRef] returns the locator, with
    the source findElement and the instant [t0], as long as less than the
    time to live has passed.  From then on [getRef] returns nothing and
    removes the entry, also without a call of [cleanup]. *)
Theorem cacheElement_then_getRef
    (t0 : Z) (elementId using_ value : string) (c c' : t) :
  cacheElement t0 elementId using_ value c = Some c' ->
  (forall now, now - t0 < elementTtlMs (config c) ->
     (getRef now elementId c').1 = Some (mkRef using_ value FromFindElement t0)
     ∧ cache (getRef now elementId c').2 = cache c')
  ∧ (forall now, elementTtlMs (config c) <= now - t0 ->
       (getRef now elementId c').1 = None
       ∧ cache (getRef now elementId c').2 = delete elementId (cache c')).
Proof.
  unfold cacheElement. intros Hadd.
  pose proof (config_addToCache _ _ _ _ Hadd) as Hcfg.
  pose proof (addToCache_lookup _ _ _ _ Hadd) as Hlook.
  split; intros now Hnow; unfold getRef, isExpired; rewrite Hlook, Hcfg; simpl.
  - by destruct (Z.leb_spec (elementTtlMs (config c)) (now - t0)); [lia|].
  - by destruct (Z.leb_spec (elementTtlMs (config c)) (now - t0)); [|lia].
Qed.

Lemma cacheElement_then_getRef_witness :
  (getRef 60002 "elem-3" Samples.smallCache).1
  = Some (mkRef "id" "btn3" FromFindElement 3)
  ∧ (getRef 60003 "elem-3" Samples.smallCache).1 = None.
Proof.
  assert (cacheElement 3 "elem-3" "id" "btn3" Samples.smallCache2 = Some Samples.smallCache)
    as Hadd by (vm_compute; reflexivity).
  destruct (cacheElement_then_getRef 3 "elem-3" "id" "btn3" _ _ Hadd) as [Hlive Hdead].
  split.
  - apply Hlive. vm_compute. reflexivity.
  - apply Hdead. vm_compute. discriminate.
Defined.

(** ** The cache never exceeds its capacity, and insertion ends *)

Lemma evictLoop_below fuel c c' :
  evictLoop fuel c = Some c' ->
  (base.size (cache c') < maxCacheEntries (config c))%nat.
Proof.
  revert c. induction fuel as [|fuel IH]; intros c; simpl.
  - destruct (Nat.leb_spec (maxCacheEntries (config c)) (base.size (cache c))); [done|].
    by intros [= <-].
  - destruct (Nat.leb_spec (maxCacheEntries (config c)) (base.size (cache c)));
      [|by intros [= <-]].
    intros Hev. apply IH in Hev. by rewrite CacheFacts.config_evictLRU in Hev.
Qed.

Lemma evictLoop_ends fuel c :
  cacheInv c -> (0 < maxCacheEntries (config c))%nat ->
  (length (accessOrder c) <= fuel)%nat -> is_Some (evictLoop fuel c).
Proof.
  revert c. induction fuel as [|fuel IH]; intros c Hc Hmax Hlen;
    pose proof (CacheFacts.cacheInv_size c Hc) as Hsize; simpl;
    destruct (Nat.leb_spec (maxCacheEntries (config c)) (base.size (cache c))); eauto; try lia.
  apply IH.
  - by apply CacheFacts.cacheInv_evictLRU.
  - by rewrite CacheFacts.config_evictLRU.
  - unfold evictLRU. destruct (accessOrder c) as [|x rest]; [simpl in *; lia|].
    destruct (String.eqb x ""); simpl in *; lia.
Qed.

Lemma addToCache_size elementId ref c c' :
  addToCache elementId ref c = Some c' ->
  (base.size (cache c') <= maxCacheEntries (config c))%nat.
Proof.
  unfold addToCache. destruct (evictLoop _ c) as [c1|] eqn:E; [|done].
  intros [= <-]. simpl. apply evictLoop_below in E.
  rewrite map_size_insert. destruct (cache c1 !! elementId); simpl; lia.
Qed.

Lemma cacheElementsFrom_size i now elements using_ value c c' :
  (base.size (cache c) <= maxCacheEntries (config c))%nat ->
  cacheElementsFrom i now elements using_ value c = Some c' ->
  (base.size (cache c') <= maxCacheEntries (config c'))%nat ∧ config c' = config c.
Proof.
  revert i c. induction elements as [|element rest IH]; intros i c Hc;
    cbn [cacheElementsFrom].
  - by intros [= <-].
  - destruct (Utils.extractElementId element);
      [|intros Hrest; exact (IH _ _ Hc Hrest)].
    destruct (addToCache _ _ c) as [c1|] eqn:Ea; [|done].
    pose proof (config_addToCache _ _ _ _ Ea) as Hcfg.
    pose proof (addToCache_size _ _ _ _ Ea) as Hsz. rewrite <-Hcfg in Hsz.
    intros Hrest. destruct (IH _ _ Hsz Hrest) as [Hs' Hc']. split; [done|congruence].
Qed.

Lemma foldl_removeFromCache_size (l : list string) c :
  (base.size (cache (foldl (fun acc elementId => removeFromCache elementId acc) c l))
   <= base.size (cache c))%nat
  ∧ config (foldl (fun acc elementId => removeFromCache elementId acc) c l) = config c.
Proof.
  revert c. induction l as [|x l IH]; intros c; simpl; [done|].
  destruct (IH (removeFromCache x c)) as [Hs ->]. split; [|done].
  etrans; [exact Hs|]. simpl. rewrite map_size_delete.
  destruct (cache c !! x); simpl; lia.
Qed.

Lemma setMapping_cache oldId newId c :
  cache (setMapping oldId newId c) = cache c ∧ config (setMapping oldId newId c) = config c.
Proof.
  assert (forall l c0, cache (foldl (repoint newId) c0 l) = cache c0
                       ∧ config (foldl (repoint newId) c0 l) = config c0) as Hf.
  { induction l as [|x l IH]; intros c0; simpl; [done|].
    by rewrite !(proj1 (IH _)), !(proj2 (IH _)). }
  unfold setMapping. destruct (reverseIndex c !! oldId); simpl; [|done].
  by rewrite !(proj1 (Hf _ _)), !(proj2 (Hf _ _)).
Qed.

Lemma reachable_bounded cfg c :
  reachable cfg c ->
  config c = config (new cfg)
  ∧ (base.size (cache c) <= maxCacheEntries (config c))%nat.
Proof.
  induction 1 as [|now elementId using_ value c c' _ [IHc IHs] Hne Hadd
                  |now elements using_ value c c' _ [IHc IHs] Hadd
                  |now elementId c _ [IHc IHs]|oldId newId c _ [IHc IHs]
                  |now c _ [IHc IHs]|c _ [IHc IHs]].
  - split; [done|]. simpl. rewrite map_size_empty. lia.
  - unfold cacheElement in Hadd. pose proof (config_addToCache _ _ _ _ Hadd) as Hcfg.
    split; [by rewrite Hcfg|]. rewrite Hcfg. by eapply addToCache_size.
  - destruct (cacheElementsFrom_size _ _ _ _ _ _ _ IHs Hadd) as [? Hcfg].
    split; [by rewrite Hcfg|done].
  - unfold getRef. destruct (cache c !! elementId) as [ref|] eqn:E; [|done].
    destruct (isExpired now ref c); simpl; [|done].
    split; [done|]. rewrite map_size_delete, E. simpl. lia.
  - destruct (setMapping_cache oldId newId c) as [-> ->]. done.
  - unfold cleanup. destruct (foldl_removeFromCache_size
      (map_to_list (filter (fun e => elementTtlMs (config c) <= now - createdAt e.2) (cache c))).*1 c)
      as [Hs Hc].
    rewrite Hc. split; [done|]. lia.
  - split; [done|]. simpl. rewrite map_size_empty. lia.
Qed.

(** X11.  Take a cache in a state that the plugin can produce: from a new
    cache by [cacheElement] under identifiers that are not empty (the
    plugin caches under what [extractElementId] returns, which is never
    empty), [cacheElements], [getRef], [setMapping], [cleanup] and
    [clear].  When the configured capacity is at least one, the cache holds
    at most that many entries, and an insertion ends, after finitely many
    evictions, in a state that holds the inserted entry and respects the
    capacity. *)
Theorem cache_stays_within_capacity
    (cfg : PluginConfig.t) (c : t) (now : Z) (elementId using_ value : string) :
  reachable cfg c ->
  (0 < PluginConfig.maxCacheEntries cfg)%nat ->
  (size c <= PluginConfig.maxCacheEntries cfg)%nat
  ∧ exists c',
      cacheElement now elementId using_ value c = Some c'
      ∧ (getRef now elementId c').1 = (if decide (0 < elementTtlMs (config c))
                                       then Some (mkRef using_ value FromFindElement now)
                                       else None)
      ∧ (size c' <= PluginConfig.maxCacheEntries cfg)%nat.
Proof.
  intros Hreach Hmax. destruct (reachable_bounded cfg c Hreach) as [Hcfg Hsize].
  pose proof (CacheFacts.reachable_cacheInv cfg c Hreach) as Hinv.
  assert (maxCacheEntries (config c) = PluginConfig.maxCacheEntries cfg) as Hm
    by (by rewrite Hcfg).
  split; [unfold size; lia|].
  destruct (evictLoop_ends (S (length (accessOrder c))) c Hinv) as [c1 Hc1]; [lia|lia|].
  assert (exists c', cacheElement now elementId using_ value c = Some c') as [c' Hadd].
  { unfold cacheElement, addToCache. rewrite Hc1. eauto. }
  exists c'. split; [done|]. split.
  - pose proof (addToCache_lookup _ _ _ _ Hadd) as Hlook.
    unfold getRef, isExpired. rewrite Hlook, (config_addToCache _ _ _ _ Hadd).
    cbn [createdAt]. replace (now - now) with 0 by lia.
    case_decide; destruct (Z.leb_spec (elementTtlMs (config c)) 0); done || lia.
  - unfold size. rewrite <-Hm. by eapply addToCache_size.
Qed.

Lemma cache_stays_within_capacity_witness :
  (size Samples.smallCache <= 3)%nat
  ∧ exists c',
      cacheElement 5 "elem-4" "id" "btn4" Samples.smallCache = Some c'
      ∧ (size c' <= 3)%nat.
Proof.
  destruct (cache_stays_within_capacity Samples.smallConfig Samples.smallCache 5
              "elem-4" "id" "btn4" CacheFacts.smallCache_reachable)
    as [Hsize (c' & Hadd & _ & Hsize')]; [vm_compute; lia|].
  split; [exact Hsize|]. exists c'. split; [exact Hadd|exact Hsize'].
Defined.

(** ** A capacity of zero *)

(** X12.  With a configured capacity of zero no insertion ends: the eviction loop
    of [addToCache] runs for ever, whatever the state and the fuel. *)
Theorem zero_capacity_insertion_never_ends
    (c : t) (now : Z) (elementId using_ value : string) :
  maxCacheEntries (config c) = 0%nat ->
  (forall fuel, evictLoop fuel c = None)
  ∧ cacheElement now elementId using_ value c = None.
Proof.
  intros Hzero.
  assert (forall fuel c0, maxCacheEntries (config c0) = 0%nat -> evictLoop fuel c0 = None) as H.
  { induction fuel as [|fuel IH]; intros c0 H0; simpl; rewrite H0; simpl; [done|].
    apply IH. by rewrite CacheFacts.config_evictLRU. }
  split; [intros fuel; by apply H|].
  unfold cacheElement, addToCache. by rewrite H.
Qed.

Lemma zero_capacity_insertion_never_ends_witness :
  cacheElement 1 "elem-1" "id" "btn1" (new (PluginConfig.mk 5 60000 0 60000)) = None.
Proof.
  apply (zero_capacity_insertion_never_ends (new (PluginConfig.mk 5 60000 0 60000))).
  reflexivity.
Defined.

(** ** [cleanup] *)

Lemma foldl_removeFromCache_lookup (l : list string) c elementId :
  cache (foldl (fun acc x => removeFromCache x acc) c l) !! elementId
  = if decide (elementId ∈ l) then None else cache c !! elementId.
Proof.
  revert c. induction l as [|x l IH]; intros c; cbn [foldl].
  - destruct (decide (elementId ∈ [])) as [H|_]; [by apply elem_of_nil in H|done].
  - rewrite IH. simpl. destruct (decide (elementId ∈ l)) as [Hl|Hl].
    + destruct (decide (elementId ∈ x :: l)) as [|Hn]; [done|].
      exfalso. apply Hn. by apply list_elem_of_further.
    + destruct (decide (elementId = x)) as [->|Hx].
      * rewrite lookup_delete_eq.
        destruct (decide (x ∈ x :: l)) as [|Hn]; [done|]. exfalso. apply Hn, list_elem_of_here.
      * rewrite lookup_delete_ne by done.
        destruct (decide (elementId ∈ x :: l)) as [Hin|]; [|done].
        apply elem_of_cons in Hin as [?|?]; done.
Qed.

Lemma foldl_removeFromCache_mappings (l : list string) c :
  idMappings (foldl (fun acc x => removeFromCache x acc) c l) = idMappings c
  ∧ reverseIndex (foldl (fun acc x => removeFromCache x acc) c l) = reverseIndex c.
Proof.
  revert c. induction l as [|x l IH]; intros c; simpl; [done|].
  by destruct (IH (removeFromCache x c)) as [-> ->].
Qed.

(** X13.  [cleanup] removes exactly the entries whose age has reached the time to
    live: such an entry is gone, every other entry is kept as it is, and the
    identifier mappings are not touched. *)
Theorem cleanup_removes_exactly_the_expired (now : Z) (c : t) (elementId : string) :
  cache (cleanup now c) !! elementId
  = match cache c !! elementId with
    | Some ref => if isExpired now ref c then None else Some ref
    | None => None
    end
  ∧ idMappings (cleanup now c) = idMappings c
  ∧ config (cleanup now c) = config c.
Proof.
  unfold cleanup. split; [|split].
  - rewrite foldl_removeFromCache_lookup. unfold isExpired.
    destruct (cache c !! elementId) as [ref|] eqn:E.
    + destruct (Z.leb_spec (elementTtlMs (config c)) (now - createdAt ref)) as [Hold|Hnew].
      * rewrite decide_True; [done|]. apply list_elem_of_fmap.
        exists (elementId, ref). split; [done|]. apply elem_of_map_to_list.
        apply map_lookup_filter_Some. done.
      * rewrite decide_False; [done|]. intros [[k r] [-> Hin]]%list_elem_of_fmap.
        apply elem_of_map_to_list, map_lookup_filter_Some in Hin as [Hk Hexp].
        simpl in *. rewrite E in Hk. injection Hk as <-. lia.
    + rewrite decide_False; [done|]. intros [[k r] [-> Hin]]%list_elem_of_fmap.
      apply elem_of_map_to_list, map_lookup_filter_Some in Hin as [Hk _].
      simpl in *. congruence.
  - apply foldl_removeFromCache_mappings.
  - apply foldl_removeFromCache_size.
Qed.

End CacheMoreFacts.

(* ====================================================================== *)
(** * More on the identifier mappings                                      *)
(* ====================================================================== *)

Module MappingMoreFacts.
Import ElementReferenceCache MappingSpec MappingSpec2.

(** A call that does not map an identifier to itself keeps the reverse
    index complete. *)
Lemma indexed_setMapping oldId newId c :
  indexed c -> oldId ≠ newId -> indexed (setMapping oldId newId c).
Proof.
  unfold indexed. intros Hidx Hne s t.
  rewrite MappingFacts.setMapping_mappings, MappingFacts.setMapping_pointers by done.
  destruct (decide (s = oldId ∨ s ∈ pointers c oldId)) as [Hs|Hs].
  - intros [= <-]. rewrite decide_True by done. set_solver.
  - intros Hst. pose proof (Hidx _ _ Hst) as Hin.
    destruct (decide (t = newId)) as [->|Hn]; [set_solver|].
    destruct (decide (t = oldId)) as [->|Ho]; [|done].
    exfalso. apply Hs. by right.
Qed.

Lemma indexed_remap calls c : indexed c -> nonSelf calls -> indexed (remap calls c).
Proof.
  unfold remap, nonSelf. revert c.
  induction calls as [|[oldId newId] rest IH]; intros c Hc Hcalls; simpl; [done|].
  apply Forall_cons in Hcalls as [Hne Hrest]. apply IH; [|done].
  by apply indexed_setMapping.
Qed.

(** X14.  The transitive update.  In a cache whose mappings were all made by
    [setMapping], none of them of an identifier to itself, a further call
    [setMapping oldId newId] maps [oldId] and every identifier that was
    mapped to [oldId] to [newId]. *)
Theorem setMapping_moves_every_source
    (cfg : PluginConfig.t) (calls : list (string * string)) (oldId newId source : string) :
  nonSelf calls ->
  let c := remap calls (new cfg) in
  source = oldId ∨ getMappedId source c = Some oldId ->
  getMappedId source (setMapping oldId newId c) = Some newId.
Proof.
  intros Hcalls c Hsource. unfold getMappedId.
  rewrite MappingFacts.setMapping_mappings. rewrite decide_True; [done|].
  destruct Hsource as [->|Hmapped]; [by left|right].
  assert (indexed c) as Hidx.
  { apply indexed_remap; [|done]. intros s t. simpl. by rewrite lookup_empty. }
  by apply Hidx.
Qed.

Lemma setMapping_moves_every_source_witness :
  getMappedId "abc"
    (setMapping "efg" "hij" (setMapping "abc" "efg" (new DefaultPluginConfig)))
  = Some "hij".
Proof.
  apply (setMapping_moves_every_source DefaultPluginConfig [("abc", "efg")] "efg" "hij" "abc").
  - repeat constructor. simpl. discriminate.
  - right. vm_compute. reflexivity.
Defined.

(** X15.  The reverse index keeps a source in the set of its former target.  When
    [source] is mapped first to [target] and then to [target'], a later
    mapping of the former target [target] moves [source] as well, away from
    [target']. *)
Theorem remapped_source_follows_its_former_target
    (c : t) (source target target' later : string) :
  source ≠ target -> source ≠ target' -> target ≠ target' ->
  let c2 := setMapping source target' (setMapping source target c) in
  getMappedId source c2 = Some target'
  ∧ getMappedId source (setMapping target later c2) = Some later.
Proof.
  intros Hst Hst' Htt' c2. unfold getMappedId. split.
  - subst c2. rewrite MappingFacts.setMapping_mappings. rewrite decide_True; [done|by left].
  - rewrite MappingFacts.setMapping_mappings. rewrite decide_True; [done|]. right.
    subst c2. rewrite MappingFacts.setMapping_pointers by done.
    rewrite decide_False by done. rewrite decide_False by done.
    rewrite MappingFacts.setMapping_pointers by done.
    rewrite decide_True by done. set_solver.
Qed.

Lemma remapped_source_follows_its_former_target_witness :
  getMappedId "a"
    (setMapping "b" "d" (setMapping "a" "c" (setMapping "a" "b" (new DefaultPluginConfig))))
  = Some "d".
Proof.
  apply (remapped_source_follows_its_former_target (new DefaultPluginConfig) "a" "b" "c" "d");
    discriminate.
Defined.

End MappingMoreFacts.

(* ====================================================================== *)
(** * Element identifiers and the positions of [cacheElements]             *)
(* ====================================================================== *)

Module ElementIdFacts.
Import ElementReferenceCache.

(** X16.  [extractElementId] never returns the empty string.  A string is its own
    identifier; of an object the W3C property is taken when it holds a
    non-empty string, and the property ELEMENT otherwise; any other value
    has no identifier. *)
Theorem extractElementId_result (element : JsVal) (elementId : string) :
  Utils.extractElementId element = Some elementId <->
  elementId ≠ ""
  ∧ (element = JStr elementId
     ∨ (exists fields, element = JObj fields)
       ∧ (field element Utils.W3C_ELEMENT_KEY = JStr elementId
          ∨ Utils.truthy_string (field element Utils.W3C_ELEMENT_KEY) = None
            ∧ field element "ELEMENT" = JStr elementId)).
Proof.
  assert (forall v s, Utils.truthy_string v = Some s <-> s ≠ "" ∧ v = JStr s) as Hts.
  { intros v s. unfold Utils.truthy_string. destruct v; try (split; [done|by intros [_ ?]]).
    destruct (String.eqb_spec s0 "") as [->|Hne].
    - split; [done|]. by intros [? [= <-]].
    - split; [by intros [= <-]|]. by intros [_ [= <-]]. }
  split.
  - intros H. split; [by eapply CacheFacts.extractElementId_nonempty|].
    unfold Utils.extractElementId in H. destruct (truthy element); simpl in H; [|done].
    destruct element as [| |b|n|s|items|fields]; simpl in H; try done.
    + left. congruence.
    + right. split; [eauto|]. simpl.
      destruct (Utils.truthy_string
                  (default JUndefined (assoc Utils.W3C_ELEMENT_KEY fields))) eqn:E.
      * injection H as <-. apply Hts in E as [_ E]. by left.
      * apply Hts in H as [_ H]. by right.
  - intros [Hne [->|[[fields ->] [Hw|[Hw He]]]]]; unfold Utils.extractElementId; simpl.
    + destruct (String.eqb_spec elementId ""); done.
    + simpl in Hw. rewrite Hw. simpl. by destruct (String.eqb_spec elementId "").
    + simpl in Hw, He. rewrite Hw, He. simpl. by destruct (String.eqb_spec elementId "").
Qed.

Lemma extractElementId_result_witness :
  Utils.extractElementId
    (JObj [(Utils.W3C_ELEMENT_KEY, JStr "w3c-1"); ("ELEMENT", JStr "old-1")])
  = Some "w3c-1".
Proof.
  apply (proj2 (extractElementId_result _ "w3c-1")).
  split; [done|]. right. split; [eauto|]. left. reflexivity.
Defined.

Lemma cacheElementsFrom_app i now (l1 l2 : list JsVal) using_ value c :
  cacheElementsFrom i now (l1 ++ l2)%list using_ value c
  = match cacheElementsFrom i now l1 using_ value c with
    | Some c1 => cacheElementsFrom (i + length l1) now l2 using_ value c1
    | None => None
    end.
Proof.
  revert i c. induction l1 as [|element rest IH]; intros i c; cbn [cacheElementsFrom app length].
  - by rewrite Nat.add_0_r.
  - replace (i + S (length rest))%nat with (S i + length rest)%nat by lia.
    destruct (Utils.extractElementId element); [|apply IH].
    destruct (addToCache _ _ c); [apply IH|done].
Qed.

(** X17.  [cacheElements] stores every element under its position in the array,
    elements without an identifier counted: after the call the last element
    of the array is cached with the locator, the instant of the call and
    the number of elements that stand before it. *)
Theorem cacheElements_records_the_position
    (now : Z) (before : list JsVal) (element : JsVal) (using_ value elementId : string)
    (c c' : t) :
  cacheElements now (before ++ [element])%list using_ value c = Some c' ->
  Utils.extractElementId element = Some elementId ->
  cache c' !! elementId
  = Some (mkRef using_ value (FromFindElements (length before)) now).
Proof.
  unfold cacheElements. rewrite cacheElementsFrom_app.
  destruct (cacheElementsFrom 0 now before using_ value c) as [c1|]; [|done].
  cbn [cacheElementsFrom]. intros Hadd Hid. rewrite Hid in Hadd. simpl in Hadd.
  destruct (addToCache _ _ c1) as [c2|] eqn:E; [|done]. injection Hadd as <-.
  by apply CacheMoreFacts.addToCache_lookup in E.
Qed.

Lemma cacheElements_records_the_position_witness :
  exists c',
    cacheElements 7 [JNull; Samples.element "elem-9"] "xpath" "//button"
      (new DefaultPluginConfig) = Some c'
    ∧ cache c' !! "elem-9" = Some (mkRef "xpath" "//button" (FromFindElements 1) 7).
Proof.
  destruct (cacheElements 7 [JNull; Samples.element "elem-9"] "xpath" "//button"
              (new DefaultPluginConfig)) as [c'|] eqn:E; [|vm_compute in E; discriminate E].
  exists c'. split; [reflexivity|].
  apply (cacheElements_records_the_position 7 [JNull] (Samples.element "elem-9")
           "xpath" "//button" "elem-9" (new DefaultPluginConfig) c' E).
  vm_compute. reflexivity.
Defined.

End ElementIdFacts.

(* ====================================================================== *)
(** * More on the matching engine                                          *)
(* ====================================================================== *)

Module PassFacts.
Import WatcherStore StoreSpec CheckerSpec.

Section Generic.
Context {World : Type} (driver : Driver.t World).

Lemma record_trace ev (r : World -> result JsVal * World) e res e' :
  Env.record ev r e = (res, e') -> Env.trace e' = (Env.trace e ++ [ev])%list.
Proof.
  unfold Env.record. destruct (r (Env.world e)). by intros [= <- <-].
Qed.

Lemma passEvent_mono ws ws' ev :
  (forall w, w ∈ ws -> w ∈ ws') -> passEvent ws ev -> passEvent ws' ev.
Proof.
  intros Hsub. destruct ev; simpl; try done.
  - intros (w & Hw & H). eauto.
  - intros (w & Hw & H). eauto.
Qed.

(** One iteration either leaves flag and registry alone and waits for
    nothing, or it has clicked, sets the flag and counts the dismissal. *)
Ltac quiet := repeat (constructor; [simpl; tauto|]); constructor.

Lemma checkWatcher_cases x b s e :
  exists evs,
    Env.trace (Checker.checkWatcher driver x (b, s, e)).2 = (Env.trace e ++ evs)%list
    ∧ Forall (passEvent [x]) evs
    ∧ (length evs <= 4)%nat
    ∧ (((Checker.checkWatcher driver x (b, s, e)).1 = (b, s)
        ∧ Forall (fun ev => ¬ isSleep ev) evs)
       ∨ ((Checker.checkWatcher driver x (b, s, e)).1.1 = true
          ∧ WatcherState.status x ≠ inactive
          ∧ (exists target, EvCommand "click" [target] ∈ evs)
          ∧ exists now,
              (Checker.checkWatcher driver x (b, s, e)).1.2
              = (if WatcherState.stopOnFound x
                 then markInactive (WatcherState.name x)
                        (incrementTriggerCount now (WatcherState.name x) s)
                 else incrementTriggerCount now (WatcherState.name x) s))).
Proof.
  assert (passEvent [x] (EvFindElement (loc_using (WatcherState.referenceLocator x))
                           (loc_value (WatcherState.referenceLocator x)))) as Href.
  { exists x. split; [apply list_elem_of_here|]. left. by destruct (WatcherState.referenceLocator x). }
  assert (passEvent [x] (EvFindElement (loc_using (WatcherState.actionLocator x))
                           (loc_value (WatcherState.actionLocator x)))) as Hact.
  { exists x. split; [apply list_elem_of_here|]. right. by destruct (WatcherState.actionLocator x). }
  unfold Checker.checkWatcher.
  destruct (decide (WatcherState.status x = inactive)) as [Hin|Hactive].
  { exists []. simpl. rewrite app_nil_r. repeat split; try done; try lia. left. done. }
  destruct (Env.findElement driver _ _ e) as [[found|err] e1] eqn:E1;
    unfold Env.findElement in E1; apply record_trace in E1.
  2:{ eexists [_]. simpl. split; [exact E1|]. split; [by repeat constructor|].
      split; [lia|]. left. split; [done|]. quiet. }
  destruct (Env.findElement driver _ _ e1) as [[actionElement|err] e2] eqn:E2;
    unfold Env.findElement in E2; apply record_trace in E2.
  2:{ eexists [_; _]. simpl. split; [by rewrite E2, E1, <-app_assoc|].
      split; [by repeat constructor|]. split; [lia|]. left. split; [done|]. quiet. }
  destruct (Checker.clickTarget actionElement) as [target|].
  2:{ eexists [_; _]. simpl. split; [by rewrite E2, E1, <-app_assoc|].
      split; [by repeat constructor|]. split; [lia|]. left. split; [done|]. quiet. }
  destruct (Env.command driver "click" [target] e2) as [[clicked|err] e3] eqn:E3;
    unfold Env.command in E3; apply record_trace in E3.
  2:{ eexists [_; _; _]. simpl. split; [by rewrite E3, E2, E1, <-!app_assoc|].
      split; [by repeat constructor|]. split; [lia|]. left. split; [done|]. quiet. }
  destruct (Z.ltb_spec 0 (WatcherState.cooldownMs x)) as [Hcool|Hcool].
  - eexists [_; _; _; _]. cbn [fst snd Env.wait Env.trace].
    split; [by rewrite E3, E2, E1, <-!app_assoc|].
    split. { repeat constructor; try done. exists x. split; [apply list_elem_of_here|done]. }
    split; [simpl; lia|]. right. split; [done|]. split; [done|]. split.
    + exists target. set_solver.
    + eexists. reflexivity.
  - eexists [_; _; _]. cbn [fst snd].
    split; [by rewrite E3, E2, E1, <-!app_assoc|].
    split; [by repeat constructor|].
    split; [simpl; lia|]. right. split; [done|]. split; [done|]. split.
    + exists target. set_solver.
    + eexists. reflexivity.
Qed.

Lemma checkLoop_events ws p :
  exists evs,
    Env.trace (Checker.checkLoop driver ws p).2 = (Env.trace p.2 ++ evs)%list
    ∧ Forall (passEvent ws) evs
    ∧ (length evs <= 4 * length ws)%nat.
Proof.
  revert p. induction ws as [|x rest IH]; intros p; cbn [Checker.checkLoop].
  - exists []. by rewrite app_nil_r.
  - destruct p as [[b s] e].
    destruct (checkWatcher_cases x b s e) as (evs1 & Ht1 & Hev1 & Hlen1 & _).
    destruct (IH (Checker.checkWatcher driver x (b, s, e))) as (evs2 & Ht2 & Hev2 & Hlen2).
    exists (evs1 ++ evs2)%list. split; [by rewrite Ht2, Ht1, app_assoc|]. split.
    + apply Forall_app. split.
      * eapply Forall_impl; [exact Hev1|]. intros ev. apply passEvent_mono.
        intros w ->%list_elem_of_singleton. apply list_elem_of_here.
      * eapply Forall_impl; [exact Hev2|]. intros ev. apply passEvent_mono.
        intros w Hw. by apply list_elem_of_further.
    + rewrite length_app. simpl. lia.
Qed.

Lemma checkLoop_flag ws b s e :
  exists evs,
    Env.trace (Checker.checkLoop driver ws (b, s, e)).2 = (Env.trace e ++ evs)%list
    ∧ if (Checker.checkLoop driver ws (b, s, e)).1.1
      then b = true ∨ exists target, EvCommand "click" [target] ∈ evs
      else b = false
           ∧ (Checker.checkLoop driver ws (b, s, e)).1.2 = s
           ∧ Forall (fun ev => ¬ isSleep ev) evs.
Proof.
  revert b s e. induction ws as [|x rest IH]; intros b s e; cbn [Checker.checkLoop].
  - exists []. rewrite app_nil_r. split; [done|]. simpl. destruct b; auto.
  - destruct (checkWatcher_cases x b s e) as (evs1 & Ht1 & _ & _ & Hstep).
    destruct (Checker.checkWatcher driver x (b, s, e)) as [[b1 s1] e1] eqn:E.
    cbn [fst snd] in *.
    destruct (IH b1 s1 e1) as (evs2 & Ht2 & Hrest).
    exists (evs1 ++ evs2)%list. split; [by rewrite Ht2, Ht1, app_assoc|].
    destruct (Checker.checkLoop driver rest (b1, s1, e1)) as [[b2 s2] e2]. cbn [fst snd] in *.
    destruct b2.
    + destruct Hrest as [->|[target Hin]].
      * destruct Hstep as [[[= <- <-] _]|(_ & _ & [target Hin] & _)]; [by left|].
        right. exists target. set_solver.
      * right. exists target. set_solver.
    + destruct Hrest as (-> & -> & Hquiet).
      destruct Hstep as [[[= <- <-] Hq1]|(? & _)]; [|done].
      split; [done|]. split; [done|]. apply Forall_app. done.
Qed.

Lemma checkWatchers_unfold store e :
  Checker.checkWatchers driver store e
  = if isEnabled store
    then Checker.checkLoop driver (getSortedWatchers (Env.clock driver e) store).1
           (false, (getActiveWatchers (Env.clock driver e) store).2, e)
    else (false, store, e).
Proof.
  unfold Checker.checkWatchers. destruct (isEnabled store); cbn [negb]; [|done].
  change (getSortedWatchers (Env.clock driver e) store)
    with (sort compare (getActiveWatchers (Env.clock driver e) store).1,
          (getActiveWatchers (Env.clock driver e) store).2).
  cbn [fst].
  destruct (sort compare (getActiveWatchers (Env.clock driver e) store).1); done.
Qed.

(** ** What a pass asks of the driver *)

(** X18.  A pass asks the driver for nothing but lookups of the locators of the
    watchers it checks, clicks on one element, and waits of their positive
    cooldowns: at most four such steps for each watcher, hence at most four
    times the configured maximum of watchers in a registry that respects
    that maximum. *)
Theorem pass_asks_only_lookups_clicks_and_waits
    (cfg : PluginConfig.t) (store : WatcherStore.t) (e : Env.t World) :
  storeInv cfg (Env.clock driver e) store ->
  exists evs,
    Env.trace (Checker.checkWatchers driver store e).2 = (Env.trace e ++ evs)%list
    ∧ Forall (passEvent (getSortedWatchers (Env.clock driver e) store).1) evs
    ∧ (length evs <= 4 * PluginConfig.maxWatchers cfg)%nat.
Proof.
  intros (_ & _ & Hcount). rewrite checkWatchers_unfold.
  destruct (isEnabled store).
  - destruct (checkLoop_events (getSortedWatchers (Env.clock driver e) store).1
                (false, (getActiveWatchers (Env.clock driver e) store).2, e))
      as (evs & Ht & Hev & Hlen).
    exists evs. split; [done|]. split; [done|].
    rewrite StoreFacts.getSortedWatchers_fst, (Permutation_length (sort_perm compare _)),
      StoreFacts.getActiveWatchers_fst in Hlen.
    unfold unexpiredCount in Hcount. lia.
  - exists []. simpl. rewrite app_nil_r. split; [done|]. split; [done|]. lia.
Qed.

(** ** The flag of a pass *)

(** X19.  A pass that returns true has clicked.  A pass that returns false has
    changed no watcher (the registry is the one that the pruning at the
    start of the pass left, or the given one when checking is disabled) and
    has waited for no cooldown. *)
Theorem pass_flag_tells_a_dismissal (store : WatcherStore.t) (e : Env.t World) :
  exists evs,
    Env.trace (Checker.checkWatchers driver store e).2 = (Env.trace e ++ evs)%list
    ∧ if (Checker.checkWatchers driver store e).1.1
      then exists target, EvCommand "click" [target] ∈ evs
      else (Checker.checkWatchers driver store e).1.2
           = passStart (Env.clock driver e) store
           ∧ Forall (fun ev => ¬ isSleep ev) evs.
Proof.
  rewrite checkWatchers_unfold. unfold passStart.
  destruct (isEnabled store).
  - destruct (checkLoop_flag (getSortedWatchers (Env.clock driver e) store).1 false
                (getActiveWatchers (Env.clock driver e) store).2 e) as (evs & Ht & Hflag).
    exists evs. split; [done|].
    destruct (Checker.checkLoop driver _ _) as [[b s] e']. cbn [fst snd] in *.
    destruct b; [by destruct Hflag as [?|?]|]. by destruct Hflag as (_ & ? & ?).
  - exists []. simpl. by rewrite app_nil_r.
Qed.

(** ** A watcher fires at most once in a pass *)

Lemma bumped_refl w : bumped w w.
Proof. unfold bumped. repeat split; lia. Qed.

Lemma checkWatcher_keys x p :
  JsMap.keys (watchers (Checker.checkWatcher driver x p).1.2) = JsMap.keys (watchers p.1.2).
Proof.
  destruct p as [[b s] e].
  destruct (checkWatcher_cases x b s e) as (_ & _ & _ & _ & [[-> _]|(_ & _ & _ & now & ->)]);
    [done|].
  destruct (WatcherState.stopOnFound x); simpl; by rewrite !JsMap_keys_update.
Qed.

Lemma checkWatcher_get x b s e n :
  get n (Checker.checkWatcher driver x (b, s, e)).1.2 = get n s
  ∨ (n = WatcherState.name x ∧ WatcherState.status x ≠ inactive
     ∧ exists w w', get n s = Some w
         ∧ get n (Checker.checkWatcher driver x (b, s, e)).1.2 = Some w' ∧ bumped w w').
Proof.
  destruct (checkWatcher_cases x b s e)
    as (_ & _ & _ & _ & [[-> _]|(_ & Hact & _ & now & ->)]); [by left|].
  destruct (decide (n = WatcherState.name x)) as [->|Hne].
  - destruct (get (WatcherState.name x) s) as [w|] eqn:Hw.
    + right. split; [done|]. split; [done|]. exists w.
      unfold get in *.
      destruct (WatcherState.stopOnFound x); unfold markInactive, incrementTriggerCount;
        cbn [watchers]; eexists; (split; [reflexivity|]).
      * split.
        { erewrite JsMap_get_update_eq; [reflexivity|]. by erewrite JsMap_get_update_eq. }
        unfold bumped. simpl. repeat split; lia.
      * split; [by erewrite JsMap_get_update_eq|].
        unfold bumped. simpl. repeat split; lia.
    + left. unfold get in *.
      destruct (WatcherState.stopOnFound x); unfold markInactive, incrementTriggerCount;
        cbn [watchers]; rewrite ?JsMap_get_update, Hw; done.
  - left. unfold get.
    destruct (WatcherState.stopOnFound x); unfold markInactive, incrementTriggerCount;
      cbn [watchers]; rewrite ?JsMap_get_update;
      destruct (String.eqb_spec (WatcherState.name x) n) as [Heq|_]; try (by symmetry in Heq);
      by destruct (JsMap.get n (watchers s)).
Qed.

Lemma checkLoop_keys ws p :
  JsMap.keys (watchers (Checker.checkLoop driver ws p).1.2) = JsMap.keys (watchers p.1.2).
Proof.
  revert p. induction ws as [|x rest IH]; intros p; cbn [Checker.checkLoop]; [done|].
  by rewrite IH, checkWatcher_keys.
Qed.

Lemma checkLoop_untouched ws p n :
  (forall x, x ∈ ws -> WatcherState.name x = n -> WatcherState.status x = inactive) ->
  get n (Checker.checkLoop driver ws p).1.2 = get n p.1.2.
Proof.
  revert p. induction ws as [|x rest IH]; intros p Hws; cbn [Checker.checkLoop]; [done|].
  rewrite IH by (intros y Hy; apply Hws; by apply list_elem_of_further).
  destruct p as [[b s] e].
  destruct (checkWatcher_get x b s e n) as [->|(-> & Hact & _)]; [done|].
  exfalso. apply Hact. apply Hws; [apply list_elem_of_here|done].
Qed.

Lemma checkLoop_bumped ws p n w :
  NoDup (WatcherState.name <$> ws) ->
  get n p.1.2 = Some w ->
  exists w', get n (Checker.checkLoop driver ws p).1.2 = Some w' ∧ bumped w w'.
Proof.
  revert p w. induction ws as [|x rest IH]; intros p w Hnd Hw; cbn [Checker.checkLoop].
  - exists w. split; [done|apply bumped_refl].
  - rewrite fmap_cons in Hnd. apply NoDup_cons in Hnd as [Hx Hnd].
    destruct p as [[b s] e]. cbn [fst snd] in Hw.
    destruct (checkWatcher_get x b s e n) as [Hsame|(-> & _ & w0 & w1 & Hw0 & Hw1 & Hb)].
    + apply IH; [done|]. by rewrite Hsame.
    + rewrite Hw in Hw0. injection Hw0 as <-. exists w1. split; [|done].
      rewrite checkLoop_untouched; [done|].
      intros y Hy Hname. exfalso. apply Hx. apply list_elem_of_fmap. eauto.
Qed.

Lemma keyedByName_names s :
  keyedByName s -> WatcherState.name <$> WatcherStore.list s = JsMap.keys (watchers s).
Proof.
  unfold keyedByName, WatcherStore.list, JsMap.values, JsMap.keys.
  induction (watchers s) as [|[k w] m IH]; intros Hkey; [done|].
  simpl. rewrite (Hkey k w) by apply list_elem_of_here. f_equal.
  apply IH. intros k' w' Hin. apply Hkey. by apply list_elem_of_further.
Qed.

Lemma NoDup_fmap_filter {A B} (f : A -> B) (P : A -> Prop) `{!forall x, Decision (P x)}
    (l : Datatypes.list A) :
  NoDup (f <$> l) -> NoDup (f <$> filter P l).
Proof.
  induction l as [|x l IH]; [done|]. rewrite fmap_cons, filter_cons.
  intros [Hx Hnd]%NoDup_cons. destruct (decide (P x)); [|by apply IH].
  rewrite fmap_cons. apply NoDup_cons. split; [|by apply IH].
  intros (y & Hy & Hin)%list_elem_of_fmap. apply Hx. apply list_elem_of_fmap.
  exists y. split; [done|]. by apply list_elem_of_filter in Hin as [_ ?].
Qed.

(** X20.  In one pass over a registry without duplicate names the loop adds and
    removes no watcher, and a stored watcher is dismissed at most once: its
    registration data stay, and its trigger count stays or rises by one.  A
    watcher that is inactive when the pass starts is not changed at all. *)
Theorem watcher_fires_at_most_once_in_a_pass
    (store : WatcherStore.t) (e : Env.t World) (name : string) (w : WatcherState.t) :
  namesUnique store -> keyedByName store ->
  let start := passStart (Env.clock driver e) store in
  let final := (Checker.checkWatchers driver store e).1.2 in
  get name start = Some w ->
  JsMap.keys (watchers final) = JsMap.keys (watchers start)
  ∧ (exists w', get name final = Some w' ∧ bumped w w')
  ∧ (WatcherState.status w = inactive -> get name final = Some w).
Proof.
  intros Hnd Hkey start final Hw. subst start final. revert Hw.
  rewrite checkWatchers_unfold. unfold passStart.
  destruct (isEnabled store); [|intros Hw; split; [done|]; split; [|done];
                                 exists w; split; [done|apply bumped_refl]].
  set (now := Env.clock driver e).
  pose proof (RegistryFacts.getActiveWatchers_list now store Hnd) as Hlist.
  pose proof (RegistryFacts.getActiveWatchers_storage now store Hnd) as Hstorage.
  rewrite StoreFacts.getSortedWatchers_fst.
  set (pruned := (getActiveWatchers now store).2) in *.
  set (alive := (getActiveWatchers now store).1) in *.
  assert (namesUnique pruned) as Hnd'.
  { unfold namesUnique. rewrite Hstorage. by apply JsMap_keys_filter_NoDup. }
  assert (keyedByName pruned) as Hkey'.
  { intros k w0. rewrite Hstorage. intros [_ Hin]%list_elem_of_filter. by apply Hkey. }
  assert (NoDup (WatcherState.name <$> sort compare alive)) as Hnames.
  { rewrite (sort_perm compare alive), <-Hlist, keyedByName_names by done. exact Hnd'. }
  intros Hw. split; [apply checkLoop_keys|]. split.
  - by apply checkLoop_bumped.
  - intros Hinactive. rewrite checkLoop_untouched; [done|].
    intros x Hx Hname. rewrite (sort_perm compare alive), <-Hlist in Hx.
    unfold WatcherStore.list, JsMap.values in Hx.
    apply list_elem_of_In, in_map_iff in Hx as ([k x'] & Hx' & Hin). simpl in Hx'. subst x'.
    apply list_elem_of_In in Hin. pose proof (Hkey' _ _ Hin) as Hk. rewrite Hname in Hk. subst k.
    apply JsMap_get_in in Hw.
    by rewrite (RegistryFacts.JsMap_keys_NoDup_inj _ _ _ _ Hnd' Hin Hw).
Qed.

End Generic.

Lemma pass_asks_only_lookups_clicks_and_waits_witness :
  exists evs,
    Env.trace (Checker.checkWatchers Samples.popupDriver Samples.fullStore Samples.startEnv).2
    = evs
    ∧ (length evs <= 20)%nat.
Proof.
  destruct (pass_asks_only_lookups_clicks_and_waits Samples.popupDriver DefaultPluginConfig
              Samples.fullStore Samples.startEnv) as (evs & Ht & _ & Hlen).
  - apply RegistryFacts.fullStore_storeInv.
  - exists evs. split; [exact Ht|exact Hlen].
Defined.

Lemma watcher_fires_at_most_once_in_a_pass_witness :
  exists w',
    get "consent"
      (Checker.checkWatchers Samples.popupDriver Samples.oneShotStore Samples.startEnv).1.2
    = Some w'
    ∧ WatcherState.triggerCount w' <= 1.
Proof.
  assert (namesUnique Samples.oneShotStore) as Hnd.
  { unfold namesUnique. vm_compute. repeat constructor; set_solver. }
  assert (keyedByName Samples.oneShotStore) as Hkey.
  { intros k w. unfold Samples.oneShotStore. cbn.
    intros [[= -> ->]|[]%elem_of_nil]%elem_of_cons. reflexivity. }
  destruct (get "consent" (passStart 0 Samples.oneShotStore)) as [w|] eqn:Hw;
    [|vm_compute in Hw; discriminate Hw].
  destruct (watcher_fires_at_most_once_in_a_pass Samples.popupDriver Samples.oneShotStore
              Samples.startEnv "consent" w Hnd Hkey Hw) as (_ & (w' & Hget & Hb) & _).
  exists w'. split; [exact Hget|].
  destruct Hb as (_ & _ & _ & _ & _ & _ & _ & _ & _ & _ & Hcount).
  vm_compute in Hw. injection Hw as Hw. rewrite <-Hw in Hcount. simpl in Hcount. lia.
Defined.

End PassFacts.

(* ====================================================================== *)
(** * More on the interception layer                                       *)
(* ====================================================================== *)

Module SessionFacts.
Import Plugin PluginSpec.

Section Generic.
Context {World : Type} (config : PluginConfig.t) (driver : Driver.t World).

Lemma others_refl (st : State (World := World)) : others driver st st.
Proof. by intros sessionId _. Qed.

Lemma others_trans (st1 st2 st3 : State (World := World)) :
  others driver st1 st2 -> others driver st2 st3 -> others driver st1 st3.
Proof.
  intros H12 H23 sessionId Hne.
  destruct (H12 sessionId Hne) as [<- <-]. by apply H23.
Qed.

Lemma local_ret {A} (a : A) : local driver (ret a).
Proof. intros st. apply others_refl. Qed.

Lemma local_throw {A} (error : JsError) : local driver (throw (A := A) error).
Proof. intros st. apply others_refl. Qed.

Lemma local_hang {A} : local driver (hang (A := A)).
Proof. intros st. apply others_refl. Qed.

Lemma local_bind {A B} (m : M A) (k : A -> M B) :
  local driver m -> (forall a, local driver (k a)) -> local driver (bind m k).
Proof.
  intros Hm Hk st. unfold bind. specialize (Hm st).
  destruct (m st) as [[a|error|] st1]; simpl in *; [|done|done].
  eapply others_trans; [exact Hm|apply Hk].
Qed.

Lemma local_try_catch {A} (m : M A) (handler : JsError -> M A) :
  local driver m -> (forall error, local driver (handler error)) ->
  local driver (try_catch m handler).
Proof.
  intros Hm Hh st. unfold try_catch. specialize (Hm st).
  destruct (m st) as [[a|error|] st1]; simpl in *; [done| |done].
  eapply others_trans; [exact Hm|apply Hh].
Qed.

Lemma local_await {A} (c : Env.call A) : local driver (await c).
Proof.
  intros st. unfold await. destruct (c (env st)) as [[a|error] e]; by intros sessionId _.
Qed.

Lemma local_call_next (next : Env.call JsVal) : local driver (call_next next).
Proof.
  intros st. unfold call_next. apply (local_await next (mkState _ _ _)).
Qed.

Lemma local_getStore : local driver (getStore driver).
Proof.
  intros st sessionId Hne. unfold getStore.
  destruct (String.eqb _ _); [done|].
  destruct (stores st !! Driver.sessionId driver); simpl; [done|].
  by rewrite lookup_insert_ne.
Qed.

Lemma local_getCache : local driver (getCache config driver).
Proof.
  intros st sessionId Hne. unfold getCache.
  destruct (String.eqb _ _); [done|].
  destruct (caches st !! Driver.sessionId driver); simpl; [done|].
  by rewrite lookup_insert_ne.
Qed.

Lemma local_putStore store : local driver (putStore driver store).
Proof. intros st sessionId Hne. simpl. by rewrite lookup_insert_ne. Qed.

Lemma local_putCache cache : local driver (putCache driver cache).
Proof. intros st sessionId Hne. simpl. by rewrite lookup_insert_ne. Qed.

Lemma local_checkWatchers store : local driver (checkWatchers driver store).
Proof.
  intros st sessionId Hne. unfold checkWatchers.
  destruct (Checker.checkWatchers driver store (env st)) as [[b s] e]. simpl.
  by rewrite lookup_insert_ne.
Qed.

Lemma local_clock : local driver (clock driver).
Proof. intros st. apply others_refl. Qed.

Lemma local_forgetSession : local driver (forgetSession driver).
Proof.
  intros st sessionId Hne. unfold forgetSession.
  destruct (String.eqb _ _); simpl; [done|]. by rewrite !lookup_delete_ne.
Qed.

Ltac local_step :=
  first
    [ apply local_ret | apply local_throw | apply local_hang
    | apply local_call_next | apply local_await | apply local_getStore
    | apply local_getCache | apply local_putStore | apply local_putCache
    | apply local_checkWatchers | apply local_clock | apply local_forgetSession
    | apply local_bind; [|intros ?]
    | apply local_try_catch; [|intros ?]
    | progress cbv zeta
    | match goal with
      | |- local _ (if ?b then _ else _) => destruct b
      | |- local _ (match ?x with _ => _ end) => destruct x
      end ].

Lemma local_cacheFound result using_ value :
  local driver (cacheFound config driver result using_ value).
Proof. unfold cacheFound. repeat local_step. Qed.

Lemma local_cacheFoundMany result using_ value :
  local driver (cacheFoundMany config driver result using_ value).
Proof. unfold cacheFoundMany. repeat local_step. Qed.

Lemma local_refind ref : local driver (refind driver ref).
Proof. unfold refind. repeat local_step. Qed.

Lemma local_storeCommand {A} (r : result A * WatcherStore.t) respond :
  local driver (storeCommand driver r respond).
Proof. unfold storeCommand. repeat local_step. Qed.

Ltac local_all :=
  repeat first [ apply local_cacheFound | apply local_cacheFoundMany | apply local_refind
               | apply local_storeCommand | local_step ].

(** ** What a method reads *)

Ltac agree :=
  unfold same in *; cbn [fst snd env stores caches] in *; destruct_and?;
  rewrite ?lookup_insert_eq, ?lookup_delete_eq; split_and!; (done || congruence).

Lemma blind_ret {A} (a : A) : blind driver (ret a).
Proof. intros st1 st2 Hs. unfold ret. agree. Qed.

Lemma blind_throw {A} (error : JsError) : blind driver (throw (A := A) error).
Proof. intros st1 st2 Hs. unfold throw. agree. Qed.

Lemma blind_hang {A} : blind driver (hang (A := A)).
Proof. intros st1 st2 Hs. unfold hang. agree. Qed.

Lemma blind_bind {A B} (m : M A) (k : A -> M B) :
  blind driver m -> (forall a, blind driver (k a)) -> blind driver (bind m k).
Proof.
  intros Hm Hk st1 st2 Hs. unfold bind. destruct (Hm st1 st2 Hs) as [Ho Hs'].
  destruct (m st1) as [[a1|error1|] st1'], (m st2) as [[a2|error2|] st2'];
    cbn [fst snd] in *; try discriminate Ho; [|split; [congruence|done]..].
  injection Ho as <-. by apply Hk.
Qed.

Lemma blind_try_catch {A} (m : M A) (handler : JsError -> M A) :
  blind driver m -> (forall error, blind driver (handler error)) ->
  blind driver (try_catch m handler).
Proof.
  intros Hm Hh st1 st2 Hs. unfold try_catch. destruct (Hm st1 st2 Hs) as [Ho Hs'].
  destruct (m st1) as [[a1|error1|] st1'], (m st2) as [[a2|error2|] st2'];
    cbn [fst snd] in *; try discriminate Ho; [by split| |by split].
  injection Ho as <-. by apply Hh.
Qed.

Lemma blind_await {A} (c : Env.call A) : blind driver (await c).
Proof.
  intros st1 st2 (Henv & Hstores & Hcaches). unfold await. rewrite Henv.
  destruct (c (env st2)) as [[a|error] e]; agree.
Qed.

Lemma blind_call_next (next : Env.call JsVal) : blind driver (call_next next).
Proof.
  intros st1 st2 (Henv & Hstores & Hcaches). unfold call_next.
  apply blind_await. agree.
Qed.

Lemma blind_getStore : blind driver (getStore driver).
Proof.
  intros st1 st2 (Henv & Hstores & Hcaches). unfold getStore.
  destruct (String.eqb _ _); [agree|]. rewrite Hstores.
  destruct (stores st2 !! Driver.sessionId driver) eqn:Hstore; agree.
Qed.

Lemma blind_getCache : blind driver (getCache config driver).
Proof.
  intros st1 st2 (Henv & Hstores & Hcaches). unfold getCache.
  destruct (String.eqb _ _); [agree|]. rewrite Hcaches.
  destruct (caches st2 !! Driver.sessionId driver) eqn:Hcache; agree.
Qed.

Lemma blind_putStore store : blind driver (putStore driver store).
Proof. intros st1 st2 (Henv & Hstores & Hcaches). unfold putStore. agree. Qed.

Lemma blind_putCache cache : blind driver (putCache driver cache).
Proof. intros st1 st2 (Henv & Hstores & Hcaches). unfold putCache. agree. Qed.

Lemma blind_checkWatchers store : blind driver (checkWatchers driver store).
Proof.
  intros st1 st2 (Henv & Hstores & Hcaches). unfold checkWatchers. rewrite Henv.
  destruct (Checker.checkWatchers driver store (env st2)) as [[b s] e]. agree.
Qed.

Lemma blind_clock : blind driver (clock driver).
Proof. intros st1 st2 (Henv & Hstores & Hcaches). unfold clock. agree. Qed.

Lemma blind_forgetSession : blind driver (forgetSession driver).
Proof.
  intros st1 st2 (Henv & Hstores & Hcaches). unfold forgetSession.
  destruct (String.eqb _ _); agree.
Qed.

Ltac blind_step :=
  first
    [ apply blind_ret | apply blind_throw | apply blind_hang
    | apply blind_call_next | apply blind_await | apply blind_getStore
    | apply blind_getCache | apply blind_putStore | apply blind_putCache
    | apply blind_checkWatchers | apply blind_clock | apply blind_forgetSession
    | apply blind_bind; [|intros ?]
    | apply blind_try_catch; [|intros ?]
    | progress cbv zeta
    | match goal with
      | |- blind _ (if ?b then _ else _) => destruct b
      | |- blind _ (match ?x with _ => _ end) => destruct x
      end ].

Lemma blind_cacheFound result using_ value :
  blind driver (cacheFound config driver result using_ value).
Proof. unfold cacheFound. repeat blind_step. Qed.

Lemma blind_cacheFoundMany result using_ value :
  blind driver (cacheFoundMany config driver result using_ value).
Proof. unfold cacheFoundMany. repeat blind_step. Qed.

Lemma blind_refind ref : blind driver (refind driver ref).
Proof. unfold refind. repeat blind_step. Qed.

Lemma blind_storeCommand {A} (r : result A * WatcherStore.t) respond :
  blind driver (storeCommand driver r respond).
Proof. unfold storeCommand. repeat blind_step. Qed.

Ltac blind_all :=
  repeat first [ apply blind_cacheFound | apply blind_cacheFoundMany | apply blind_refind
               | apply blind_storeCommand | blind_step ].

(** ** Sessions do not see each other *)

(** X21.  No method of the plugin reads or writes the store or the cache of
    a session other than that of the driver it is called with.  It writes
    none: the entries of the other sessions are after the call what they
    were before.  It reads none: from two states of the plugin that agree
    on the environment and on the store and the cache of the session of the
    driver, and differ in the entries of the other sessions in any way, the
    method ends with the same result or the same failure, and leaves the
    same environment and the same store and cache of its session. *)
Theorem plugin_touches_only_its_session
    (next : Env.call JsVal) (using_ value cmdName script : string) (args : list JsVal) :
  isolated driver (findElement config driver next using_ value)
  ∧ isolated driver (findElements config driver next using_ value)
  ∧ isolated driver (handle config driver next cmdName args)
  ∧ isolated driver (execute driver next script args)
  ∧ isolated driver (deleteSession driver next)
  ∧ isolated driver (onUnexpectedShutdown driver).
Proof.
  unfold isolated. split_and!.
  - unfold findElement. local_all.
  - unfold findElement. blind_all.
  - unfold findElements. local_all.
  - unfold findElements. blind_all.
  - unfold handle, interceptAction. local_all.
  - unfold handle, interceptAction. blind_all.
  - unfold execute. local_all.
  - unfold execute. blind_all.
  - unfold deleteSession. local_all.
  - unfold deleteSession. blind_all.
  - unfold onUnexpectedShutdown. local_all.
  - unfold onUnexpectedShutdown. blind_all.
Qed.

End Generic.
End SessionFacts.

Module InterceptionFacts.
Import Plugin PluginSpec.

Section Generic.
Context {World : Type} (config : PluginConfig.t) (driver : Driver.t World).

Lemma call_next_eq (next : Env.call JsVal) (st : State (World := World)) res e1 :
  next (entering (env st)) = (res, e1) ->
  call_next next st = (outcomeOf res, mkState (stores st) (caches st) e1).
Proof.
  intros Hnext. unfold call_next, await. cbn [env stores caches].
  rewrite Hnext. by destruct res.
Qed.

Lemma getCache_returns (st : State (World := World)) :
  Driver.sessionId driver ≠ "" ->
  exists caches1,
    getCache config driver st
    = (Return (cacheOf driver config st), mkState (stores st) caches1 (env st))
    ∧ caches1 !! Driver.sessionId driver = Some (cacheOf driver config st)
    ∧ forall cache,
        <[Driver.sessionId driver := cache]> caches1
        = <[Driver.sessionId driver := cache]> (caches st).
Proof.
  intros Hsid. unfold getCache, cacheOf.
  destruct (String.eqb_spec (Driver.sessionId driver) "") as [|_]; [done|].
  destruct (caches st !! Driver.sessionId driver) as [cache0|] eqn:Hc; simpl.
  - exists (caches st). split; [by destruct st|]. done.
  - eexists. split; [done|]. split; [apply lookup_insert_eq|].
    intros cache. apply insert_insert_eq.
Qed.

Lemma cacheFound_no_throw result using_ value (st : State (World := World)) error :
  Driver.sessionId driver ≠ "" ->
  (cacheFound config driver result using_ value st).1 ≠ Throw error.
Proof.
  intros Hsid. unfold cacheFound.
  destruct (truthy result && nonempty using_ && nonempty value); [|done].
  destruct (Utils.extractElementId result); [|done].
  unfold bind. destruct (getCache_returns st Hsid) as (caches1 & -> & _).
  unfold clock. by destruct (ElementReferenceCache.cacheElement _ _ _ _ _).
Qed.

Lemma cacheFoundMany_no_throw result using_ value (st : State (World := World)) error :
  Driver.sessionId driver ≠ "" ->
  (cacheFoundMany config driver result using_ value st).1 ≠ Throw error.
Proof.
  intros Hsid. unfold cacheFoundMany.
  destruct result as [| | | | |[|first rest]|]; try done.
  destruct (nonempty using_ && nonempty value); [|done].
  unfold bind. destruct (getCache_returns st Hsid) as (caches1 & -> & _).
  unfold clock. by destruct (ElementReferenceCache.cacheElements _ _ _ _ _).
Qed.

Lemma try_catch_rethrow {A} (m : M A) error (st st' : State (World := World)) error' :
  try_catch m (fun _ => throw error) st = (Throw error', st') -> error' = error.
Proof.
  unfold try_catch, throw. destruct (m st) as [[a|e|] st1]; congruence.
Qed.

Lemma try_catch_ret_no_throw {A} (m : M A) (a : A) (st : State (World := World)) error :
  (try_catch m (fun _ => ret a) st).1 ≠ Throw error.
Proof.
  unfold try_catch, ret. by destruct (m st) as [[a'|e|] st1].
Qed.

(** ** The failure that a lookup throws *)

(** X22.  In a session with an identifier, a failure thrown by the intercepted
    [findElement] or [findElements] is the failure of the first lookup: not
    that of the retry, and not one of the plugin itself. *)
Theorem lookups_throw_only_the_first_failure
    (next : Env.call JsVal) (using_ value : string) (st st' : State (World := World))
    (error : JsError) :
  Driver.sessionId driver ≠ "" ->
  findElement config driver next using_ value st = (Throw error, st')
  ∨ findElements config driver next using_ value st = (Throw error, st') ->
  (next (entering (env st))).1 = Err error.
Proof.
  intros Hsid. destruct (next (entering (env st))) as [res e1] eqn:Hnext.
  pose proof (call_next_eq next st res e1 Hnext) as Hcall. simpl.
  intros [Hthrow|Hthrow]; revert Hthrow.
  - unfold findElement. unfold try_catch at 1, bind at 1. rewrite Hcall.
    destruct res as [result|first]; cbn [outcomeOf].
    + unfold bind, ret.
      pose proof (cacheFound_no_throw result using_ value
                    (mkState (stores st) (caches st) e1)) as Hno.
      destruct (cacheFound config driver result using_ value _) as [[[]|e|] st1];
        cbn [fst] in Hno; try done. by destruct (Hno e Hsid).
    + destruct (shouldCheckWatchers first).
      * by intros ->%try_catch_rethrow.
      * by intros [= ->].
  - unfold findElements. unfold try_catch at 1, bind at 1. rewrite Hcall.
    destruct res as [result|first]; cbn [outcomeOf].
    + destruct (isEmptyArray result).
      * pose proof (try_catch_ret_no_throw
                      (bind (getStore driver) (fun store =>
                       bind (checkWatchers driver store) (fun _ =>
                       bind (call_next next) (fun retryResult =>
                       bind (cacheFoundMany config driver retryResult using_ value)
                            (fun _ => ret retryResult)))))
                      result (mkState (stores st) (caches st) e1)) as Hno.
        destruct (try_catch _ _ _) as [[a|e|] st1]; cbn [fst] in Hno; try done.
        by destruct (Hno e).
      * unfold bind, ret.
        pose proof (cacheFoundMany_no_throw result using_ value
                      (mkState (stores st) (caches st) e1)) as Hno.
        destruct (cacheFoundMany config driver result using_ value _) as [[[]|e|] st1];
          cbn [fst] in Hno; try done. by destruct (Hno e Hsid).
    + by intros ->%try_catch_rethrow.
Qed.

End Generic.

Lemma lookups_throw_only_the_first_failure_witness :
  (Env.findElement Samples.brokenDriver "id" "login" (entering Samples.startEnv)).1
  = Err Samples.serverError.
Proof.
  apply (lookups_throw_only_the_first_failure DefaultPluginConfig Samples.brokenDriver
           (Env.findElement Samples.brokenDriver "id" "login") "id" "login"
           Samples.freshSession
           (dispatchFindElement DefaultPluginConfig Samples.brokenDriver "id" "login"
              Samples.freshSession).2).
  - done.
  - left. vm_compute. reflexivity.
Defined.

End InterceptionFacts.

(* ====================================================================== *)
(** * Scripts, element commands and the end of a session                   *)
(* ====================================================================== *)

Module RoutingFacts.
Import Plugin PluginSpec.

Section Generic.
Context {World : Type} (config : PluginConfig.t) (driver : Driver.t World).

(** ** A driver without a session identifier *)

(** X24.  On a driver without a session identifier every script of [execute],
    also one that is not a script of the plugin, and every element command
    with an element identifier fail with the no-session failure before
    [next] is called: nothing reaches the driver. *)
Theorem without_session_nothing_reaches_the_driver
    (next : Env.call JsVal) (script cmdName elementId : string) (args rest : list JsVal)
    (st : State (World := World)) :
  Driver.sessionId driver = "" ->
  execute driver next script args st = (Throw noSession, st)
  ∧ (cmdName ∈ ELEMENT_ACTION_COMMANDS -> elementId ≠ "" ->
     handle config driver next cmdName (JStr elementId :: rest) st = (Throw noSession, st)).
Proof.
  intros Hsid. split.
  - unfold execute, bind, getStore. by rewrite Hsid.
  - intros Hcmd Hid. unfold handle. rewrite bool_decide_eq_true_2 by done. cbn [negb].
    destruct (String.eqb_spec elementId "") as [|_]; [done|].
    unfold interceptAction, bind, getCache. by rewrite Hsid.
Qed.

(** ** Scripts that are not the plugin's *)

(** X25.  In a session with an identifier, a script that is none of the six
    scripts of the plugin is passed to [next], and its result or failure is
    that of the call; the caches are not touched, and the only change to the
    stores is that the session has one afterwards. *)
Theorem execute_passes_other_scripts_on
    (next : Env.call JsVal) (script : string) (args : list JsVal)
    (st : State (World := World)) (res : result JsVal) (e1 : Env.t World) :
  Driver.sessionId driver ≠ "" ->
  script ∉ scripts ->
  next (entering (env st)) = (res, e1) ->
  let st' := (execute driver next script args st).2 in
  (execute driver next script args st).1
  = match res with Ok result => Return (Passed result) | Err error => Throw error end
  ∧ env st' = e1
  ∧ caches st' = caches st
  ∧ stores st' = <[Driver.sessionId driver := storeOf driver st]> (stores st).
Proof.
  intros Hsid Hscript Hnext.
  assert (forall name, name ∈ scripts -> String.eqb script name = false) as Hne.
  { intros name Hin. destruct (String.eqb_spec script name) as [->|]; done. }
  assert (execute driver next script args st
          = (match res with Ok result => Return (Passed result) | Err error => Throw error end,
             mkState (<[Driver.sessionId driver := storeOf driver st]> (stores st))
               (caches st) e1)) as ->; [|done].
  unfold execute, bind at 1.
  rewrite !Hne by (unfold scripts; set_solver).
  unfold getStore, storeOf.
  destruct (String.eqb_spec (Driver.sessionId driver) "") as [|_]; [done|].
  destruct (stores st !! Driver.sessionId driver) as [store|] eqn:Hstore; unfold bind;
    erewrite InterceptionFacts.call_next_eq by (cbn [env]; exact Hnext);
    destruct res; cbn [outcomeOf fst snd env stores caches default ret];
    rewrite ?insert_id by done; done.
Qed.

(** ** The end of a session *)

(** X26.  [deleteSession] forgets the store and the cache of the session after
    [next] has returned: the next [getStore] gives a new, empty store.  When
    [next] throws, the failure is thrown on and the store and the cache of
    the session are kept.  [onUnexpectedShutdown] forgets them always. *)
Theorem deleteSession_forgets_after_next_returned
    (next : Env.call JsVal) (st : State (World := World)) (res : result JsVal)
    (e1 : Env.t World) :
  Driver.sessionId driver ≠ "" ->
  next (entering (env st)) = (res, e1) ->
  let st' := (deleteSession driver next st).2 in
  let shut := (onUnexpectedShutdown driver st).2 in
  (deleteSession driver next st).1 = outcomeOf res
  ∧ env st' = e1
  ∧ match res with
    | Ok _ =>
        stores st' !! Driver.sessionId driver = None
        ∧ caches st' !! Driver.sessionId driver = None
        ∧ (getStore driver st').1 = Return WatcherStore.new
    | Err _ => stores st' = stores st ∧ caches st' = caches st
    end
  ∧ stores shut !! Driver.sessionId driver = None
  ∧ caches shut !! Driver.sessionId driver = None
  ∧ env shut = env st.
Proof.
  intros Hsid Hnext. unfold deleteSession, onUnexpectedShutdown, bind.
  rewrite (InterceptionFacts.call_next_eq next st res e1 Hnext).
  unfold forgetSession, getStore.
  destruct (String.eqb_spec (Driver.sessionId driver) "") as [|_]; [done|].
  destruct res; cbn [outcomeOf fst snd env stores caches ret];
    rewrite ?lookup_delete_eq; done.
Qed.

(** ** Element commands that do not fail with a stale reference *)

(** X27.  In a session with an identifier, a command that returns, or that fails
    with a failure that is not a stale-reference failure, goes through
    [handle] unchanged: the result or the failure is that of [next], [next]
    is the only call, the stores are not touched and the content of the
    cache of the session stays. *)
Theorem handle_is_transparent_without_stale_failure
    (next : Env.call JsVal) (cmdName : string) (args : list JsVal)
    (st : State (World := World)) (res : result JsVal) (e1 : Env.t World) :
  Driver.sessionId driver ≠ "" ->
  next (entering (env st)) = (res, e1) ->
  (forall error, res = Err error -> isStaleElementException error = false) ->
  let st' := (handle config driver next cmdName args st).2 in
  (handle config driver next cmdName args st).1 = outcomeOf res
  ∧ env st' = e1
  ∧ stores st' = stores st
  ∧ cacheOf driver config st' = cacheOf driver config st.
Proof.
  intros Hsid Hnext Hfresh.
  pose proof (InterceptionFacts.call_next_eq next st res e1 Hnext) as Hcall.
  assert (let st' := (call_next next st).2 in
          (call_next next st).1 = outcomeOf res ∧ env st' = e1 ∧ stores st' = stores st
          ∧ cacheOf driver config st' = cacheOf driver config st) as Hpass.
  { by rewrite Hcall. }
  unfold handle. destruct (negb _); [exact Hpass|].
  destruct args as [|[| | | |elementId| |] rest]; try exact Hpass.
  destruct (String.eqb elementId ""); [exact Hpass|].
  destruct (InterceptionFacts.getCache_returns config driver st Hsid)
    as (caches1 & Hcache & Hc1 & _).
  assert (interceptAction config driver next elementId cmdName (JStr elementId :: rest) st
          = (outcomeOf res, mkState (stores st) caches1 e1)) as ->.
  { unfold interceptAction, bind at 1. rewrite Hcache.
    cbv zeta. unfold try_catch.
    erewrite InterceptionFacts.call_next_eq by (cbn [env]; exact Hnext).
    destruct res as [result|error]; cbn [outcomeOf stores caches env]; [done|].
    by rewrite (Hfresh error eq_refl). }
  cbn [fst snd env stores]. unfold cacheOf at 1. cbn [caches]. by rewrite Hc1.
Qed.

(** ** No recovery without a dismissal *)

(** X28.  When an element command fails with a stale-reference failure and the
    pass over the watchers dismisses nothing, that failure is thrown: the
    element is not looked up again, and the content of the cache of the
    session stays. *)
Theorem no_recovery_without_dismissal
    (next : Env.call JsVal) (elementId cmdName : string) (args : list JsVal)
    (st : State (World := World)) (error : JsError) (e1 e2 : Env.t World)
    (store' : WatcherStore.t) :
  Driver.sessionId driver ≠ "" ->
  next (entering (env st)) = (Err error, e1) ->
  isStaleElementException error = true ->
  Checker.checkWatchers driver (storeOf driver st) e1 = (false, store', e2) ->
  let st' := (interceptAction config driver next elementId cmdName args st).2 in
  (interceptAction config driver next elementId cmdName args st).1 = Throw error
  ∧ env st' = e2
  ∧ storeOf driver st' = store'
  ∧ cacheOf driver config st' = cacheOf driver config st.
Proof.
  intros Hsid Hnext Hstale Hpass.
  destruct (InterceptionFacts.getCache_returns config driver st Hsid)
    as (caches1 & Hcache & Hc1 & _).
  destruct (PluginFacts.getStore_returns driver (mkState (stores st) caches1 e1) Hsid)
    as (stores1 & Hstore & Hs1).
  assert (interceptAction config driver next elementId cmdName args st
          = (Throw error,
             mkState (<[Driver.sessionId driver := store']> (stores st)) caches1 e2)) as ->.
  { unfold interceptAction, bind at 1. rewrite Hcache.
    cbv zeta. unfold try_catch.
    erewrite InterceptionFacts.call_next_eq by (cbn [env]; exact Hnext).
    cbn [outcomeOf stores caches env]. rewrite Hstale. cbn [negb].
    unfold bind at 1. rewrite Hstore.
    cbn [stores]. unfold bind, checkWatchers. cbn [env stores caches].
    fold (storeOf driver st). rewrite Hpass. cbn [negb throw stores caches env].
    by rewrite Hs1. }
  cbn [fst snd env]. unfold storeOf at 1, cacheOf at 1. cbn [stores caches].
  by rewrite lookup_insert_eq, Hc1.
Qed.

(** ** The recovery *)

(** X29.  When an element command fails with a stale-reference failure, a watcher
    dismisses something, the locator of the element is in the cache (under
    the identifier that the mappings give for the one of the client) and
    the lookup with that locator finds an element, then the identifier of
    the client is mapped to the new identifier and the command is run again
    on the driver with the new identifier in the place of the first
    argument; its result or failure is that of the command. *)
Theorem stale_recovery_runs_the_command_on_the_new_element
    (next : Env.call JsVal) (elementId cmdName : string) (args : list JsVal)
    (st : State (World := World)) (error : JsError) (e1 e2 e3 : Env.t World)
    (store' : WatcherStore.t) (ref : ElementReferenceCache.CachedRef)
    (cache1 : ElementReferenceCache.t) (newElement : JsVal) (newId : string) :
  Driver.sessionId driver ≠ "" ->
  next (entering (env st)) = (Err error, e1) ->
  isStaleElementException error = true ->
  Checker.checkWatchers driver (storeOf driver st) e1 = (true, store', e2) ->
  let cache := cacheOf driver config st in
  ElementReferenceCache.getRef (Env.clock driver e2) (resolveId cache elementId) cache
  = (Some ref, cache1) ->
  ElementReferenceCache.ref_source ref = ElementReferenceCache.FromFindElement ->
  Env.findElement driver (ElementReferenceCache.ref_using ref)
    (ElementReferenceCache.ref_value ref) e2 = (Ok newElement, e3) ->
  Utils.extractElementId newElement = Some newId ->
  let again := Env.command driver cmdName (JStr newId :: tail args) e3 in
  let st' := (interceptAction config driver next elementId cmdName args st).2 in
  (interceptAction config driver next elementId cmdName args st).1 = outcomeOf again.1
  ∧ env st' = again.2
  ∧ cacheOf driver config st' = ElementReferenceCache.setMapping elementId newId cache1
  ∧ ElementReferenceCache.getMappedId elementId (cacheOf driver config st') = Some newId.
Proof.
  intros Hsid Hnext Hstale Hpass cache Hget Hsource Hfind Hid again.
  destruct (InterceptionFacts.getCache_returns config driver st Hsid)
    as (caches1 & Hcache & Hc1 & Hins).
  destruct (PluginFacts.getStore_returns driver (mkState (stores st) caches1 e1) Hsid)
    as (stores1 & Hstore & Hs1).
  assert (interceptAction config driver next elementId cmdName args st
          = (outcomeOf again.1,
             mkState (<[Driver.sessionId driver := store']> (stores st))
               (<[Driver.sessionId driver :=
                    ElementReferenceCache.setMapping elementId newId cache1]> (caches st))
               again.2)) as ->.
  { unfold interceptAction, bind at 1. rewrite Hcache.
    cbv zeta. unfold try_catch.
    erewrite InterceptionFacts.call_next_eq by (cbn [env]; exact Hnext).
    cbn [outcomeOf stores caches env]. rewrite Hstale. cbn [negb].
    unfold bind at 1. rewrite Hstore.
    cbn [stores]. unfold bind at 1, checkWatchers. cbn [env stores caches].
    fold (storeOf driver st). rewrite Hpass. cbn [negb].
    unfold bind at 1, clock. cbn [env]. fold cache. rewrite Hget.
    unfold bind at 1, putCache. cbn [stores caches env].
    unfold bind at 1, refind. rewrite Hsource.
    unfold await at 1. cbn [env stores caches]. rewrite Hfind, Hid.
    unfold bind, putCache, await. cbn [env stores caches]. fold again.
    rewrite Hs1, insert_insert_eq, Hins.
    by destruct again as [[result|err] e4]. }
  assert (ElementReferenceCache.getMappedId elementId
            (ElementReferenceCache.setMapping elementId newId cache1) = Some newId) as Hmap.
  { unfold ElementReferenceCache.getMappedId.
    rewrite MappingFacts.setMapping_mappings. rewrite decide_True; [done|by left]. }
  cbn [fst snd env]. unfold cacheOf. cbn [caches]. by rewrite lookup_insert_eq.
Qed.

(** ** Switching the checking off and on *)

Lemma storeOf_insert store (m : gmap string WatcherStore.t) c (e : Env.t World) :
  storeOf driver (mkState (<[Driver.sessionId driver := store]> m) c e) = store.
Proof. unfold storeOf. cbn [stores]. by rewrite lookup_insert_eq. Qed.

Lemma toggle_run (f : WatcherStore.t -> WatcherStore.t) (message : string)
    (st : State (World := World)) :
  Driver.sessionId driver ≠ "" ->
  bind (getStore driver)
    (fun store => bind (putStore driver (f store)) (fun _ => ret (Toggled message))) st
  = (Return (Toggled message),
     mkState (<[Driver.sessionId driver := f (storeOf driver st)]> (stores st))
       (caches st) (env st)).
Proof.
  intros Hsid. unfold bind at 1.
  destruct (PluginFacts.getStore_returns driver st Hsid) as (stores1 & -> & Hs1).
  unfold bind, putStore, ret. cbn [stores caches env]. by rewrite Hs1.
Qed.

(** X30.  The script that disables the watchers answers without calling [next]
    and keeps every watcher of the session; from then on a pass over the
    store of the session asks nothing of the driver and returns false, at
    whatever instant.  The script that enables them gives back the store as
    it was, enabled. *)
Theorem disable_script_silences_the_session
    (next : Env.call JsVal) (args args' : list JsVal) (st : State (World := World)) :
  Driver.sessionId driver ≠ "" ->
  let off := execute driver next "mobile: disableUIWatchers" args st in
  let on := execute driver next "mobile: enableUIWatchers" args' off.2 in
  off.1 = Return (Toggled "All UI watchers disabled")
  ∧ env off.2 = env st
  ∧ WatcherStore.list (storeOf driver off.2) = WatcherStore.list (storeOf driver st)
  ∧ (forall e, Checker.checkWatchers driver (storeOf driver off.2) e
               = (false, storeOf driver off.2, e))
  ∧ on.1 = Return (Toggled "All UI watchers enabled")
  ∧ storeOf driver on.2 = WatcherStore.enable (storeOf driver st).
Proof.
  intros Hsid off on. subst on off.
  assert (forall args0 st0,
            execute driver next "mobile: disableUIWatchers" args0 st0
            = bind (getStore driver)
                (fun store => bind (putStore driver (WatcherStore.disable store))
                                (fun _ => ret (Toggled "All UI watchers disabled"))) st0)
    as -> by reflexivity.
  assert (forall args0 st0,
            execute driver next "mobile: enableUIWatchers" args0 st0
            = bind (getStore driver)
                (fun store => bind (putStore driver (WatcherStore.enable store))
                                (fun _ => ret (Toggled "All UI watchers enabled"))) st0)
    as -> by reflexivity.
  rewrite (toggle_run WatcherStore.disable _ st Hsid). cbn [fst snd].
  rewrite (toggle_run WatcherStore.enable _ _ Hsid). cbn [fst snd env].
  rewrite !storeOf_insert.
  split_and!; done.
Qed.

End Generic.

Lemma without_session_nothing_reaches_the_driver_witness :
  execute Samples.anonymousDriver
    (Env.command Samples.anonymousDriver "execute" [JStr "return 1"]) "return 1" []
    Samples.freshSession
  = (Throw noSession, Samples.freshSession).
Proof.
  apply (without_session_nothing_reaches_the_driver DefaultPluginConfig
           Samples.anonymousDriver _ "return 1" "click" "a" [] [] Samples.freshSession).
  reflexivity.
Defined.

Lemma execute_passes_other_scripts_on_witness :
  (execute Samples.popupDriver
     (Env.command Samples.popupDriver "execute" [JStr "mobile: shell"]) "mobile: shell" []
     Samples.freshSession).1
  = Return (Passed JNull).
Proof.
  apply (execute_passes_other_scripts_on Samples.popupDriver
           (Env.command Samples.popupDriver "execute" [JStr "mobile: shell"])
           "mobile: shell" [] Samples.freshSession (Ok JNull)
           (Env.mk 1 [EvNext; EvCommand "execute" [JStr "mobile: shell"]])).
  - done.
  - unfold scripts. set_solver.
  - vm_compute. reflexivity.
Defined.

Lemma deleteSession_forgets_after_next_returned_witness :
  stores (deleteSession Samples.popupDriver
            (Env.command Samples.popupDriver "deleteSession" []) Samples.twoSessions).2
    !! "s1" = None
  ∧ stores (deleteSession Samples.brokenDriver
              (Env.command Samples.brokenDriver "deleteSession" []) Samples.twoSessions).2
    = stores Samples.twoSessions.
Proof.
  split.
  - apply (deleteSession_forgets_after_next_returned Samples.popupDriver
             (Env.command Samples.popupDriver "deleteSession" []) Samples.twoSessions
             (Ok JNull) (Env.mk 1 [EvNext; EvCommand "deleteSession" []])); [done|].
    vm_compute. reflexivity.
  - apply (deleteSession_forgets_after_next_returned Samples.brokenDriver
             (Env.command Samples.brokenDriver "deleteSession" []) Samples.twoSessions
             (Err Samples.serverError) (Env.mk 1 [EvNext; EvCommand "deleteSession" []]));
      [done|].
    vm_compute. reflexivity.
Defined.

Lemma handle_is_transparent_without_stale_failure_witness :
  (dispatch DefaultPluginConfig Samples.brokenDriver "click" [JStr "a"]
     Samples.remappedSession).1
  = Throw Samples.serverError.
Proof.
  apply (handle_is_transparent_without_stale_failure DefaultPluginConfig Samples.brokenDriver
           (Env.command Samples.brokenDriver "click" [JStr "a"]) "click" [JStr "a"]
           Samples.remappedSession (Err Samples.serverError)
           (Env.mk 1 [EvNext; EvCommand "click" [JStr "a"]])).
  - done.
  - vm_compute. reflexivity.
  - intros error [= <-]. vm_compute. reflexivity.
Defined.

Lemma no_recovery_without_dismissal_witness :
  (interceptAction DefaultPluginConfig Samples.staleDriver
     (Env.command Samples.staleDriver "click" [JStr "a"]) "a" "click" [JStr "a"]
     Samples.freshSession).1
  = Throw Samples.staleElement.
Proof.
  apply (no_recovery_without_dismissal DefaultPluginConfig Samples.staleDriver
           (Env.command Samples.staleDriver "click" [JStr "a"]) "a" "click" [JStr "a"]
           Samples.freshSession Samples.staleElement
           (Env.mk 1 [EvNext; EvCommand "click" [JStr "a"]])
           (Env.mk 1 [EvNext; EvCommand "click" [JStr "a"]]) WatcherStore.new).
  - done.
  - vm_compute. reflexivity.
  - vm_compute. reflexivity.
  - vm_compute. reflexivity.
Defined.

Lemma disable_script_silences_the_session_witness :
  Checker.checkWatchers Samples.popupDriver
    (storeOf Samples.popupDriver
       (execute Samples.popupDriver
          (Env.command Samples.popupDriver "execute" []) "mobile: disableUIWatchers" []
          Samples.staleSession).2)
    Samples.startEnv
  = (false,
     storeOf Samples.popupDriver
       (execute Samples.popupDriver
          (Env.command Samples.popupDriver "execute" []) "mobile: disableUIWatchers" []
          Samples.staleSession).2,
     Samples.startEnv).
Proof.
  apply (disable_script_silences_the_session Samples.popupDriver
           (Env.command Samples.popupDriver "execute" []) [] [] Samples.staleSession).
  done.
Defined.

Lemma stale_recovery_runs_the_command_on_the_new_element_witness :
  (interceptAction Samples.smallConfig Samples.recoverDriver
     (Env.command Samples.recoverDriver "click" [JStr "elem-1"]) "elem-1" "click"
     [JStr "elem-1"] Samples.staleSession).1
  = Return JNull
  ∧ ElementReferenceCache.getMappedId "elem-1"
      (cacheOf Samples.recoverDriver Samples.smallConfig
         (interceptAction Samples.smallConfig Samples.recoverDriver
            (Env.command Samples.recoverDriver "click" [JStr "elem-1"]) "elem-1" "click"
            [JStr "elem-1"] Samples.staleSession).2)
    = Some "btn1".
Proof.
  pose (next := Env.command Samples.recoverDriver "click" [JStr "elem-1"]).
  pose (e1 := (next (entering Samples.startEnv)).2).
  pose (pass := Checker.checkWatchers Samples.recoverDriver Samples.cookieStore e1).
  pose (found := ElementReferenceCache.getRef (Env.clock Samples.recoverDriver pass.2)
                   "elem-1" Samples.smallCache).
  pose (ref := ElementReferenceCache.mkRef "id" "btn1"
                 ElementReferenceCache.FromFindElement 1).
  pose (e3 := (Env.findElement Samples.recoverDriver "id" "btn1" pass.2).2).
  destruct (stale_recovery_runs_the_command_on_the_new_element Samples.smallConfig
              Samples.recoverDriver next "elem-1" "click" [JStr "elem-1"]
              Samples.staleSession Samples.staleElement e1 pass.2 e3 pass.1.2 ref found.2
              (Samples.element "btn1") "btn1") as (Hout & _ & _ & Hmap).
  - done.
  - vm_compute. reflexivity.
  - vm_compute. reflexivity.
  - vm_compute. reflexivity.
  - vm_compute. reflexivity.
  - reflexivity.
  - vm_compute. reflexivity.
  - vm_compute. reflexivity.
  - split; [|exact Hmap]. etrans; [exact Hout|]. vm_compute. reflexivity.
Defined.

End RoutingFacts.

(* ====================================================================== *)
(** * Inactive watchers and the capacity of the registry                   *)
(* ====================================================================== *)

Module InactiveFacts.
Import WatcherStore StoreSpec.

Lemma filter_length_strict {A} (P Q : A -> Prop) `{!forall x, Decision (P x)}
    `{!forall x, Decision (Q x)} (l : Datatypes.list A) (x0 : A) :
  (forall x, P x -> Q x) -> x0 ∈ l -> Q x0 -> ¬ P x0 ->
  (length (filter P l) < length (filter Q l))%nat.
Proof.
  intros Hpq Hin Hq Hp. induction l as [|x l IH]; [by apply elem_of_nil in Hin|].
  pose proof (RegistryFacts.filter_length_mono P Q l Hpq) as Hle.
  rewrite !filter_cons. apply elem_of_cons in Hin as [<-|Hin].
  - destruct (decide (P x0)); [done|]. destruct (decide (Q x0)); [|done]. simpl. lia.
  - specialize (IH Hin).
    destruct (decide (P x)) as [Hx|Hx], (decide (Q x)) as [Hy|Hy]; simpl; try lia.
    by apply Hpq in Hx.
Qed.

Lemma count_filter_strict {V} (R : string * V -> Prop) (P : V -> Prop)
    `{!forall e, Decision (R e)} `{!forall v, Decision (P v)}
    (m : Datatypes.list (string * V)) (e0 : string * V) :
  e0 ∈ m -> ¬ R e0 -> P e0.2 ->
  (length (filter P (JsMap.values (filter R m))) < length (filter P (JsMap.values m)))%nat.
Proof.
  intros Hin Hr Hp. unfold JsMap.values.
  assert (forall m' : Datatypes.list (string * V),
             (length (filter P (map snd (filter R m'))) <= length (filter P (map snd m')))%nat)
    as Hle.
  { induction m' as [|e m' IH]; [done|]. rewrite filter_cons.
    destruct (decide (R e)); simpl; rewrite !filter_cons;
      destruct (decide (P e.2)); simpl; lia. }
  induction m as [|e m IH]; [by apply elem_of_nil in Hin|].
  rewrite filter_cons. apply elem_of_cons in Hin as [<-|Hin].
  - destruct (decide (R e0)); [done|]. simpl. rewrite filter_cons.
    destruct (decide (P e0.2)); [|done]. simpl. specialize (Hle m). lia.
  - specialize (IH Hin).
    destruct (decide (R e)); simpl; rewrite !filter_cons;
      destruct (decide (P e.2)); simpl; lia.
Qed.

(** [add] succeeds for a name that is not stored when fewer than
    [MAX_WATCHERS] watchers are unexpired. *)
Lemma add_room now watcher s :
  get (UIWatcher.name watcher) s = None ->
  (length (getActiveWatchers now s).1 < MAX_WATCHERS)%nat ->
  exists w, (add now watcher s).1 = Ok w.
Proof.
  unfold get, add, JsMap.has. intros -> Hroom.
  destruct (getActiveWatchers now s) as [ws s1]. cbn [fst] in Hroom.
  destruct (Nat.leb_spec MAX_WATCHERS (length ws)); [lia|]. eauto.
Qed.

Section Inactive.
Context {World : Type} (driver : Driver.t World).

(** C10.  Let a stored watcher be unexpired at [now] and be marked
    inactive.  The inactive watcher is skipped by the loop of the
    matching engine (the pass goes on with the rest, in the same state);
    it is still stored, and still returned by [getActiveWatchers] and by
    the list command, now with status [inactive]; the number of
    unexpired watchers is what it was, also after the trigger count is
    updated, and a registration under a new name is refused with the
    capacity error whenever that number has reached the maximum, the
    constant [MAX_WATCHERS].  In a registry that respects the maximum the
    slot is free again after the watcher has been removed, and at every
    instant from its expiry on: the registration under a new name then
    succeeds. *)
Theorem inactive_watcher_skipped_but_still_counted
    (now : Z) (s : WatcherStore.t) (name : string) (w : WatcherState.t) :
  get name s = Some w ->
  expired now w = false ->
  let s' := markInactive name s in
  let w' := WatcherState.set_status inactive w in
  (forall rest p,
      Checker.checkLoop driver (w' :: rest) p = Checker.checkLoop driver rest p)
  ∧ get name s' = Some w'
  ∧ WatcherState.status w' = inactive
  ∧ w' ∈ (getActiveWatchers now s').1
  ∧ w' ∈ (Commands.listUIWatchers now s').1.1
  ∧ length (getActiveWatchers now s').1 = length (getActiveWatchers now s).1
  ∧ (forall t,
        length (getActiveWatchers now (incrementTriggerCount t name s')).1
        = length (getActiveWatchers now s).1)
  ∧ (forall watcher,
        JsMap.has (UIWatcher.name watcher) (watchers s) = false ->
        (MAX_WATCHERS <= length (getActiveWatchers now s).1)%nat ->
        (add now watcher s').1 = Err capacityError)
  ∧ (namesUnique s ->
     (length (getActiveWatchers now s).1 <= MAX_WATCHERS)%nat ->
     forall watcher,
       get (UIWatcher.name watcher) s = None ->
       (exists added, (add now watcher (remove name s').2).1 = Ok added)
       ∧ (forall later,
             expired later w = true ->
             exists added, (add later watcher s').1 = Ok added)).
Proof.
  intros Hget Hexp s' w'.
  assert (w' ∈ (getActiveWatchers now s').1) as Hin.
  { rewrite StoreFacts.getActiveWatchers_fst. apply list_elem_of_filter. split; [done|].
    by apply JsMap_values_update_elem. }
  assert (forall t f,
             (forall v, WatcherState.expiresAt (f v) = WatcherState.expiresAt v) ->
             length (filter (fun v => expired t v = false)
                       (JsMap.values (JsMap.update f name (watchers s))))
             = length (filter (fun v => expired t v = false) (JsMap.values (watchers s))))
    as Hsame.
  { intros t f Hf. apply JsMap_values_update_filter_length.
    intros v. unfold expired. by rewrite Hf. }
  assert (length (getActiveWatchers now s').1 = length (getActiveWatchers now s).1) as Hlen.
  { rewrite !StoreFacts.getActiveWatchers_fst. by apply Hsame. }
  split_and!; try done.
  - intros rest p. by apply CheckerFacts.checkLoop_skips_inactive.
  - by apply JsMap_get_update_eq.
  - intros t. rewrite <-Hlen, !StoreFacts.getActiveWatchers_fst.
    apply (JsMap_values_update_filter_length _ (fun v => expired now v = false)).
    by intros v.
  - intros watcher Hfresh Hfull. unfold add.
    change (watchers s') with
      (JsMap.update (WatcherState.set_status inactive) name (watchers s)).
    rewrite JsMap_has_update, Hfresh.
    destruct (getActiveWatchers now s') as [ws s1] eqn:E.
    cbn [fst] in Hlen. rewrite Hlen.
    destruct (Nat.leb_spec MAX_WATCHERS (length (getActiveWatchers now s).1)); [done|lia].
  - intros Hnd Hinv watcher Hfresh.
    assert (namesUnique s') as Hnd'.
    { unfold namesUnique, s'. simpl. by rewrite JsMap_keys_update. }
    assert (get name s' = Some w') as Hget' by (by apply JsMap_get_update_eq).
    assert (name ≠ UIWatcher.name watcher) as Hne by (intros ->; congruence).
    split.
    + apply add_room.
      * destruct (RegistryFacts.remove_lookup s' name Hnd') as (_ & _ & Hother & _).
        rewrite Hother by done. unfold get, s'. simpl.
        rewrite JsMap_get_update. unfold get in Hfresh. by rewrite Hfresh.
      * eapply Nat.lt_le_trans; [|exact Hinv]. rewrite <-Hlen.
        rewrite !StoreFacts.getActiveWatchers_fst. unfold WatcherStore.list, remove. simpl.
        rewrite JsMap_delete_filter by exact Hnd'.
        apply (count_filter_strict _ (fun v => expired now v = false) _ (name, w')).
        -- by apply JsMap_get_in.
        -- simpl. by intros H.
        -- done.
    + intros later Hlater. apply add_room.
      * unfold get, s'. simpl. rewrite JsMap_get_update.
        unfold get in Hfresh. by rewrite Hfresh.
      * eapply Nat.lt_le_trans; [|exact Hinv].
        rewrite !StoreFacts.getActiveWatchers_fst. unfold WatcherStore.list, s'. simpl.
        rewrite (Hsame later) by done.
        apply (filter_length_strict _ _ _ w).
        -- intros v. unfold expired in *. lia.
        -- apply JsMap_get_in in Hget. unfold JsMap.values.
           apply list_elem_of_In, in_map_iff. exists (name, w).
           split; [done|]. by apply list_elem_of_In.
        -- done.
        -- by rewrite Hlater.
Qed.
End Inactive.

(** The witness of C10: in the full registry at instant 10, watcher "w1"
    is marked inactive; the list still holds it and a sixth registration
    is refused; after "w1" is removed, and from the expiry of "w1" on, the
    sixth registration succeeds.  After a pass in which all five fired the
    next pass makes no call. *)
Lemma inactive_watcher_skipped_but_still_counted_witness :
  (exists w,
      get "w1" Samples.fullStore = Some w
      ∧ WatcherState.set_status inactive w
        ∈ (getActiveWatchers 10 (markInactive "w1" Samples.fullStore)).1)
  ∧ (add 10 (Samples.watcher "w6" None 30000 None None)
       (markInactive "w1" Samples.fullStore)).1 = Err capacityError
  ∧ (exists added,
        (add 10 (Samples.watcher "w6" None 30000 None None)
           (remove "w1" (markInactive "w1" Samples.fullStore)).2).1 = Ok added)
  ∧ (exists added,
        (add 30000 (Samples.watcher "w6" None 30000 None None)
           (markInactive "w1" Samples.fullStore)).1 = Ok added)
  ∧ (WatcherState.status <$> WatcherStore.list Samples.firedStore) = replicate 5 inactive
  ∧ Checker.checkWatchers Samples.popupDriver Samples.firedStore (Env.mk 10 [])
    = (false, Samples.firedStore, Env.mk 10 []).
Proof.
  destruct (get "w1" Samples.fullStore) as [w|] eqn:Hw; [|vm_compute in Hw; discriminate Hw].
  assert (expired 10 w = false ∧ expired 30000 w = true) as [Hexp Hlate].
  { vm_compute in Hw. injection Hw as <-. vm_compute. done. }
  destruct (inactive_watcher_skipped_but_still_counted Samples.popupDriver
              10 Samples.fullStore "w1" w Hw Hexp)
    as (_ & _ & _ & Hin & _ & _ & _ & Hcap & Hfree).
  destruct (Hfree ltac:(apply RegistryFacts.fullStore_storeInv)
              ltac:(vm_compute; lia) (Samples.watcher "w6" None 30000 None None)
              ltac:(vm_compute; reflexivity)) as [Hremoved Hexpired].
  split; [eauto|]. split; [apply Hcap; vm_compute; [reflexivity|lia]|].
  split; [exact Hremoved|]. split; [exact (Hexpired 30000 Hlate)|].
  split; vm_compute; reflexivity.
Defined.

End InactiveFacts.

(* ====================================================================== *)
(** * The retry of a failed lookup                                         *)
(* ====================================================================== *)

Module RetryFacts.
Import Plugin PluginSpec.

Section Generic.
Context {World : Type} (config : PluginConfig.t) (driver : Driver.t World).

(** An insertion into a cache that the plugin has produced ends, when the
    configured capacity is at least one. *)
Lemma cacheElement_ends now elementId using_ value cache :
  CacheSpec.reachable config cache ->
  (0 < PluginConfig.maxCacheEntries config)%nat ->
  is_Some (ElementReferenceCache.cacheElement now elementId using_ value cache).
Proof.
  intros Hreach Hmax.
  destruct (CacheMoreFacts.reachable_bounded config cache Hreach) as [Hcfg _].
  pose proof (CacheFacts.reachable_cacheInv config cache Hreach) as Hinv.
  destruct (CacheMoreFacts.evictLoop_ends
              (S (length (ElementReferenceCache.accessOrder cache))) cache Hinv)
    as [c1 Hc1]; [by rewrite Hcfg|lia|].
  unfold ElementReferenceCache.cacheElement, ElementReferenceCache.addToCache.
  rewrite Hc1. eauto.
Qed.



(** What the caching of a found element does to the session. *)
Lemma cacheFound_cached result using_ value (st : State (World := World))
    elementId cache' :
  Driver.sessionId driver ≠ "" ->
  truthy result && nonempty using_ && nonempty value = true ->
  Utils.extractElementId result = Some elementId ->
  ElementReferenceCache.cacheElement (Env.clock driver (env st)) elementId
    using_ value (cacheOf driver config st) = Some cache' ->
  cacheFound config driver result using_ value st
  = (Return tt,
     mkState (stores st) (<[Driver.sessionId driver := cache']> (caches st)) (env st)).
Proof.
  intros Hsid Hc Hid Hadd. unfold cacheFound. rewrite Hc, Hid.
  unfold bind at 1.
  destruct (InterceptionFacts.getCache_returns config driver st Hsid)
    as (caches1 & Hget & _ & Hins).
  rewrite Hget. unfold bind, clock, putCache. cbn [env stores caches].
  by rewrite Hadd, Hins.
Qed.

Lemma cacheFound_skipped result using_ value (st : State (World := World)) :
  truthy result && nonempty using_ && nonempty value = false
  ∨ Utils.extractElementId result = None ->
  cacheFound config driver result using_ value st = (Return tt, st).
Proof.
  unfold cacheFound. intros [->| ->]; [done|].
  by destruct (truthy result && nonempty using_ && nonempty value).
Qed.



(** C1, amended.  In a session with an identifier, let the lookup that
    [findElement] passes through fail with a failure that is classified
    as not-found or stale-reference.  Then [checkWatchers] runs once, on
    the store of the session and in the environment the failed lookup
    left, and the lookup is retried once in the environment that
    [checkWatchers] left, whatever [checkWatchers] returned.  When the
    retry fails the original failure is thrown.  When it succeeds its
    result is returned; and when the result carries an element identifier
    and locator strategy and value are not empty, the locator is in the
    cache of the session under that identifier, as entry of a
    single-element lookup made at that instant.  The insertion into the
    cache ends whenever the cache is in a state that the plugin produces
    and the configured capacity is at least one. *)
Theorem findElement_always_retries_once
    (next : Env.call JsVal) (using_ value : string) (st : State (World := World))
    (error : JsError) (e1 e2 e3 : Env.t World) (watchersTriggered : bool)
    (store' : WatcherStore.t) (retry : result JsVal) :
  Driver.sessionId driver ≠ "" ->
  next (entering (env st)) = (Err error, e1) ->
  shouldCheckWatchers error = true ->
  Checker.checkWatchers driver (storeOf driver st) e1 = (watchersTriggered, store', e2) ->
  next (entering e2) = (retry, e3) ->
  let stores' := <[Driver.sessionId driver := store']> (stores st) in
  let cache := cacheOf driver config st in
  match retry with
  | Err _ =>
      findElement config driver next using_ value st
      = (Throw error, mkState stores' (caches st) e3)
  | Ok result =>
      if truthy result && nonempty using_ && nonempty value then
        match Utils.extractElementId result with
        | Some elementId =>
            (forall cache',
                ElementReferenceCache.cacheElement (Env.clock driver e3) elementId
                  using_ value cache = Some cache' ->
                findElement config driver next using_ value st
                = (Return result,
                   mkState stores' (<[Driver.sessionId driver := cache']> (caches st)) e3)
                ∧ ElementReferenceCache.cache cache' !! elementId
                  = Some (ElementReferenceCache.mkRef using_ value
                            ElementReferenceCache.FromFindElement (Env.clock driver e3)))
            ∧ (CacheSpec.reachable config cache ->
               (0 < PluginConfig.maxCacheEntries config)%nat ->
               is_Some (ElementReferenceCache.cacheElement (Env.clock driver e3) elementId
                          using_ value cache))
        | None =>
            findElement config driver next using_ value st
            = (Return result, mkState stores' (caches st) e3)
        end
      else
        findElement config driver next using_ value st
        = (Return result, mkState stores' (caches st) e3)
  end.
Proof.
  intros Hsid Hfail Hclass Hcheck Hretry stores' cache.
  assert (findElement config driver next using_ value st
          = match retry with
            | Err _ => (Throw error, mkState stores' (caches st) e3)
            | Ok result =>
                match cacheFound config driver result using_ value
                        (mkState stores' (caches st) e3) with
                | (Return _, st') => (Return result, st')
                | (Throw _, st') => (Throw error, st')
                | (Hang, st') => (Hang, st')
                end
            end) as Hrun.
  { unfold findElement, try_catch at 1, bind at 1.
    rewrite (InterceptionFacts.call_next_eq next st _ e1 Hfail). cbn [outcomeOf].
    rewrite Hclass. unfold try_catch, bind at 1.
    destruct (PluginFacts.getStore_returns driver (mkState (stores st) (caches st) e1) Hsid)
      as (stores1 & -> & Hstores1).
    unfold bind at 1, checkWatchers. cbn [env stores caches].
    fold (storeOf driver st). rewrite Hcheck. unfold bind at 1.
    erewrite InterceptionFacts.call_next_eq by (cbn [env]; exact Hretry).
    cbn [stores caches]. rewrite Hstores1. fold stores'.
    destruct retry as [result|err]; cbn [outcomeOf]; [|done].
    unfold bind, ret.
    by destruct (cacheFound config driver result using_ value _) as [[[]| |] ?]. }
  rewrite Hrun. destruct retry as [result|err]; [|done].
  destruct (truthy result && nonempty using_ && nonempty value) eqn:Hc;
    [|by rewrite cacheFound_skipped by (by left)].
  destruct (Utils.extractElementId result) as [elementId|] eqn:Hid;
    [|by rewrite cacheFound_skipped by (by right)].
  split.
  - intros cache' Hadd.
    rewrite (cacheFound_cached result using_ value (mkState stores' (caches st) e3)
               elementId cache' Hsid Hc Hid Hadd).
    split; [done|]. by apply CacheMoreFacts.addToCache_lookup in Hadd.
  - apply cacheElement_ends.
Qed.

(** ** An empty result of [findElements] *)


End Generic.

(** The witness of C1 (amended): on a screen where the element appears by
    itself after the first lookup, the retry finds it; it is returned, and
    its locator is in the cache of the session. *)
Lemma findElement_always_retries_once_witness :
  exists cache',
    findElement DefaultPluginConfig Samples.lateDriver
      (Env.findElement Samples.lateDriver "id" "login") "id" "login" Samples.freshSession
    = (Return (Samples.element "login"),
       mkState {["s1" := WatcherStore.new]} {["s1" := cache']}
         (Env.mk 2 [EvNext; EvFindElement "id" "login"; EvNext; EvFindElement "id" "login"]))
    ∧ ElementReferenceCache.cache cache' !! "login"
      = Some (ElementReferenceCache.mkRef "id" "login"
                ElementReferenceCache.FromFindElement 2).
Proof.
  pose proof (findElement_always_retries_once DefaultPluginConfig Samples.lateDriver
                (Env.findElement Samples.lateDriver "id" "login") "id" "login"
                Samples.freshSession Samples.noSuchElement
                (Env.mk 1 [EvNext; EvFindElement "id" "login"])
                (Env.mk 1 [EvNext; EvFindElement "id" "login"])
                (Env.mk 2 [EvNext; EvFindElement "id" "login"; EvNext;
                           EvFindElement "id" "login"])
                false WatcherStore.new (Ok (Samples.element "login"))
                ltac:(done) ltac:(vm_compute; reflexivity) ltac:(vm_compute; reflexivity)
                ltac:(vm_compute; reflexivity) ltac:(vm_compute; reflexivity)) as H.
  cbv zeta in H.
  change (truthy (Samples.element "login") && nonempty "id" && nonempty "login")
    with true in H.
  change (Utils.extractElementId (Samples.element "login")) with (Some "login") in H.
  cbv iota in H. destruct H as [Hcached Hends].
  destruct Hends as [cache' Hadd]; [apply CacheSpec.reach_new|vm_compute; lia|].
  exists cache'. destruct (Hcached cache' Hadd) as [Hrun Hlook].
  split; [|exact Hlook]. rewrite Hrun. reflexivity.
Defined.


End RetryFacts.

(* ====================================================================== *)
(** * The configured largest duration                                      *)
(* ====================================================================== *)

Module DurationFacts.
Import Plugin PluginSpec.

(** C9.  The bound on the duration of a registration is the constant
    [MAX_DURATION_MS], 60000, of the validators, and not the largest
    duration of the configuration: [execute], through which every
    registration goes, reads no configuration.  So in a plugin configured
    with a largest duration of 30000 a registration with duration 45000
    succeeds (the watcher expires 45000 after its registration), where C9
    has it fail; and in a plugin configured with a largest duration of
    120000 a registration with duration 90000 fails, with the message of
    the constant, and leaves the registry as it was. *)
Theorem configured_max_duration_is_not_consulted :
  let next := Env.command Samples.popupDriver "execute" [] in
  let run duration :=
    execute Samples.popupDriver next "mobile: registerUIWatcher"
      [Samples.params "cookie" (JNum duration)] Samples.freshSession in
  PluginConfig.maxDurationMs Samples.shortConfig = 30000
  ∧ (run 45000).1
    = Return (Registered {| Commands.rw_name := "cookie";
                            Commands.rw_priority := 0;
                            Commands.rw_registeredAt := 0;
                            Commands.rw_expiresAt := 45000;
                            Commands.rw_status := active |})
  ∧ WatcherState.expiresAt
      <$> WatcherStore.get "cookie" (storeOf Samples.popupDriver (run 45000).2)
    = Some 45000
  ∧ PluginConfig.maxDurationMs Samples.longConfig = 120000
  ∧ (run 90000).1 = Throw (newError "UIWatcher duration must be ≤ 60 seconds")
  ∧ WatcherStore.watchers (storeOf Samples.popupDriver (run 90000).2) = [].
Proof.
  cbv zeta. split_and!; vm_compute; reflexivity.
Qed.

End DurationFacts.
